(** * Smart Mortgage Accelerator: the amortization engines

    A shallow embedding of the calculation core of the application:

    - [lib/mortgage-calculator.ts]: [calculateMonthlyEMI],
      [calculateTotalInterestAndAmount], [generateAmortizationSchedule],
      [calculateOverpaymentImpact], [calculateFixedRateImpact],
      [calculatePartPaymentImpact], [monthsToYearsMonths];
    - [lib/advanced-calculator.ts]: [getMonthlyRate], [calculateEMI],
      [isSameMonth], [addMonths], [getPaymentDate],
      [calculateAdvancedMortgage], [daysUntilDate];
    - [lib/mortgage-context.tsx]: [mortgageReducer], [getCurrentScenario];
    - [app/(tabs)/schedule.tsx]: the yearly view of a schedule.

    Conventions of the embedding.

    - A JavaScript [number] holding an amount or a rate is an exact rational
      ([Q]) in the main embedding, on which the properties of the algorithms
      are proved; rounding, infinities and NaN are outside it.  Equality of
      amounts is [==] ([Qeq]); [=] is used where the code returns the very
      same expression.  Modules [IEEE] and [IEEEAdvanced] embed the loops
      of the standard generator, of the fixed-rate evaluator and of the
      date-aware engine a second time over binary64 floats, with NaN and
      the infinities: there the generator is evaluated as it runs, and the
      properties that must hold of every number the code can meet (the
      ledger of a schedule, the cap of the date-aware loop) are proved.
    - A [number] holding a count of months, a day of the month or a year is
      an integer ([Z]).
    - A [Date] is its time value: milliseconds of local time since the epoch,
      read through the calendar functions of ECMAScript ([MakeDay],
      [YearFromTime], [MonthFromTime], [DateFromTime]) for a zone with a
      constant offset.
    - A [while] loop is unrolled with fuel: [unroll k] performs at most [k]
      iterations, [while k] returns [None] when the condition still holds
      after [k] iterations.  A function that contains a [while] loop takes
      the fuel as its first argument and returns an [option].  A [for] loop
      over a counter that its body leaves alone is [unroll] with its bound
      as number of iterations.
    - An optional field of an input object is an [option]; a field tested
      as a condition is [truthy] (a number: present and not zero) or
      [isSome] (a date: present).
    - Division by zero is [0] in [Q] and an infinity or NaN in JavaScript:
      the EMI of a loan over 0 months is outside the model (the loops do not
      run for such a loan). *)

From Stdlib Require Import ZArith QArith Qminmax Qpower Qfield List Bool Lia Lqa Sorted.
From Stdlib Require Import Floats.
From Stdlib Require String.
Import String.StringSyntax.
Import ListNotations.

Local Open Scope Q_scope.

(** ** Loops with fuel *)

Section While.
Context {S : Type}.
Variable cond : S -> bool.
Variable body : S -> S.

Fixpoint unroll (k : nat) (s : S) : S :=
  match k with
  | O => s
  | Datatypes.S k' => if cond s then unroll k' (body s) else s
  end.

Definition while (fuel : nat) (s : S) : option S :=
  let s' := unroll fuel s in
  if cond s' then None else Some s'.

End While.

(** ** Comparisons of amounts *)

(** JavaScript [x < y] on numbers. *)
Definition Qltb (x y : Q) : bool := negb (Qle_bool y x).

(** ** lib/mortgage-calculator.ts *)

Module PaymentRecord.
Record t : Type := mk {
  month : Z;
  year : Z;
  payment : Q;
  principal : Q;
  interest : Q;
  balance : Q
}.
End PaymentRecord.

Definition calculateMonthlyEMI (principal annualRate : Q) (tenureMonths : Z) : Q :=
  let monthlyRate := annualRate / 12 / 100 in
  if Qeq_bool monthlyRate 0 then principal / inject_Z tenureMonths
  else
    let numerator := monthlyRate * (1 + monthlyRate) ^ tenureMonths in
    let denominator := (1 + monthlyRate) ^ tenureMonths - 1 in
    (principal * numerator) / denominator.

Definition calculateTotalInterestAndAmount
    (principal monthlyEMI : Q) (tenureMonths : Z) : Q * Q :=
  let totalAmount := monthlyEMI * inject_Z tenureMonths in
  let totalInterest := totalAmount - principal in
  (totalInterest, totalAmount).

(** The variables of the loop of [generateAmortizationSchedule]. *)
Record GenState : Type := mkGenState {
  gs_balance : Q;
  gs_month : Z;
  gs_year : Z;
  gs_schedule : list PaymentRecord.t
}.

Section GenLoop.
Variables monthlyEMI monthlyRate monthlyOverpayment : Q.
Variable tenureMonths : Z.

(** [balance > 0 && month < tenureMonths * 2] *)
Definition gen_cond (st : GenState) : bool :=
  Qltb 0 (gs_balance st) && (gs_month st <? tenureMonths * 2)%Z.

Definition gen_body (st : GenState) : GenState :=
  let balance := gs_balance st in
  let month := gs_month st in
  let year := gs_year st in
  let interestPayment := balance * monthlyRate in
  let principalPayment := monthlyEMI - interestPayment + monthlyOverpayment in
  let principalPayment :=
    if Qltb balance principalPayment then balance else principalPayment in
  let totalPayment := interestPayment + principalPayment in
  let balance := balance - principalPayment in
  let schedule :=
    gs_schedule st ++
    [PaymentRecord.mk (month + 1) year totalPayment principalPayment
       interestPayment (Qmax 0 balance)] in
  let month := (month + 1)%Z in
  if (month =? 12)%Z then mkGenState balance 0 (year + 1) schedule
  else mkGenState balance month year schedule.
End GenLoop.

Definition gen_init (principal : Q) : GenState := mkGenState principal 0 0 [].

(** The state of the loop of [generateAmortizationSchedule] after at most
    [k] iterations. *)
Definition gen_run (principal annualRate : Q) (tenureMonths : Z)
    (monthlyOverpayment : Q) (k : nat) : GenState :=
  let monthlyEMI := calculateMonthlyEMI principal annualRate tenureMonths in
  let monthlyRate := annualRate / 12 / 100 in
  unroll (gen_cond tenureMonths)
         (gen_body monthlyEMI monthlyRate monthlyOverpayment)
         k (gen_init principal).

Definition generateAmortizationSchedule (fuel : nat)
    (principal annualRate : Q) (tenureMonths : Z) (monthlyOverpayment : Q)
    : option (list PaymentRecord.t) :=
  let monthlyEMI := calculateMonthlyEMI principal annualRate tenureMonths in
  let monthlyRate := annualRate / 12 / 100 in
  match while (gen_cond tenureMonths)
              (gen_body monthlyEMI monthlyRate monthlyOverpayment)
              fuel (gen_init principal) with
  | Some st => Some (gs_schedule st)
  | None => None
  end.

(** [schedule.reduce((sum, record) => sum + record.interest, 0)] *)
Definition sumInterest (schedule : list PaymentRecord.t) : Q :=
  fold_left (fun sum record => sum + PaymentRecord.interest record) schedule 0.

Module OverpaymentResult.
Record t : Type := mk {
  originalTenureMonths : Z;
  newTenureMonths : Z;
  tenureSaved : Z;
  originalTotalInterest : Q;
  newTotalInterest : Q;
  interestSaved : Q;
  interestSavedPercentage : Q;
  monthlyOverpayment : Q;
  schedule : list PaymentRecord.t
}.
End OverpaymentResult.

Definition calculateOverpaymentImpact (fuel : nat)
    (principal annualRate : Q) (tenureMonths : Z) (monthlyOverpayment : Q)
    : option OverpaymentResult.t :=
  let originalEMI := calculateMonthlyEMI principal annualRate tenureMonths in
  let originalTotalInterest :=
    fst (calculateTotalInterestAndAmount principal originalEMI tenureMonths) in
  match generateAmortizationSchedule fuel principal annualRate tenureMonths
          monthlyOverpayment with
  | None => None
  | Some schedule =>
    let newTenureMonths := Z.of_nat (length schedule) in
    let newTotalInterest := sumInterest schedule in
    let interestSaved := originalTotalInterest - newTotalInterest in
    let interestSavedPercentage := (interestSaved / originalTotalInterest) * 100 in
    Some (OverpaymentResult.mk tenureMonths newTenureMonths
            (tenureMonths - newTenureMonths) originalTotalInterest
            newTotalInterest interestSaved interestSavedPercentage
            monthlyOverpayment schedule)
  end.

Module PartPaymentResult.
Record t : Type := mk {
  originalBalance : Q;
  lumpSumAmount : Q;
  newBalance : Q;
  principalReduction : Q;
  originalTenureMonths : Z;
  newTenureMonths : Z;
  tenureSaved : Z;
  originalTotalInterest : Q;
  newTotalInterest : Q;
  interestSaved : Q;
  maxAllowedPayment : Q;
  isWithinLimit : bool;
  schedule : list PaymentRecord.t
}.
End PartPaymentResult.

(** The literal [0.1] is the rational 1/10.  In binary64 the literal and
    the product [originalLoanAmount * 0.1] are rounded, so within one unit
    in the last place of the limit [isWithinLimit] can differ from the
    comparison with an exact tenth; nothing below relies on the value of
    [maxAllowedPayment] or [isWithinLimit] near the limit. *)
Definition calculatePartPaymentImpact (fuel : nat)
    (currentBalance : Q) (remainingTenureMonths : Z)
    (annualRate lumpSumAmount originalLoanAmount : Q)
    : option PartPaymentResult.t :=
  let maxAllowedPayment := originalLoanAmount * (1 # 10) in
  let isWithinLimit := Qle_bool lumpSumAmount maxAllowedPayment in
  let originalEMI :=
    calculateMonthlyEMI currentBalance annualRate remainingTenureMonths in
  let originalTotalInterest :=
    fst (calculateTotalInterestAndAmount currentBalance originalEMI
           remainingTenureMonths) in
  let newBalance := Qmax 0 (currentBalance - lumpSumAmount) in
  if Qeq_bool newBalance 0 then
    Some (PartPaymentResult.mk currentBalance lumpSumAmount 0 currentBalance
            remainingTenureMonths 0 remainingTenureMonths
            originalTotalInterest 0 originalTotalInterest
            maxAllowedPayment isWithinLimit [])
  else
    let newEMI := calculateMonthlyEMI newBalance annualRate remainingTenureMonths in
    match generateAmortizationSchedule fuel newBalance annualRate
            remainingTenureMonths 0 with
    | None => None
    | Some schedule =>
      let newTenureMonths := Z.of_nat (length schedule) in
      let newTotalInterest := sumInterest schedule in
      let interestSaved := originalTotalInterest - newTotalInterest in
      Some (PartPaymentResult.mk currentBalance lumpSumAmount newBalance
              lumpSumAmount remainingTenureMonths newTenureMonths
              (remainingTenureMonths - newTenureMonths)
              originalTotalInterest newTotalInterest interestSaved
              maxAllowedPayment isWithinLimit schedule)
    end.

(** ** lib/mortgage-calculator.ts in IEEE double precision

    The same code with [number] as the binary64 floats of the kernel
    (round to nearest even), to evaluate the generator on inputs where
    rounding decides the outcome. *)

Module IEEE.
Local Open Scope float_scope.

(** A count of months as a number. *)
Definition ofZ (n : Z) : float := of_uint63 (Uint63.of_Z n).

(** [Math.pow] with a whole exponent.  The language leaves the accuracy of
    [Math.pow] to the implementation; repeated multiplication is its exact
    value for the exponents 0 and 1, and it is [Infinity], as in every
    implementation, for a power far beyond the largest double.  It is
    evaluated below at exponent 1 and at [1.025 ^ 30000] (about 10^321)
    only; what is proved for all inputs takes the installment as a
    parameter and does not depend on it. *)
Definition Math_pow (base : float) (exponent : Z) : float :=
  match exponent with
  | Z0 => 1
  | Zpos p => Pos.iter (fun acc => acc * base) 1 p
  | Zneg p => 1 / Pos.iter (fun acc => acc * base) 1 p
  end.

(** [Math.max(x, y)] for [x] a positive zero. *)
Definition Math_max (x y : float) : float :=
  if is_nan x || is_nan y then nan else if x <? y then y else x.

Module PaymentRecord.
Record t : Type := mk {
  month : Z;
  year : Z;
  payment : float;
  principal : float;
  interest : float;
  balance : float
}.
End PaymentRecord.

Definition calculateMonthlyEMI (principal annualRate : float) (tenureMonths : Z) : float :=
  let monthlyRate := annualRate / 12 / 100 in
  if monthlyRate =? 0 then principal / ofZ tenureMonths
  else
    let numerator := monthlyRate * Math_pow (1 + monthlyRate) tenureMonths in
    let denominator := Math_pow (1 + monthlyRate) tenureMonths - 1 in
    (principal * numerator) / denominator.

(** The variables of the loop of [generateAmortizationSchedule]. *)
Record GenState : Type := mkGenState {
  gs_balance : float;
  gs_month : Z;
  gs_year : Z;
  gs_schedule : list PaymentRecord.t
}.

Definition gen_cond (tenureMonths : Z) (st : GenState) : bool :=
  (0 <? gs_balance st) && (gs_month st <? tenureMonths * 2)%Z.

Definition gen_body (monthlyEMI monthlyRate monthlyOverpayment : float)
    (st : GenState) : GenState :=
  let balance := gs_balance st in
  let month := gs_month st in
  let year := gs_year st in
  let interestPayment := balance * monthlyRate in
  let principalPayment := monthlyEMI - interestPayment + monthlyOverpayment in
  let principalPayment :=
    if balance <? principalPayment then balance else principalPayment in
  let totalPayment := interestPayment + principalPayment in
  let balance := balance - principalPayment in
  let schedule :=
    gs_schedule st ++
    [PaymentRecord.mk (month + 1) year totalPayment principalPayment
       interestPayment (Math_max 0 balance)] in
  let month := (month + 1)%Z in
  if (month =? 12)%Z then mkGenState balance 0 (year + 1) schedule
  else mkGenState balance month year schedule.

Definition generateAmortizationSchedule (fuel : nat)
    (principal annualRate : float) (tenureMonths : Z) (monthlyOverpayment : float)
    : option (list PaymentRecord.t) :=
  let monthlyEMI := calculateMonthlyEMI principal annualRate tenureMonths in
  let monthlyRate := annualRate / 12 / 100 in
  match while (gen_cond tenureMonths)
              (gen_body monthlyEMI monthlyRate monthlyOverpayment)
              fuel (mkGenState principal 0 0 []) with
  | Some st => Some (gs_schedule st)
  | None => None
  end.

(** The principal that a period of the generator asks for before the
    clamp, read off its record. *)
Definition gen_due (monthlyEMI monthlyOverpayment : float) (r : PaymentRecord.t)
    : float :=
  monthlyEMI - PaymentRecord.interest r + monthlyOverpayment.

(** [calculateFixedRateImpact]: [balance > 0], the part of the tests of its
    two [for] loops that reads the state, and the body of its post-fixed
    loop (the body of its fixed loop is [gen_body]). *)
Definition fixed_cond (st : GenState) : bool := 0 <? gs_balance st.

Definition post_body (postFixedEMI postFixedRate_monthly : float) (st : GenState)
    : GenState :=
  let postFixedBalance := gs_balance st in
  let month := gs_month st in
  let year := gs_year st in
  let interestPayment := postFixedBalance * postFixedRate_monthly in
  let principalPayment := postFixedEMI - interestPayment in
  let principalPayment :=
    if postFixedBalance <? principalPayment then postFixedBalance
    else principalPayment in
  let totalPayment := interestPayment + principalPayment in
  let postFixedBalance := postFixedBalance - principalPayment in
  let schedule :=
    gs_schedule st ++
    [PaymentRecord.mk (month + 1) year totalPayment principalPayment
       interestPayment (Math_max 0 postFixedBalance)] in
  let month := (month + 1)%Z in
  if (month =? 12)%Z then mkGenState postFixedBalance 0 (year + 1) schedule
  else mkGenState postFixedBalance month year schedule.

Definition post_due (postFixedEMI : float) (r : PaymentRecord.t) : float :=
  postFixedEMI - PaymentRecord.interest r.

(** Reading a schedule as a ledger: the balance a period starts from is
    the loan amount for the first record and the balance recorded by the
    previous record afterwards. *)
Section Ledger.
Context {R : Type}.
Variables principalOf balanceOf due : R -> float.

Definition enteringBalance (initial : float) (schedule : list R) (i : nat) : float :=
  match i with
  | O => initial
  | S j =>
    match nth_error schedule j with
    | Some r => balanceOf r
    | None => 0
    end
  end.

Definition closingBalance (initial : float) (schedule : list R) : float :=
  enteringBalance initial schedule (length schedule).

(** Every period starts from a positive balance, repays what it asks for
    ([due]) or, when that exceeds the balance, the balance, and records
    [Math.max(0, balance - principal)]. *)
Definition clamped (initial : float) (schedule : list R) : Prop :=
  forall i r, nth_error schedule i = Some r ->
    let entering := enteringBalance initial schedule i in
    (0 <? entering) = true /\
    principalOf r = (if entering <? due r then entering else due r) /\
    balanceOf r = Math_max 0 (entering - principalOf r).
End Ledger.
End IEEE.

(** ** The host calendar (ECMAScript time values)

    [Date] objects are read and built through the abstract operations of
    the language standard; the local zone has a constant offset, so local
    time values are compared as they are. *)

Local Open Scope Z_scope.

Definition Date : Type := Z.

Definition msPerDay : Z := 86400000.

Definition Day (t : Z) : Z := t / msPerDay.
Definition TimeWithinDay (t : Z) : Z := t mod msPerDay.

Definition DaysInYear (y : Z) : Z :=
  if negb (y mod 4 =? 0) then 365
  else if negb (y mod 100 =? 0) then 366
  else if negb (y mod 400 =? 0) then 365
  else 366.

Definition DayFromYear (y : Z) : Z :=
  365 * (y - 1970) + (y - 1969) / 4 - (y - 1901) / 100 + (y - 1601) / 400.

Definition InLeapYear (y : Z) : Z := if DaysInYear y =? 366 then 1 else 0.

(** The largest [y] with [DayFromYear y <= d]: a first estimate from the
    mean length of a year, corrected by at most one. *)
Definition YearFromDay (d : Z) : Z :=
  let y := 1970 + (400 * d) / 146097 in
  if DayFromYear (y + 1) <=? d then y + 1
  else if d <? DayFromYear y then y - 1
  else y.

Definition YearFromTime (t : Z) : Z := YearFromDay (Day t).

Definition DayWithinYear (t : Z) : Z := Day t - DayFromYear (YearFromTime t).

Definition MonthFromTime (t : Z) : Z :=
  let d := DayWithinYear t in
  let l := InLeapYear (YearFromTime t) in
  if d <? 31 then 0
  else if d <? 59 + l then 1
  else if d <? 90 + l then 2
  else if d <? 120 + l then 3
  else if d <? 151 + l then 4
  else if d <? 181 + l then 5
  else if d <? 212 + l then 6
  else if d <? 243 + l then 7
  else if d <? 273 + l then 8
  else if d <? 304 + l then 9
  else if d <? 334 + l then 10
  else 11.

Definition DateFromTime (t : Z) : Z :=
  let d := DayWithinYear t in
  let l := InLeapYear (YearFromTime t) in
  match MonthFromTime t with
  | 0 => d + 1
  | 1 => d - 30
  | 2 => d - 58 - l
  | 3 => d - 89 - l
  | 4 => d - 119 - l
  | 5 => d - 150 - l
  | 6 => d - 180 - l
  | 7 => d - 211 - l
  | 8 => d - 242 - l
  | 9 => d - 272 - l
  | 10 => d - 303 - l
  | _ => d - 333 - l
  end.

(** Days of the year before the first of month [mn] (0-based). *)
Definition daysBeforeMonth (l mn : Z) : Z :=
  match mn with
  | 0 => 0
  | 1 => 31
  | 2 => 59 + l
  | 3 => 90 + l
  | 4 => 120 + l
  | 5 => 151 + l
  | 6 => 181 + l
  | 7 => 212 + l
  | 8 => 243 + l
  | 9 => 273 + l
  | 10 => 304 + l
  | _ => 334 + l
  end.

(** The length of month [month] (0-based) of [year]. *)
Definition DaysInMonth (year month : Z) : Z :=
  match month with
  | 1 => 28 + InLeapYear year
  | 3 | 5 | 8 | 10 => 30
  | _ => 31
  end.

Definition MakeDay (year month date : Z) : Z :=
  let ym := year + month / 12 in
  let mn := month mod 12 in
  DayFromYear ym + daysBeforeMonth (InLeapYear ym) mn + date - 1.

Definition MakeDate (day time : Z) : Z := day * msPerDay + time.

(** [new Date(year, month, day)] *)
Definition newDate (year month day : Z) : Date :=
  let yr := if (0 <=? year) && (year <=? 99) then 1900 + year else year in
  MakeDate (MakeDay yr month day) 0.

Definition getFullYear (d : Date) : Z := YearFromTime d.
Definition getMonth (d : Date) : Z := MonthFromTime d.
Definition getDate (d : Date) : Z := DateFromTime d.

(** [d.setMonth(month)] *)
Definition setMonth (d : Date) (month : Z) : Date :=
  MakeDate (MakeDay (YearFromTime d) month (DateFromTime d)) (TimeWithinDay d).

(** ** lib/advanced-calculator.ts *)

Module AdvancedMortgageInput.
Record t : Type := mk {
  loanAmount : Q;
  annualRate : Q;
  tenureMonths : Z;
  emiPaymentDate : Z;
  loanStartDate : Date;
  hasFixedRatePeriod : bool;
  fixedRateMonths : option Z;
  fixedRate : option Q;
  variableRate : option Q;
  fixedRateEndDate : option Date;
  hasLumpSum : bool;
  lumpSumAmount : option Q;
  lumpSumDate : option Date;
  hasExtraPayments : bool;
  extraPaymentAmount : option Q;
  extraPaymentStartDate : option Date;
  extraPaymentEndDate : option Date
}.
End AdvancedMortgageInput.

Module PaymentDetail.
Record t : Type := mk {
  date : Date;
  monthNumber : Z;
  principalPayment : Q;
  interestPayment : Q;
  totalPayment : Q;
  balance : Q;
  isLumpSumMonth : bool;
  isExtraPaymentMonth : bool;
  interestRate : Q
}.
End PaymentDetail.

Module AdvancedCalculationResult.
Record t : Type := mk {
  schedule : list PaymentDetail.t;
  originalTenureMonths : Z;
  newTenureMonths : Z;
  tenureSaved : Z;
  originalTotalInterest : Q;
  newTotalInterest : Q;
  interestSaved : Q;
  interestSavedPercentage : Q;
  totalLumpSum : Q;
  totalExtraPayments : Q;
  originalMonthlyEMI : Q;
  newMonthlyEMI : Q
}.
End AdvancedCalculationResult.

Local Open Scope Q_scope.

Definition getMonthlyRate (annualRate : Q) : Q := annualRate / 100 / 12.

Definition calculateEMI (principal monthlyRate : Q) (months : Z) : Q :=
  if Qeq_bool monthlyRate 0 then principal / inject_Z months
  else (principal * monthlyRate * (1 + monthlyRate) ^ months) /
       ((1 + monthlyRate) ^ months - 1).

Definition isSameMonth (date1 date2 : Date) : bool :=
  (getFullYear date1 =? getFullYear date2)%Z && (getMonth date1 =? getMonth date2)%Z.

Definition addMonths (date : Date) (months : Z) : Date :=
  let result := date in
  setMonth result (getMonth result + months).

Definition getPaymentDate (startDate : Date) (monthOffset paymentDay : Z) : Date :=
  let date := addMonths startDate monthOffset in
  let lastDay := getDate (newDate (getFullYear date) (getMonth date + 1) 0) in
  let day := Z.min paymentDay lastDay in
  newDate (getFullYear date) (getMonth date) day.

(** A number used as a condition: present and not zero. *)
Definition truthy (x : option Q) : bool :=
  match x with
  | Some a => negb (Qeq_bool a 0)
  | None => false
  end.

(** A number read after its presence was tested. *)
Definition valueOf (x : option Q) : Q :=
  match x with
  | Some a => a
  | None => 0
  end.

Definition isSome {A : Type} (x : option A) : bool :=
  match x with
  | Some _ => true
  | None => false
  end.

(** [paymentDate <= bound] where [bound] is an optional date that was
    tested for presence. *)
Definition onOrBefore (paymentDate : Date) (bound : option Date) : bool :=
  match bound with
  | Some d => (paymentDate <=? d)%Z
  | None => false
  end.

Definition onOrAfter (paymentDate : Date) (bound : option Date) : bool :=
  match bound with
  | Some d => (d <=? paymentDate)%Z
  | None => false
  end.

Definition sameMonthAs (paymentDate : Date) (other : option Date) : bool :=
  match other with
  | Some d => isSameMonth paymentDate d
  | None => false
  end.

(** The variables of the loop of [calculateAdvancedMortgage]; [as_break]
    records that the [break] of the safety check was taken. *)
Record AdvState : Type := mkAdvState {
  as_balance : Q;
  as_totalInterestPaid : Q;
  as_totalLumpSum : Q;
  as_totalExtraPayments : Q;
  as_month : Z;
  as_schedule : list PaymentDetail.t;
  as_break : bool
}.

Section AdvLoop.
Import AdvancedMortgageInput.
Variable input : AdvancedMortgageInput.t.
Variable originalEMI : Q.

(** [balance > 0 && month < input.tenureMonths * 2] *)
Definition adv_cond (st : AdvState) : bool :=
  negb (as_break st) &&
  (Qltb 0 (as_balance st) && (as_month st <? tenureMonths input * 2)%Z).

(** The interest rate of a period (fixed or variable). *)
Definition rateOn (paymentDate : Date) : Q :=
  let currentRate := annualRate input in
  if hasFixedRatePeriod input && isSome (fixedRateEndDate input) then
    if onOrBefore paymentDate (fixedRateEndDate input) && isSome (fixedRate input)
    then valueOf (fixedRate input)
    else if isSome (variableRate input) then valueOf (variableRate input)
    else currentRate
  else currentRate.

(** The period receives the extra monthly payment. *)
Definition inExtraWindow (paymentDate : Date) : bool :=
  (hasExtraPayments input && isSome (extraPaymentStartDate input) &&
   isSome (extraPaymentEndDate input) && truthy (extraPaymentAmount input)) &&
  (onOrAfter paymentDate (extraPaymentStartDate input) &&
   onOrBefore paymentDate (extraPaymentEndDate input)).

(** The period receives the lump sum. *)
Definition inLumpSumMonth (paymentDate : Date) : bool :=
  (hasLumpSum input && isSome (lumpSumDate input) && truthy (lumpSumAmount input)) &&
  sameMonthAs paymentDate (lumpSumDate input).

Definition adv_body (st : AdvState) : AdvState :=
  let balance := as_balance st in
  let month := as_month st in
  let paymentDate := getPaymentDate (loanStartDate input) month (emiPaymentDate input) in
  let currentRate := rateOn paymentDate in
  let currentMonthlyRate := getMonthlyRate currentRate in
  let interestPayment := balance * currentMonthlyRate in
  let totalInterestPaid := as_totalInterestPaid st + interestPayment in
  let principalPayment := originalEMI - interestPayment in
  let totalPayment := originalEMI in
  let isExtraPaymentMonth := inExtraWindow paymentDate in
  let totalPayment :=
    if isExtraPaymentMonth then totalPayment + valueOf (extraPaymentAmount input)
    else totalPayment in
  let principalPayment :=
    if isExtraPaymentMonth then principalPayment + valueOf (extraPaymentAmount input)
    else principalPayment in
  let totalExtraPayments :=
    if isExtraPaymentMonth
    then as_totalExtraPayments st + valueOf (extraPaymentAmount input)
    else as_totalExtraPayments st in
  let isLumpSumMonth := inLumpSumMonth paymentDate in
  let totalPayment :=
    if isLumpSumMonth then totalPayment + valueOf (lumpSumAmount input)
    else totalPayment in
  let principalPayment :=
    if isLumpSumMonth then principalPayment + valueOf (lumpSumAmount input)
    else principalPayment in
  let totalLumpSum :=
    if isLumpSumMonth then as_totalLumpSum st + valueOf (lumpSumAmount input)
    else as_totalLumpSum st in
  let exceeds := Qltb balance principalPayment in
  let totalPayment := if exceeds then balance + interestPayment else totalPayment in
  let principalPayment := if exceeds then balance else principalPayment in
  let balance := balance - principalPayment in
  let schedule :=
    as_schedule st ++
    [PaymentDetail.mk paymentDate (month + 1) principalPayment interestPayment
       totalPayment (Qmax 0 balance) isLumpSumMonth isExtraPaymentMonth
       currentRate] in
  let month := (month + 1)%Z in
  mkAdvState balance totalInterestPaid totalLumpSum totalExtraPayments month
    schedule (tenureMonths input * 2 <? month)%Z.

Definition adv_init : AdvState :=
  mkAdvState (loanAmount input) 0 0 0 0 [] false.

Definition adv_result (st : AdvState) : AdvancedCalculationResult.t :=
  let schedule := as_schedule st in
  let newTenureMonths := Z.of_nat (length schedule) in
  let tenureSaved := (tenureMonths input - newTenureMonths)%Z in
  let originalTotalInterest :=
    (originalEMI * inject_Z (tenureMonths input)) - loanAmount input in
  let newTotalInterest := as_totalInterestPaid st in
  let interestSaved := originalTotalInterest - newTotalInterest in
  let interestSavedPercentage := (interestSaved / originalTotalInterest) * 100 in
  AdvancedCalculationResult.mk schedule (tenureMonths input) newTenureMonths
    tenureSaved originalTotalInterest newTotalInterest interestSaved
    interestSavedPercentage (as_totalLumpSum st) (as_totalExtraPayments st)
    originalEMI originalEMI.
End AdvLoop.

Definition advEMI (input : AdvancedMortgageInput.t) : Q :=
  let monthlyRate := getMonthlyRate (AdvancedMortgageInput.annualRate input) in
  calculateEMI (AdvancedMortgageInput.loanAmount input) monthlyRate
    (AdvancedMortgageInput.tenureMonths input).

(** The state of the loop of [calculateAdvancedMortgage] after at most [k]
    iterations. *)
Definition adv_run (input : AdvancedMortgageInput.t) (k : nat) : AdvState :=
  unroll (adv_cond input) (adv_body input (advEMI input)) k (adv_init input).

Definition calculateAdvancedMortgage (fuel : nat) (input : AdvancedMortgageInput.t)
    : option AdvancedCalculationResult.t :=
  let originalEMI := advEMI input in
  match while (adv_cond input) (adv_body input originalEMI) fuel (adv_init input) with
  | Some st => Some (adv_result input originalEMI st)
  | None => None
  end.

(** ** lib/advanced-calculator.ts in IEEE double precision

    The loop of [calculateAdvancedMortgage] with [number] as binary64:
    amounts, rates and the tenure are floats (the screens pass a tenure of
    [years * 12], which need not be whole), dates are time values as
    before.  The loop takes the installment as a parameter, so that what is
    proved of it holds whatever [Math.pow] returns. *)

Module IEEEAdvanced.
Local Open Scope float_scope.

Module AdvancedMortgageInput.
Record t : Type := mk {
  loanAmount : float;
  annualRate : float;
  tenureMonths : float;
  emiPaymentDate : Z;
  loanStartDate : Date;
  hasFixedRatePeriod : bool;
  fixedRateMonths : option float;
  fixedRate : option float;
  variableRate : option float;
  fixedRateEndDate : option Date;
  hasLumpSum : bool;
  lumpSumAmount : option float;
  lumpSumDate : option Date;
  hasExtraPayments : bool;
  extraPaymentAmount : option float;
  extraPaymentStartDate : option Date;
  extraPaymentEndDate : option Date
}.
End AdvancedMortgageInput.

Module PaymentDetail.
Record t : Type := mk {
  date : Date;
  monthNumber : Z;
  principalPayment : float;
  interestPayment : float;
  totalPayment : float;
  balance : float;
  isLumpSumMonth : bool;
  isExtraPaymentMonth : bool;
  interestRate : float
}.
End PaymentDetail.

Definition getMonthlyRate (annualRate : float) : float := annualRate / 100 / 12.

(** A number used as a condition: present, not zero and not NaN. *)
Definition truthy (x : option float) : bool :=
  match x with
  | Some a => negb (a =? 0) && negb (is_nan a)
  | None => false
  end.

(** A number read after its presence was tested. *)
Definition valueOf (x : option float) : float :=
  match x with
  | Some a => a
  | None => 0
  end.

Record AdvState : Type := mkAdvState {
  as_balance : float;
  as_totalInterestPaid : float;
  as_totalLumpSum : float;
  as_totalExtraPayments : float;
  as_month : Z;
  as_schedule : list PaymentDetail.t;
  as_break : bool
}.

Section AdvLoop.
Import AdvancedMortgageInput.
Variable input : AdvancedMortgageInput.t.
Variable originalEMI : float.

(** [balance > 0 && month < input.tenureMonths * 2] *)
Definition adv_cond (st : AdvState) : bool :=
  negb (as_break st) &&
  ((0 <? as_balance st) && (IEEE.ofZ (as_month st) <? tenureMonths input * 2)).

Definition rateOn (paymentDate : Date) : float :=
  let currentRate := annualRate input in
  if hasFixedRatePeriod input && isSome (fixedRateEndDate input) then
    if onOrBefore paymentDate (fixedRateEndDate input) && isSome (fixedRate input)
    then valueOf (fixedRate input)
    else if isSome (variableRate input) then valueOf (variableRate input)
    else currentRate
  else currentRate.

Definition inExtraWindow (paymentDate : Date) : bool :=
  (hasExtraPayments input && isSome (extraPaymentStartDate input) &&
   isSome (extraPaymentEndDate input) && truthy (extraPaymentAmount input)) &&
  (onOrAfter paymentDate (extraPaymentStartDate input) &&
   onOrBefore paymentDate (extraPaymentEndDate input)).

Definition inLumpSumMonth (paymentDate : Date) : bool :=
  (hasLumpSum input && isSome (lumpSumDate input) && truthy (lumpSumAmount input)) &&
  sameMonthAs paymentDate (lumpSumDate input).

Definition adv_body (st : AdvState) : AdvState :=
  let balance := as_balance st in
  let month := as_month st in
  let paymentDate := getPaymentDate (loanStartDate input) month (emiPaymentDate input) in
  let currentRate := rateOn paymentDate in
  let currentMonthlyRate := getMonthlyRate currentRate in
  let interestPayment := balance * currentMonthlyRate in
  let totalInterestPaid := as_totalInterestPaid st + interestPayment in
  let principalPayment := originalEMI - interestPayment in
  let totalPayment := originalEMI in
  let isExtraPaymentMonth := inExtraWindow paymentDate in
  let totalPayment :=
    if isExtraPaymentMonth then totalPayment + valueOf (extraPaymentAmount input)
    else totalPayment in
  let principalPayment :=
    if isExtraPaymentMonth then principalPayment + valueOf (extraPaymentAmount input)
    else principalPayment in
  let totalExtraPayments :=
    if isExtraPaymentMonth
    then as_totalExtraPayments st + valueOf (extraPaymentAmount input)
    else as_totalExtraPayments st in
  let isLumpSumMonth := inLumpSumMonth paymentDate in
  let totalPayment :=
    if isLumpSumMonth then totalPayment + valueOf (lumpSumAmount input)
    else totalPayment in
  let principalPayment :=
    if isLumpSumMonth then principalPayment + valueOf (lumpSumAmount input)
    else principalPayment in
  let totalLumpSum :=
    if isLumpSumMonth then as_totalLumpSum st + valueOf (lumpSumAmount input)
    else as_totalLumpSum st in
  let exceeds := balance <? principalPayment in
  let totalPayment := if exceeds then balance + interestPayment else totalPayment in
  let principalPayment := if exceeds then balance else principalPayment in
  let balance := balance - principalPayment in
  let schedule :=
    as_schedule st ++
    [PaymentDetail.mk paymentDate (month + 1) principalPayment interestPayment
       totalPayment (IEEE.Math_max 0 balance) isLumpSumMonth isExtraPaymentMonth
       currentRate] in
  let month := (month + 1)%Z in
  mkAdvState balance totalInterestPaid totalLumpSum totalExtraPayments month
    schedule (tenureMonths input * 2 <? IEEE.ofZ month).

Definition adv_init : AdvState :=
  mkAdvState (loanAmount input) 0 0 0 0 [] false.

(** The principal that a period asks for before the clamp, read off its
    record. *)
Definition adv_due (r : PaymentDetail.t) : float :=
  let principalPayment := originalEMI - PaymentDetail.interestPayment r in
  let principalPayment :=
    if PaymentDetail.isExtraPaymentMonth r
    then principalPayment + valueOf (extraPaymentAmount input)
    else principalPayment in
  if PaymentDetail.isLumpSumMonth r
  then principalPayment + valueOf (lumpSumAmount input)
  else principalPayment.
End AdvLoop.
End IEEEAdvanced.

(** ** Reading a schedule as a ledger

    The balance a period starts from is the loan amount for the first
    period and the balance recorded by the previous period afterwards. *)

Section Ledger.
Context {R : Type}.
Variables principalOf balanceOf : R -> Q.

Definition enteringBalance (initial : Q) (schedule : list R) (i : nat) : Q :=
  match i with
  | O => initial
  | S j =>
    match nth_error schedule j with
    | Some r => balanceOf r
    | None => 0
    end
  end.

(** The balance after the last record of the schedule. *)
Definition closingBalance (initial : Q) (schedule : list R) : Q :=
  enteringBalance initial schedule (length schedule).

(** Every record keeps its principal within the balance the period starts
    from and records a balance that is not negative. *)
Definition recordsWithin (initial : Q) (schedule : list R) : Prop :=
  forall i r, nth_error schedule i = Some r ->
    0 <= balanceOf r /\ principalOf r <= enteringBalance initial schedule i.
End Ledger.

(** ** The closed form of the outstanding balance

    With monthly rate [i > 0] and no overpayment, the balance left after
    [k] of the [n] installments is
    [P * ((1+i)^n - (1+i)^k) / ((1+i)^n - 1)]. *)
Definition amortizedBalance (principal annualRate : Q) (tenureMonths : Z) (k : nat) : Q :=
  let monthlyRate := annualRate / 12 / 100 in
  principal *
  ((1 + monthlyRate) ^ tenureMonths - (1 + monthlyRate) ^ Z.of_nat k) /
  ((1 + monthlyRate) ^ tenureMonths - 1).

(** ** What the advanced engine records for a period

    [periodRecord input emi m b r]: [r] is the record of the period with
    month index [m] (from 0) that starts from the balance [b], for the
    installment [emi]. *)
Definition periodRecord (input : AdvancedMortgageInput.t) (originalEMI : Q)
    (monthIndex : Z) (entering : Q) (r : PaymentDetail.t) : Prop :=
  let paymentDate :=
    getPaymentDate (AdvancedMortgageInput.loanStartDate input) monthIndex
      (AdvancedMortgageInput.emiPaymentDate input) in
  let extra :=
    if PaymentDetail.isExtraPaymentMonth r
    then valueOf (AdvancedMortgageInput.extraPaymentAmount input) else 0 in
  let lump :=
    if PaymentDetail.isLumpSumMonth r
    then valueOf (AdvancedMortgageInput.lumpSumAmount input) else 0 in
  let due := originalEMI - PaymentDetail.interestPayment r + extra + lump in
  PaymentDetail.date r = paymentDate /\
  PaymentDetail.monthNumber r = (monthIndex + 1)%Z /\
  PaymentDetail.interestRate r = rateOn input paymentDate /\
  PaymentDetail.isExtraPaymentMonth r = inExtraWindow input paymentDate /\
  PaymentDetail.isLumpSumMonth r = inLumpSumMonth input paymentDate /\
  PaymentDetail.interestPayment r ==
    entering * getMonthlyRate (PaymentDetail.interestRate r) /\
  ((due <= entering /\
    PaymentDetail.principalPayment r == due /\
    PaymentDetail.totalPayment r == originalEMI + extra + lump) \/
   (entering < due /\
    PaymentDetail.principalPayment r == entering /\
    PaymentDetail.totalPayment r == entering + PaymentDetail.interestPayment r)).

(** The number of records of a schedule that carry a flag. *)
Definition flagged (flag : PaymentDetail.t -> bool) (schedule : list PaymentDetail.t) : Q :=
  inject_Z (Z.of_nat (length (filter flag schedule))).

(** The invariant of the loop of [calculateAdvancedMortgage]. *)
Definition advInvariant (input : AdvancedMortgageInput.t) (originalEMI : Q)
    (st : AdvState) : Prop :=
  let schedule := as_schedule st in
  let loan := AdvancedMortgageInput.loanAmount input in
  as_month st = Z.of_nat (length schedule) /\
  as_break st = false /\
  (length schedule = O \/
   (Z.of_nat (length schedule) <= AdvancedMortgageInput.tenureMonths input * 2)%Z) /\
  recordsWithin PaymentDetail.principalPayment PaymentDetail.balance loan schedule /\
  as_balance st == closingBalance PaymentDetail.balance loan schedule /\
  (forall i r, nth_error schedule i = Some r ->
     periodRecord input originalEMI (Z.of_nat i)
       (enteringBalance PaymentDetail.balance loan schedule i) r) /\
  as_totalLumpSum st ==
    valueOf (AdvancedMortgageInput.lumpSumAmount input) *
    flagged PaymentDetail.isLumpSumMonth schedule /\
  as_totalExtraPayments st ==
    valueOf (AdvancedMortgageInput.extraPaymentAmount input) *
    flagged PaymentDetail.isExtraPaymentMonth schedule.

(** ** Sample inputs *)

(** 1000 borrowed on 15 January 2024 at 12% over 2 months, paid on the
    15th; 6% until 1 February 2024 and 18% afterwards; optionally a lump sum
    of 5000 dated 20 January 2024. *)
Definition shortLoan (withLumpSum : bool) : AdvancedMortgageInput.t :=
  AdvancedMortgageInput.mk 1000 12 2 15 (newDate 2024 0 15)
    true (Some 1%Z) (Some 6) (Some 18) (Some (newDate 2024 1 1))
    withLumpSum (Some 5000) (Some (newDate 2024 0 20))
    false None None None.

(** 1000 borrowed on 15 January 2024 at 12% over 2 months, paid on the
    15th, with an extra monthly payment of 5000 from 1 January to
    31 December 2024. *)
Definition toppedUpLoan : AdvancedMortgageInput.t :=
  AdvancedMortgageInput.mk 1000 12 2 15 (newDate 2024 0 15)
    false None None None None
    false None None
    true (Some 5000) (Some (newDate 2024 0 1)) (Some (newDate 2024 11 31)).

(** In binary64: 1000 borrowed on 15 January 2024 at 12% over 2 months,
    paid on the 15th, with a lump sum of 5000 dated 20 January 2024. *)
Definition lumpSumLoan : IEEEAdvanced.AdvancedMortgageInput.t :=
  IEEEAdvanced.AdvancedMortgageInput.mk 1000%float 12%float 2%float 15
    (newDate 2024 0 15)
    false None None None None
    true (Some 5000%float) (Some (newDate 2024 0 20))
    false None None None.

(** In binary64: 100000 borrowed on 15 January 2024 at 5% over 3.4 years,
    a tenure of 40.8 months as the screens compute it, paid on the 15th. *)
Definition fractionalLoan : IEEEAdvanced.AdvancedMortgageInput.t :=
  IEEEAdvanced.AdvancedMortgageInput.mk 100000%float 5%float (204 / 5)%float 15
    (newDate 2024 0 15)
    false None None None None
    false None None
    false None None None.

(** 300000 borrowed on 31 March 2024 at 5% over 360 months, paid on the
    31st, with a lump sum of 10000 dated 15 March 2025. *)
Definition marchLoan : AdvancedMortgageInput.t :=
  AdvancedMortgageInput.mk 300000 5 360 31 (newDate 2024 2 31)
    false None None None None
    true (Some 10000) (Some (newDate 2025 2 15))
    false None None None.

(** ** lib/mortgage-calculator.ts — the fixed-rate evaluator

    Its two loops are [for] loops over a counter [i] that the body does
    not touch: [for (let i = 0; i < bound && balance > 0; i++)] performs
    at most [bound] iterations while the balance is positive, which is
    [unroll] with the balance test as condition and [bound] as the number
    of iterations; no fuel is needed.  The loops share [month], [year] and
    [schedule]; the second continues from the balance the first one left. *)

Module FixedRateResult.
Record t : Type := mk {
  originalTenureMonths : Z;
  fixedRateEndMonth : Z;
  principalAfterFixedPeriod : Q;
  interestDuringFixedPeriod : Q;
  remainingTenureAfterFixed : Z;
  totalInterestSaved : Q;
  schedule : list PaymentRecord.t
}.
End FixedRateResult.

(** [balance > 0], the part of the loop tests that reads the state. *)
Definition fixed_cond (st : GenState) : bool := Qltb 0 (gs_balance st).

(** The body of the post-fixed loop: the body of the fixed loop without
    the overpayment. *)
Definition post_body (postFixedEMI postFixedRate_monthly : Q) (st : GenState)
    : GenState :=
  let postFixedBalance := gs_balance st in
  let month := gs_month st in
  let year := gs_year st in
  let interestPayment := postFixedBalance * postFixedRate_monthly in
  let principalPayment := postFixedEMI - interestPayment in
  let principalPayment :=
    if Qltb postFixedBalance principalPayment then postFixedBalance
    else principalPayment in
  let totalPayment := interestPayment + principalPayment in
  let postFixedBalance := postFixedBalance - principalPayment in
  let schedule :=
    gs_schedule st ++
    [PaymentRecord.mk (month + 1) year totalPayment principalPayment
       interestPayment (Qmax 0 postFixedBalance)] in
  let month := (month + 1)%Z in
  if (month =? 12)%Z then mkGenState postFixedBalance 0 (year + 1) schedule
  else mkGenState postFixedBalance month year schedule.

(** The state after the fixed period (the body of its loop is the body of
    the loop of [generateAmortizationSchedule]). *)
Definition fixed_phase (principal fixedRate : Q) (fixedRateMonths totalTenureMonths : Z)
    (monthlyOverpayment : Q) : GenState :=
  let monthlyRate := fixedRate / 12 / 100 in
  let fixedEMI := calculateMonthlyEMI principal fixedRate totalTenureMonths in
  unroll fixed_cond (gen_body fixedEMI monthlyRate monthlyOverpayment)
         (Z.to_nat fixedRateMonths) (gen_init principal).

(** The state after the post-fixed period. *)
Definition post_phase (postFixedRate : Q) (remainingMonths : Z) (st : GenState)
    : GenState :=
  let postFixedEMI := calculateMonthlyEMI (gs_balance st) postFixedRate remainingMonths in
  let postFixedRate_monthly := postFixedRate / 12 / 100 in
  unroll fixed_cond (post_body postFixedEMI postFixedRate_monthly)
         (Z.to_nat remainingMonths) st.

Definition calculateFixedRateImpact
    (principal fixedRate : Q) (fixedRateMonths : Z) (postFixedRate : Q)
    (totalTenureMonths : Z) (monthlyOverpayment : Q) : FixedRateResult.t :=
  let afterFixed :=
    fixed_phase principal fixedRate fixedRateMonths totalTenureMonths
      monthlyOverpayment in
  let principalAfterFixedPeriod := gs_balance afterFixed in
  let interestDuringFixedPeriod := sumInterest (gs_schedule afterFixed) in
  let remainingMonths := (totalTenureMonths - fixedRateMonths)%Z in
  let schedule := gs_schedule (post_phase postFixedRate remainingMonths afterFixed) in
  let originalEMI := calculateMonthlyEMI principal fixedRate totalTenureMonths in
  let originalTotalInterest :=
    fst (calculateTotalInterestAndAmount principal originalEMI totalTenureMonths) in
  let newTotalInterest := sumInterest schedule in
  let totalInterestSaved := originalTotalInterest - newTotalInterest in
  FixedRateResult.mk totalTenureMonths fixedRateMonths principalAfterFixedPeriod
    interestDuringFixedPeriod remainingMonths totalInterestSaved schedule.

(** The counters agree with the number of records, and each record
    carries the month and the year of its position. *)
Definition laidOut (st : GenState) : Prop :=
  let periods := Z.of_nat (length (gs_schedule st)) in
  gs_month st = (periods mod 12)%Z /\ gs_year st = (periods / 12)%Z /\
  forall i r, nth_error (gs_schedule st) i = Some r ->
    PaymentRecord.month r = (Z.of_nat i mod 12 + 1)%Z /\
    PaymentRecord.year r = (Z.of_nat i / 12)%Z /\
    PaymentRecord.payment r = PaymentRecord.interest r + PaymentRecord.principal r.

(** A loop body that appends the record of one period and advances the
    counters. *)
Definition appendsPeriod (body : GenState -> GenState) : Prop :=
  forall st, exists r,
    gs_schedule (body st) = gs_schedule st ++ [r] /\
    PaymentRecord.month r = (gs_month st + 1)%Z /\
    PaymentRecord.year r = gs_year st /\
    PaymentRecord.payment r = PaymentRecord.interest r + PaymentRecord.principal r /\
    gs_month (body st) = (if (gs_month st + 1 =? 12)%Z then 0 else gs_month st + 1)%Z /\
    gs_year (body st) = (if (gs_month st + 1 =? 12)%Z then gs_year st + 1 else gs_year st)%Z.

(** ** Display helpers of both modules *)

Local Open Scope Z_scope.

(** [monthsToYearsMonths]: [Math.floor(months / 12)] rounds down and
    [months % 12] takes the sign of [months]. *)
Definition monthsToYearsMonths (months : Z) : Z * Z :=
  let years := months / 12 in
  let remainingMonths := Z.rem months 12 in
  (years, remainingMonths).

(** [Math.ceil(x / y)] for whole [x] and positive whole [y]. *)
Definition ceilDiv (x y : Z) : Z := - ((- x) / y).

(** [daysUntilDate] *)
Definition daysUntilDate (fromDate toDate : Date) : Z :=
  let diffTime := toDate - fromDate in
  ceilDiv diffTime (1000 * 60 * 60 * 24).

Local Open Scope Q_scope.

(** ** lib/mortgage-context.tsx: the store of saved scenarios *)

Module MortgageScenario.
Record t : Type := mk {
  id : String.string;
  name : String.string;
  loanAmount : Q;
  annualRate : Q;
  tenureMonths : Z;
  monthlyEMI : Q;
  totalInterest : Q;
  totalAmount : Q;
  monthlyOverpayment : option Q;
  lumpSumPayment : option Q;
  lumpSumMonth : option Z;
  fixedRateEndMonth : option Z;
  postFixedRate : option Q;
  createdAt : Date
}.
End MortgageScenario.

Inductive Theme : Type := light | dark.

Module MortgageState.
Record t : Type := mk {
  scenarios : list MortgageScenario.t;
  currentScenarioId : option String.string;
  currency : String.string;
  decimalPlaces : Z;
  theme : Theme
}.
End MortgageState.

Inductive MortgageAction : Type :=
  | ADD_SCENARIO (payload : MortgageScenario.t)
  | UPDATE_SCENARIO (payload : MortgageScenario.t)
  | DELETE_SCENARIO (payload : String.string)
  | SET_CURRENT_SCENARIO (payload : option String.string)
  | SET_CURRENCY (payload : String.string)
  | SET_DECIMAL_PLACES (payload : Z)
  | SET_THEME (payload : Theme)
  | LOAD_STATE (payload : MortgageState.t).

Local Open Scope string_scope.

Definition initialState : MortgageState.t :=
  MortgageState.mk [] None "USD" 2 light.

Local Close Scope string_scope.

(** [id === current] for a scenario id and an id that may be [null]. *)
Definition isCurrent (id : String.string) (current : option String.string) : bool :=
  match current with
  | Some c => String.eqb id c
  | None => false
  end.

(** [remaining[0]?.id || null]: the id of the first scenario, [null] when
    there is none or when that id is the empty string. *)
Definition firstIdOrNull (remaining : list MortgageScenario.t) : option String.string :=
  match remaining with
  | [] => None
  | s :: _ =>
    if String.eqb (MortgageScenario.id s) String.EmptyString then None
    else Some (MortgageScenario.id s)
  end.

Definition mortgageReducer (state : MortgageState.t) (action : MortgageAction)
    : MortgageState.t :=
  let '(MortgageState.mk scenarios currentScenarioId currency decimalPlaces theme) :=
    state in
  match action with
  | ADD_SCENARIO payload =>
    MortgageState.mk (scenarios ++ [payload]) (Some (MortgageScenario.id payload))
      currency decimalPlaces theme
  | UPDATE_SCENARIO payload =>
    MortgageState.mk
      (map (fun s =>
              if String.eqb (MortgageScenario.id s) (MortgageScenario.id payload)
              then payload else s) scenarios)
      currentScenarioId currency decimalPlaces theme
  | DELETE_SCENARIO payload =>
    let remaining :=
      filter (fun s => negb (String.eqb (MortgageScenario.id s) payload)) scenarios in
    MortgageState.mk remaining
      (if isCurrent payload currentScenarioId then firstIdOrNull remaining
       else currentScenarioId)
      currency decimalPlaces theme
  | SET_CURRENT_SCENARIO payload =>
    MortgageState.mk scenarios payload currency decimalPlaces theme
  | SET_CURRENCY payload =>
    MortgageState.mk scenarios currentScenarioId payload decimalPlaces theme
  | SET_DECIMAL_PLACES payload =>
    MortgageState.mk scenarios currentScenarioId currency payload theme
  | SET_THEME payload =>
    MortgageState.mk scenarios currentScenarioId currency decimalPlaces payload
  | LOAD_STATE payload => payload
  end.

(** [state.scenarios.find((s) => s.id === state.currentScenarioId)] *)
Definition getCurrentScenario (state : MortgageState.t) : option MortgageScenario.t :=
  find (fun s => isCurrent (MortgageScenario.id s) (MortgageState.currentScenarioId state))
       (MortgageState.scenarios state).

(** The current id is [null] or the id of a stored scenario. *)
Definition currentIsStored (state : MortgageState.t) : Prop :=
  match MortgageState.currentScenarioId state with
  | None => True
  | Some c => exists s, In s (MortgageState.scenarios state) /\ MortgageScenario.id s = c
  end.

(** The actions that only touch the scenarios through their ids. *)
Definition editsScenarios (action : MortgageAction) : bool :=
  match action with
  | SET_CURRENT_SCENARIO _ | LOAD_STATE _ => false
  | _ => true
  end.

(** A stored scenario and a one-scenario store, used as running examples. *)
Local Open Scope string_scope.

Definition sampleScenario (id : String.string) : MortgageScenario.t :=
  MortgageScenario.mk id "Home loan" 1200 0 12 100 0 1200
    None None None None None 0%Z.

Definition sampleStore : MortgageState.t :=
  MortgageState.mk [sampleScenario "a"] (Some "a") "USD" 2 light.

Definition idA : String.string := "a".
Definition idB : String.string := "b".

Local Close Scope string_scope.

(** ** app/(tabs)/schedule.tsx — the yearly view *)

(** [fullSchedule.filter((record) => record.month === 12 ||
    record === fullSchedule[fullSchedule.length - 1])]: the records are
    objects compared by identity, and each record of a schedule is a fresh
    object, so a record is the last one exactly when it sits at the last
    position. *)
Definition yearlyView (fullSchedule : list PaymentRecord.t) : list PaymentRecord.t :=
  map snd
    (filter (fun '(i, record) =>
               (PaymentRecord.month record =? 12)%Z
               || (i =? length fullSchedule - 1)%nat)
            (combine (seq 0 (length fullSchedule)) fullSchedule)).

(** Position of the last record of year [j] in a schedule of [L] records. *)
Definition yearEnd (L j : nat) : nat := Nat.min (12 * j + 11) (L - 1).

(** ** Totals over a schedule *)

(** [schedule.reduce((sum, r) => sum + f(r), 0)] *)
Definition sumBy {R : Type} (f : R -> Q) (schedule : list R) : Q :=
  fold_left (fun sum r => sum + f r) schedule 0.

(** * Properties *)

(** ** Loops with fuel *)

Section WhileFacts.
Context {S : Type}.
Variable cond : S -> bool.
Variable body : S -> S.

Lemma unroll_succ k s :
  unroll cond body (Datatypes.S k) s =
  if cond (unroll cond body k s) then body (unroll cond body k s) else unroll cond body k s.
Proof.
  revert s. induction k as [|k IH]; intros s.
  - reflexivity.
  - change (unroll cond body (Datatypes.S (Datatypes.S k)) s)
      with (if cond s then unroll cond body (Datatypes.S k) (body s) else s).
    destruct (cond s) eqn:E.
    + rewrite IH. simpl. rewrite E. reflexivity.
    + simpl. rewrite E, E. reflexivity.
Qed.

Lemma unroll_invariant (I : S -> Prop) :
  (forall s, I s -> cond s = true -> I (body s)) ->
  forall k s, I s -> I (unroll cond body k s).
Proof.
  intros step k. induction k as [|k IH]; intros s Hs; simpl.
  - exact Hs.
  - destruct (cond s) eqn:E; auto.
Qed.

Lemma unroll_stopped k s :
  cond (unroll cond body k s) = false -> forall j, unroll cond body (k + j) s = unroll cond body k s.
Proof.
  intros Hstop j. induction j as [|j IH].
  - now rewrite Nat.add_0_r.
  - rewrite Nat.add_succ_r, unroll_succ, IH, Hstop. reflexivity.
Qed.

Lemma while_stopped k s :
  cond (unroll cond body k s) = false ->
  forall fuel, (k <= fuel)%nat -> while cond body fuel s = Some (unroll cond body k s).
Proof.
  intros Hstop fuel Hle. unfold while.
  replace fuel with (k + (fuel - k))%nat by lia.
  rewrite (unroll_stopped k s Hstop), Hstop. reflexivity.
Qed.

Lemma while_Some fuel s s' :
  while cond body fuel s = Some s' -> s' = unroll cond body fuel s /\ cond s' = false.
Proof.
  unfold while. destruct (cond (unroll cond body fuel s)) eqn:E; [discriminate|].
  intros [= <-]. auto.
Qed.

Lemma unroll_running k s :
  cond (unroll cond body k s) = true -> forall j, (j <= k)%nat -> cond (unroll cond body j s) = true.
Proof.
  intros Hrun j Hle. destruct (cond (unroll cond body j s)) eqn:E; [reflexivity|].
  rewrite <- (unroll_stopped j s E (k - j)) in E.
  replace (j + (k - j))%nat with k in E by lia. congruence.
Qed.
End WhileFacts.

(** ** Comparisons of amounts *)

Lemma Qltb_lt x y : Qltb x y = true <-> x < y.
Proof.
  unfold Qltb. rewrite negb_true_iff, <- not_true_iff_false, Qle_bool_iff.
  split; [apply Qnot_le_lt | apply Qlt_not_le].
Qed.

Lemma Qltb_ge x y : Qltb x y = false <-> y <= x.
Proof.
  unfold Qltb. rewrite negb_false_iff. apply Qle_bool_iff.
Qed.

Lemma Qmax_0_nonneg x : 0 <= Qmax 0 x.
Proof. apply Q.le_max_l. Qed.

Lemma Qmax_0_of_nonneg x : 0 <= x -> Qmax 0 x == x.
Proof. intros H. apply Q.max_r. exact H. Qed.

Lemma Qmax_0_of_nonpos x : x <= 0 -> Qmax 0 x = 0.
Proof.
  intros H. unfold Qmax, GenericMinMax.gmax.
  destruct (0 ?= x) eqn:E; try reflexivity.
  rewrite <- Qlt_alt in E. lra.
Qed.

(** ** The host calendar *)

Local Open Scope Z_scope.

Ltac zdiv := Z.to_euclidean_division_equations; lia.

(** The standard defines the year of a day as the largest [y] with
    [DayFromYear y <= d]; [YearFromDay] computes it. *)
Lemma DayFromYear_mono y y' : y <= y' -> DayFromYear y <= DayFromYear y'.
Proof. unfold DayFromYear. intros H. zdiv. Qed.

Lemma YearFromDay_spec d :
  DayFromYear (YearFromDay d) <= d < DayFromYear (YearFromDay d + 1).
Proof.
  unfold YearFromDay.
  repeat match goal with
         | |- context [(?a <=? ?b)] => destruct (Z.leb_spec a b)
         | |- context [(?a <? ?b)] => destruct (Z.ltb_spec a b)
         end; unfold DayFromYear in *; zdiv.
Qed.

Lemma YearFromDay_largest d y : DayFromYear y <= d -> y <= YearFromDay d.
Proof.
  intros H. destruct (Z.le_gt_cases y (YearFromDay d)) as [|Hgt]; [assumption|].
  pose proof (YearFromDay_spec d) as [_ Hlt].
  pose proof (DayFromYear_mono (YearFromDay d + 1) y ltac:(lia)). lia.
Qed.

Lemma DayFromYear_succ y : DayFromYear (y + 1) = DayFromYear y + DaysInYear y.
Proof.
  unfold DayFromYear, DaysInYear.
  repeat match goal with
         | |- context [(?a =? ?b)] => destruct (Z.eqb_spec a b)
         end; cbn [negb]; cbv iota; zdiv.
Qed.

Lemma YearFromDay_unique d y :
  DayFromYear y <= d < DayFromYear (y + 1) -> YearFromDay d = y.
Proof.
  intros [Hlo Hhi]. pose proof (YearFromDay_spec d) as [Hlo' Hhi'].
  pose proof (YearFromDay_largest d y Hlo).
  destruct (Z.le_gt_cases (YearFromDay d) y) as [|Hgt]; [lia|].
  pose proof (DayFromYear_mono (y + 1) (YearFromDay d) ltac:(lia)). lia.
Qed.

Lemma InLeapYear_cases y :
  (InLeapYear y = 0 /\ DaysInYear y = 365) \/ (InLeapYear y = 1 /\ DaysInYear y = 366).
Proof.
  unfold InLeapYear, DaysInYear.
  destruct (y mod 4 =? 0), (y mod 100 =? 0), (y mod 400 =? 0); cbn; auto.
Qed.

Lemma Day_MakeDate d t :
  0 <= t < msPerDay -> Day (MakeDate d t) = d /\ TimeWithinDay (MakeDate d t) = t.
Proof. unfold Day, TimeWithinDay, MakeDate, msPerDay. intros H. zdiv. Qed.

Lemma TimeWithinDay_range t : 0 <= TimeWithinDay t < msPerDay.
Proof. unfold TimeWithinDay, msPerDay. zdiv. Qed.

Lemma month_cases m :
  0 <= m < 12 ->
  m = 0 \/ m = 1 \/ m = 2 \/ m = 3 \/ m = 4 \/ m = 5 \/
  m = 6 \/ m = 7 \/ m = 8 \/ m = 9 \/ m = 10 \/ m = 11.
Proof. lia. Qed.

Ltac each_month H :=
  destruct (month_cases _ H) as
    [->|[->|[->|[->|[->|[->|[->|[->|[->|[->|[->| ->]]]]]]]]]]].

Lemma MakeDay_in_range y m d :
  0 <= m < 12 ->
  MakeDay y m d = DayFromYear y + daysBeforeMonth (InLeapYear y) m + d - 1.
Proof.
  intros H. unfold MakeDay. cbv zeta.
  rewrite Z.div_small, Z.mod_small, Z.add_0_r by lia. reflexivity.
Qed.

Ltac table_lookup :=
  unfold daysBeforeMonth, DaysInMonth in *; cbv beta iota in *.

(** A day of the month that exists is read back as it was written. *)
Lemma fields_of_MakeDate y m d t :
  0 <= m < 12 -> 1 <= d <= DaysInMonth y m -> 0 <= t < msPerDay ->
  let x := MakeDate (MakeDay y m d) t in
  YearFromTime x = y /\ MonthFromTime x = m /\ DateFromTime x = d /\ TimeWithinDay x = t.
Proof.
  intros Hm Hd Ht x.
  destruct (Day_MakeDate (MakeDay y m d) t Ht) as (HD & HT). fold x in HD, HT.
  destruct (InLeapYear_cases y) as [(HL & HDY)|(HL & HDY)].
  all: assert (HY : YearFromTime x = y)
    by (unfold YearFromTime; rewrite HD; apply YearFromDay_unique;
        rewrite DayFromYear_succ, MakeDay_in_range by assumption;
        each_month Hm; table_lookup; lia).
  all: assert (HW : DayWithinYear x = daysBeforeMonth (InLeapYear y) m + d - 1)
    by (unfold DayWithinYear; rewrite HD, HY, MakeDay_in_range by assumption; lia).
  all: assert (HM : MonthFromTime x = m)
    by (unfold MonthFromTime; cbv zeta; rewrite HW, HY;
        each_month Hm; table_lookup;
        repeat match goal with
               | |- context [(?a <? ?b)] => destruct (Z.ltb_spec a b); try lia
               end).
  all: repeat split; try assumption.
  all: unfold DateFromTime; cbv zeta; rewrite HM, HW, HY.
  all: each_month Hm; table_lookup; lia.
Qed.

(** [setMonth] counts months across years. *)
Lemma MakeDay_months y m k d :
  0 <= m < 12 ->
  MakeDay y (m + k) d = MakeDay (y + (m + k) / 12) ((m + k) mod 12) d.
Proof.
  intros Hm. unfold MakeDay. cbv zeta.
  pose proof (Z.mod_pos_bound (m + k) 12 ltac:(lia)).
  rewrite (Z.div_small ((m + k) mod 12)), (Z.mod_small ((m + k) mod 12)) by lia.
  rewrite Z.add_0_r. reflexivity.
Qed.

(** Day 0 of the next month is the last day of the month. *)
Lemma MakeDay_last y m :
  0 <= m < 12 -> MakeDay y (m + 1) 0 = MakeDay y m (DaysInMonth y m).
Proof.
  intros Hm. rewrite (MakeDay_in_range y m) by assumption.
  destruct (Z.eq_dec m 11) as [->|Hne].
  - unfold MakeDay. cbv zeta. change ((11 + 1) / 12) with 1. change ((11 + 1) mod 12) with 0.
    rewrite DayFromYear_succ.
    destruct (InLeapYear_cases y) as [(HL & HDY)|(HL & HDY)];
      destruct (InLeapYear_cases (y + 1)) as [(HL' & _)|(HL' & _)];
      table_lookup; lia.
  - rewrite (MakeDay_in_range y (m + 1)) by lia.
    each_month Hm; try lia; cbn [Z.add Pos.add Pos.succ]; table_lookup; lia.
Qed.

Lemma DaysInMonth_range y m : 28 <= DaysInMonth y m <= 31.
Proof.
  destruct (InLeapYear_cases y) as [(HL & _)|(HL & _)];
    unfold DaysInMonth;
    repeat match goal with
           | |- context [match ?m with _ => _ end] => destruct m
           end; lia.
Qed.

(** Every time value has calendar fields in range. *)
Lemma fields_in_range t :
  0 <= MonthFromTime t < 12 /\ 1 <= DateFromTime t <= DaysInMonth (YearFromTime t) (MonthFromTime t).
Proof.
  pose proof (YearFromDay_spec (Day t)) as [Hlo Hhi].
  rewrite DayFromYear_succ in Hhi.
  unfold DateFromTime, MonthFromTime, DayWithinYear, YearFromTime. cbv zeta.
  set (y := YearFromDay (Day t)) in *.
  destruct (InLeapYear_cases y) as [(HL & HD)|(HL & HD)]; rewrite HD in Hhi;
    repeat match goal with
           | |- context [(?a <? ?b)] => destruct (Z.ltb_spec a b)
           end; table_lookup; lia.
Qed.

Local Open Scope Q_scope.

(** ** The EMI formulas *)

Lemma monthlyRate_zero annualRate : annualRate == 0 -> annualRate / 12 / 100 == 0.
Proof. intros H. rewrite H. reflexivity. Qed.

Lemma monthlyRate_pos annualRate : 0 < annualRate -> 0 < annualRate / 12 / 100.
Proof.
  intros H. unfold Qdiv.
  apply Qmult_lt_0_compat; [apply Qmult_lt_0_compat|]; [assumption| |]; reflexivity.
Qed.

Lemma monthlyRate_nonneg annualRate : 0 <= annualRate -> 0 <= annualRate / 12 / 100.
Proof.
  intros H. unfold Qdiv.
  apply Qmult_le_0_compat; [apply Qmult_le_0_compat|]; [assumption| |]; discriminate.
Qed.

Lemma getMonthlyRate_zero annualRate : annualRate == 0 -> getMonthlyRate annualRate == 0.
Proof. intros H. unfold getMonthlyRate. rewrite H. reflexivity. Qed.

(** C4: with an annual rate of zero, both EMI calculators return exactly
    principal / months (no compounding), for every principal [P >= 0] and
    tenure [n > 0]. *)
Theorem emi_zero_rate (P annualRate : Q) (n : Z) :
  0 <= P -> (0 < n)%Z -> annualRate == 0 ->
  calculateMonthlyEMI P annualRate n = P / inject_Z n /\
  calculateEMI P (getMonthlyRate annualRate) n = P / inject_Z n.
Proof.
  intros _ _ Hr. unfold calculateMonthlyEMI, calculateEMI. split.
  - pose proof (monthlyRate_zero _ Hr) as H. apply Qeq_bool_iff in H.
    cbv zeta. rewrite H. reflexivity.
  - pose proof (getMonthlyRate_zero _ Hr) as H. apply Qeq_bool_iff in H.
    rewrite H. reflexivity.
Qed.

Lemma emi_zero_rate_witness :
  calculateMonthlyEMI 100000 0 120 = 100000 / inject_Z 120 /\
  calculateEMI 100000 (getMonthlyRate 0) 120 = 100000 / inject_Z 120.
Proof.
  apply (emi_zero_rate 100000 0 120); [discriminate | reflexivity | reflexivity].
Defined.

(** ** The part-payment evaluator *)

(** C6: when the lump sum is at least the current balance, the evaluator
    returns the degenerate result (zero balance, zero tenure, zero new
    interest, all the original interest saved, empty schedule) whatever the
    fuel, so the schedule generator is not run. *)
Theorem part_payment_full_balance
    (fuel : nat) (currentBalance : Q) (remainingTenureMonths : Z)
    (annualRate lumpSumAmount originalLoanAmount : Q) :
  currentBalance <= lumpSumAmount ->
  exists res,
    calculatePartPaymentImpact fuel currentBalance remainingTenureMonths
      annualRate lumpSumAmount originalLoanAmount = Some res /\
    PartPaymentResult.newBalance res = 0 /\
    PartPaymentResult.newTenureMonths res = 0%Z /\
    PartPaymentResult.newTotalInterest res = 0 /\
    PartPaymentResult.interestSaved res = PartPaymentResult.originalTotalInterest res /\
    PartPaymentResult.originalTotalInterest res =
      calculateMonthlyEMI currentBalance annualRate remainingTenureMonths
        * inject_Z remainingTenureMonths - currentBalance /\
    PartPaymentResult.schedule res = [].
Proof.
  intros Hle. unfold calculatePartPaymentImpact. cbv zeta.
  rewrite (Qmax_0_of_nonpos (currentBalance - lumpSumAmount)) by lra.
  change (Qeq_bool 0 0) with true. cbv iota.
  eexists. split; [reflexivity|]. simpl. repeat split; reflexivity.
Qed.

Lemma part_payment_full_balance_witness :
  exists res,
    calculatePartPaymentImpact 0 100000 120 5 100000 100000 = Some res /\
    PartPaymentResult.newBalance res = 0 /\
    PartPaymentResult.newTenureMonths res = 0%Z /\
    PartPaymentResult.newTotalInterest res = 0 /\
    PartPaymentResult.interestSaved res = PartPaymentResult.originalTotalInterest res /\
    PartPaymentResult.originalTotalInterest res =
      calculateMonthlyEMI 100000 5 120 * inject_Z 120 - 100000 /\
    PartPaymentResult.schedule res = [].
Proof.
  apply (part_payment_full_balance 0 100000 120 5 100000 100000).
  apply Qle_refl.
Defined.

(** ** Ledgers *)

Section LedgerFacts.
Context {R : Type}.
Variables principalOf balanceOf : R -> Q.

Lemma enteringBalance_app initial (schedule : list R) r i :
  (i <= length schedule)%nat ->
  enteringBalance balanceOf initial (schedule ++ [r]) i =
  enteringBalance balanceOf initial schedule i.
Proof.
  intros Hi. destruct i as [|j]; simpl; [reflexivity|].
  rewrite nth_error_app1 by lia. reflexivity.
Qed.

Lemma closingBalance_app initial (schedule : list R) r :
  closingBalance balanceOf initial (schedule ++ [r]) = balanceOf r.
Proof.
  unfold closingBalance. rewrite length_app, Nat.add_1_r. simpl.
  rewrite nth_error_app2 by lia. rewrite Nat.sub_diag. reflexivity.
Qed.

Lemma recordsWithin_nil initial : recordsWithin principalOf balanceOf initial [].
Proof. intros [|i] r; discriminate. Qed.

Lemma recordsWithin_app initial (schedule : list R) r :
  recordsWithin principalOf balanceOf initial schedule ->
  0 <= balanceOf r ->
  principalOf r <= closingBalance balanceOf initial schedule ->
  recordsWithin principalOf balanceOf initial (schedule ++ [r]).
Proof.
  intros Hs Hb Hp i r' Hi.
  destruct (Nat.lt_ge_cases i (length schedule)) as [Hlt|Hge].
  - rewrite nth_error_app1 in Hi by assumption.
    rewrite enteringBalance_app by lia. auto.
  - assert (i = length schedule) as ->.
    { assert (i < length (schedule ++ [r]))%nat as Hlt
        by (apply nth_error_Some; congruence).
      rewrite length_app in Hlt. simpl in Hlt. lia. }
    rewrite nth_error_app2, Nat.sub_diag in Hi by lia.
    injection Hi as <-. rewrite enteringBalance_app by lia. auto.
Qed.
End LedgerFacts.

(** ** The loop of the standard schedule generator *)

Section GenFacts.
Variables monthlyEMI monthlyRate monthlyOverpayment : Q.
Variable tenureMonths : Z.
Variable principal : Q.

Local Abbreviation body := (gen_body monthlyEMI monthlyRate monthlyOverpayment).
Local Abbreviation cond := (gen_cond tenureMonths).
Local Abbreviation due b := (monthlyEMI - b * monthlyRate + monthlyOverpayment).
Local Abbreviation state k := (unroll cond body k (gen_init principal)).

Lemma gen_body_balance st :
  gs_balance (body st) =
  gs_balance st -
  (if Qltb (gs_balance st) (due (gs_balance st)) then gs_balance st
   else due (gs_balance st)).
Proof. unfold gen_body. cbv zeta. destruct (_ =? 12)%Z; reflexivity. Qed.

Lemma gen_body_schedule st :
  exists r,
    gs_schedule (body st) = gs_schedule st ++ [r] /\
    PaymentRecord.principal r =
      (if Qltb (gs_balance st) (due (gs_balance st)) then gs_balance st
       else due (gs_balance st)) /\
    PaymentRecord.balance r = Qmax 0 (gs_balance (body st)).
Proof.
  rewrite gen_body_balance. unfold gen_body. cbv zeta.
  destruct (_ =? 12)%Z; eexists; repeat split; reflexivity.
Qed.

Lemma gen_body_length st :
  length (gs_schedule (body st)) = S (length (gs_schedule st)).
Proof.
  destruct (gen_body_schedule st) as (r & -> & _).
  rewrite length_app. simpl. lia.
Qed.

Lemma gen_body_month st :
  gs_month (body st) = if (gs_month st + 1 =? 12)%Z then 0%Z else (gs_month st + 1)%Z.
Proof. unfold gen_body. cbv zeta. destruct (_ =? 12)%Z; reflexivity. Qed.

Lemma gen_body_year st :
  gs_year (body st) = if (gs_month st + 1 =? 12)%Z then (gs_year st + 1)%Z else gs_year st.
Proof. unfold gen_body. cbv zeta. destruct (_ =? 12)%Z; reflexivity. Qed.


(** The clamp keeps the principal within the balance of the period. *)
Lemma gen_clamp b :
  (if Qltb b (due b) then b else due b) <= b.
Proof.
  destruct (Qltb b (due b)) eqn:E.
  - apply Qle_refl.
  - apply Qltb_ge in E. exact E.
Qed.

(** The counter [month] is the number of the period within its year, not
    the number of periods: it returns to 0 after 12 periods. *)
Lemma gen_counters k :
  let st := state k in
  let periods := Z.of_nat (length (gs_schedule st)) in
  gs_month st = (periods mod 12)%Z /\ gs_year st = (periods / 12)%Z /\
  (length (gs_schedule st) <= k)%nat.
Proof.
  induction k as [|k IH]; cbv zeta in *.
  - simpl. repeat split; lia.
  - rewrite unroll_succ. destruct (cond (state k)); [|intuition lia].
    destruct IH as (Hm & Hy & Hl).
    rewrite gen_body_month, gen_body_year, gen_body_length, Hm, Hy.
    rewrite Nat2Z.inj_succ.
    set (p := Z.of_nat (length (gs_schedule (state k)))) in *.
    destruct (Z.eqb_spec (p mod 12 + 1) 12); repeat split; try lia; zdiv.
Qed.

(** While the loop runs, the schedule has one record per iteration. *)
Lemma gen_length_running k :
  cond (state k) = true -> length (gs_schedule (state (S k))) = S k.
Proof.
  induction k as [|k IH]; intros Hrun.
  - rewrite unroll_succ, Hrun, gen_body_length. reflexivity.
  - rewrite unroll_succ, Hrun, gen_body_length. f_equal. apply IH.
    apply (unroll_running _ _ (S k)); [assumption | lia].
Qed.

Lemma gen_ledger k :
  let st := state k in
  recordsWithin PaymentRecord.principal PaymentRecord.balance principal (gs_schedule st) /\
  gs_balance st == closingBalance PaymentRecord.balance principal (gs_schedule st).
Proof.
  induction k as [|k IH]; cbv zeta in *.
  - split; [apply recordsWithin_nil | reflexivity].
  - rewrite unroll_succ. destruct (cond (state k)) eqn:Hrun; [|exact IH].
    destruct IH as (Hw & Hb).
    destruct (gen_body_schedule (state k)) as (r & Hs & Hp & Hr).
    apply andb_true_iff in Hrun as [Hpos _]. apply Qltb_lt in Hpos.
    pose proof (gen_clamp (gs_balance (state k))) as Hc.
    assert (Hnn : 0 <= gs_balance (body (state k))).
    { rewrite gen_body_balance. lra. }
    rewrite Hs. split.
    + apply recordsWithin_app; [assumption | |].
      * rewrite Hr. apply Qmax_0_nonneg.
      * rewrite Hp, <- Hb. exact Hc.
    + rewrite closingBalance_app, Hr. symmetry. apply Qmax_0_of_nonneg, Hnn.
Qed.
End GenFacts.

(** ** Amortization without overpayment *)

Section Amortization.
Variables P r : Q.
Variable n : Z.
Hypothesis HP : 0 < P.
Hypothesis Hr : 0 < r.
Hypothesis Hn : (0 < n)%Z.

Local Abbreviation i := (r / 12 / 100).
Local Abbreviation X := ((1 + i) ^ n).

Lemma rate_pos : 0 < i.
Proof. apply monthlyRate_pos, Hr. Qed.

Lemma growth_gt_1 : 1 < X.
Proof. apply Qpower_1_lt; [pose proof rate_pos; lra | exact Hn]. Qed.

Lemma growth_succ k : (1 + i) ^ Z.of_nat (S k) == (1 + i) ^ Z.of_nat k * (1 + i).
Proof.
  rewrite Nat2Z.inj_succ. unfold Z.succ.
  rewrite Qpower_plus by (pose proof rate_pos; lra).
  rewrite Qpower_1_r. reflexivity.
Qed.

Lemma growth_before k : (Z.of_nat k < n)%Z -> (1 + i) ^ Z.of_nat k < X.
Proof. intros Hk. apply Qpower_lt_compat_l; [exact Hk | pose proof rate_pos; lra]. Qed.

Lemma emi_closed_form :
  calculateMonthlyEMI P r n == P * i * X / (X - 1).
Proof.
  unfold calculateMonthlyEMI. cbv zeta.
  destruct (Qeq_bool i 0) eqn:E.
  - apply Qeq_bool_iff in E. pose proof rate_pos. lra.
  - pose proof growth_gt_1. field. lra.
Qed.

Lemma amortizedBalance_step k :
  amortizedBalance P r n (S k) ==
  amortizedBalance P r n k * (1 + i) - calculateMonthlyEMI P r n.
Proof.
  rewrite emi_closed_form. unfold amortizedBalance. cbv zeta.
  rewrite growth_succ. pose proof growth_gt_1. field. lra.
Qed.

Lemma amortizedBalance_pos k : (Z.of_nat k < n)%Z -> 0 < amortizedBalance P r n k.
Proof.
  intros Hk. unfold amortizedBalance. cbv zeta.
  pose proof growth_gt_1. pose proof (growth_before k Hk).
  apply Qlt_shift_div_l; [lra|]. rewrite Qmult_0_l.
  apply Qmult_lt_0_compat; lra.
Qed.

Lemma amortizedBalance_end : amortizedBalance P r n (Z.to_nat n) == 0.
Proof.
  unfold amortizedBalance. cbv zeta. rewrite Z2Nat.id by lia.
  pose proof growth_gt_1. field. lra.
Qed.

Lemma amortizedBalance_nonneg k : (Z.of_nat k <= n)%Z -> 0 <= amortizedBalance P r n k.
Proof.
  intros Hk. destruct (Z.eq_dec (Z.of_nat k) n) as [E|E].
  - replace k with (Z.to_nat n) by lia. rewrite amortizedBalance_end. apply Qle_refl.
  - apply Qlt_le_weak, amortizedBalance_pos. lia.
Qed.

(** The loop follows the closed form: it runs for the first [n] periods,
    never clamps, and leaves the closed-form balance. *)
Lemma gen_run_closed_form k :
  (Z.of_nat k <= n)%Z ->
  gs_balance (gen_run P r n 0 k) == amortizedBalance P r n k /\
  length (gs_schedule (gen_run P r n 0 k)) = k.
Proof.
  unfold gen_run. cbv zeta. induction k as [|k IH]; intros Hk.
  - split; [|reflexivity]. simpl. unfold amortizedBalance. cbv zeta.
    change (Z.of_nat 0) with 0%Z. rewrite Qpower_0_r.
    pose proof growth_gt_1. field. lra.
  - destruct IH as (Hb & Hl); [lia|].
    pose proof (gen_counters (calculateMonthlyEMI P r n) i 0 n P k) as (Hm & _ & _).
    cbv zeta in Hm. rewrite Hl in Hm.
    pose proof (amortizedBalance_pos k ltac:(lia)) as Hpos.
    pose proof (amortizedBalance_nonneg (S k) Hk) as Hnext.
    rewrite amortizedBalance_step in Hnext.
    rewrite unroll_succ.
    set (st := unroll _ _ k _) in *.
    assert (Hrun : gen_cond n st = true).
    { unfold gen_cond. apply andb_true_iff. split.
      - apply Qltb_lt. rewrite Hb. exact Hpos.
      - apply Z.ltb_lt. rewrite Hm. zdiv. }
    rewrite Hrun, gen_body_length, Hl. split; [|reflexivity].
    rewrite gen_body_balance, amortizedBalance_step.
    destruct (Qltb _ _) eqn:E.
    + apply Qltb_lt in E. rewrite Hb in E. lra.
    + rewrite Hb. ring.
Qed.
End Amortization.

(** ** The standard schedule without overpayment *)

Lemma generate_stopped P r n o k :
  gen_cond n (gen_run P r n o k) = false ->
  forall fuel, (k <= fuel)%nat ->
  generateAmortizationSchedule fuel P r n o = Some (gs_schedule (gen_run P r n o k)).
Proof.
  unfold gen_run, generateAmortizationSchedule. cbv zeta. intros Hstop fuel Hle.
  rewrite (while_stopped _ _ k _ Hstop fuel Hle). reflexivity.
Qed.

Lemma generate_Some fuel P r n o schedule :
  generateAmortizationSchedule fuel P r n o = Some schedule ->
  schedule = gs_schedule (gen_run P r n o fuel) /\
  gen_cond n (gen_run P r n o fuel) = false.
Proof.
  unfold gen_run, generateAmortizationSchedule. cbv zeta.
  destruct (while _ _ fuel _) as [st|] eqn:E; [|discriminate].
  apply while_Some in E as [-> Hc]. intros [= <-]. auto.
Qed.

(** Without overpayment the loop stops after exactly [n] periods, on a
    balance of zero. *)
Lemma standard_schedule_exact P r n :
  0 < P -> 0 < r -> (0 < n)%Z ->
  let st := gen_run P r n 0 (Z.to_nat n) in
  gen_cond n st = false /\ length (gs_schedule st) = Z.to_nat n /\ gs_balance st == 0.
Proof.
  intros HP Hr Hn st.
  destruct (gen_run_closed_form P r n HP Hr Hn (Z.to_nat n) ltac:(lia)) as (Hb & Hl).
  fold st in Hb, Hl. rewrite (amortizedBalance_end P r n Hr Hn) in Hb.
  repeat split; try assumption.
  unfold gen_cond. apply andb_false_iff. left. apply Qltb_ge. rewrite Hb. apply Qle_refl.
Qed.

(** In exact arithmetic, for a principal [P > 0], an annual rate [r > 0]
    and a tenure [n > 0], the standard schedule generator called without
    overpayment returns (with any fuel of at least [n]) a schedule of at most
    [n] records whose final record has a balance below one unit of
    currency. *)
Lemma standard_schedule_pays_off (P r : Q) (n : Z) :
  0 < P -> 0 < r -> (0 < n)%Z ->
  exists schedule final,
    (forall fuel, (Z.to_nat n <= fuel)%nat ->
       generateAmortizationSchedule fuel P r n 0 = Some schedule) /\
    (Z.of_nat (length schedule) <= n)%Z /\
    nth_error schedule (length schedule - 1) = Some final /\
    PaymentRecord.balance final < 1.
Proof.
  intros HP Hr Hn.
  destruct (standard_schedule_exact P r n HP Hr Hn) as (Hstop & Hl & Hb).
  pose proof (gen_ledger (calculateMonthlyEMI P r n) (r / 12 / 100) 0 n P (Z.to_nat n))
    as (_ & Hc).
  cbv zeta in Hc. fold (gen_run P r n 0 (Z.to_nat n)) in Hc.
  set (st := gen_run P r n 0 (Z.to_nat n)) in *.
  unfold closingBalance in Hc.
  destruct (length (gs_schedule st)) as [|m] eqn:El; [lia|].
  simpl in Hc.
  destruct (nth_error (gs_schedule st) m) as [final|] eqn:En.
  2:{ apply nth_error_None in En. lia. }
  exists (gs_schedule st), final. repeat split.
  - intros fuel Hf. apply generate_stopped; assumption.
  - lia.
  - rewrite El. simpl. rewrite Nat.sub_0_r. exact En.
  - rewrite <- Hc, Hb. reflexivity.
Qed.

(** ** The standard schedule as it runs

    In double precision the installment of a loan of 1200 at 12% over one
    month is 1211.9999999999989 instead of 1212 ([1.01 - 1] is
    0.010000000000000009), the first period repays 1199.9999999999989 and
    leaves 1.1368683772161603e-12, and the loop, which runs while the
    balance is positive, emits a second record. *)

Lemma one_month_loan_residue :
  IEEE.calculateMonthlyEMI 1200 12 1 = 0x1.2effffffffffbp+10%float /\
  IEEE.gs_balance
    (unroll (IEEE.gen_cond 1)
       (IEEE.gen_body (IEEE.calculateMonthlyEMI 1200 12 1) (12 / 12 / 100)%float 0) 1
       (IEEE.mkGenState 1200 0 0 [])) = 0x1.4p-40%float.
Proof. split; vm_compute; reflexivity. Qed.

(** C1: evaluated in IEEE double precision on principal 1200, annual rate
    12 and tenure 1 month, without overpayment, the standard schedule
    generator returns (with any fuel of at least 2) two records: the final
    balance is 0, below one unit of currency, but the length exceeds the
    tenure. *)
Theorem one_month_loan_two_payments :
  exists first final,
    (forall fuel, (2 <= fuel)%nat ->
       IEEE.generateAmortizationSchedule fuel 1200 12 1 0 = Some [first; final]) /\
    IEEE.PaymentRecord.balance first = 0x1.4p-40%float /\
    IEEE.PaymentRecord.principal final = 0x1.4p-40%float /\
    IEEE.PaymentRecord.balance final = 0%float /\
    (1 < Z.of_nat (length [first; final]))%Z.
Proof.
  do 2 eexists. split; [|repeat split].
  - intros fuel Hf.
    assert (Hstop :
      IEEE.gen_cond 1
        (unroll (IEEE.gen_cond 1)
           (IEEE.gen_body (IEEE.calculateMonthlyEMI 1200 12 1) (12 / 12 / 100)%float 0) 2
           (IEEE.mkGenState 1200 0 0 [])) = false) by (vm_compute; reflexivity).
    unfold IEEE.generateAmortizationSchedule. cbv zeta.
    rewrite (while_stopped _ _ 2%nat _ Hstop fuel Hf).
    vm_compute. reflexivity.
  - vm_compute. reflexivity.
  - vm_compute. reflexivity.
  - vm_compute. reflexivity.
Qed.

(** ** The safety cap of the standard generator

    The loop compares [month] with twice the tenure, but [month] is reset
    to 0 every 12 periods: for a tenure of 6 months or more the cap is never
    reached, and a payment that does not cover the interest keeps the loop
    running. *)

Lemma gen_never_stops P r n o :
  0 < P -> 0 <= r -> (6 <= n)%Z ->
  calculateMonthlyEMI P r n + o <= P * (r / 12 / 100) ->
  forall k, gen_cond n (gen_run P r n o k) = true /\ P <= gs_balance (gen_run P r n o k).
Proof.
  intros HP Hr Hn Hsmall k. unfold gen_run. cbv zeta.
  pose proof (monthlyRate_nonneg r Hr) as Hi.
  set (emi := calculateMonthlyEMI P r n) in *. set (i := r / 12 / 100) in *.
  assert (Hcap : forall j, (gs_month (unroll (gen_cond n) (gen_body emi i o) j (gen_init P))
                            <? n * 2)%Z = true).
  { intros j. pose proof (gen_counters emi i o n P j) as (Hm & _ & _).
    cbv zeta in Hm. apply Z.ltb_lt. rewrite Hm. zdiv. }
  induction k as [|k (Hrun & Hb)].
  - split; [|apply Qle_refl]. unfold gen_cond. apply andb_true_iff.
    split; [apply Qltb_lt; exact HP | exact (Hcap O)].
  - specialize (Hcap (S k)). rewrite unroll_succ in Hcap |- *. rewrite Hrun in Hcap |- *.
    set (st := unroll _ _ k _) in *.
    assert (Hdue : emi - gs_balance st * i + o <= 0).
    { pose proof (Qmult_le_compat_r _ _ i Hb Hi). lra. }
    assert (Hb' : P <= gs_balance (gen_body emi i o st)).
    { rewrite gen_body_balance. destruct (Qltb _ _) eqn:E.
      - apply Qltb_lt in E. lra.
      - lra. }
    split; [|exact Hb'].
    unfold gen_cond. rewrite Hcap, andb_true_r. apply Qltb_lt. lra.
Qed.

(** C2 (standard generator): with principal 100000, annual rate 12,
    tenure 120 months and a monthly overpayment of -2000, the payment never
    covers the interest and the loop never stops: no amount of fuel yields a
    schedule, truncated or not. *)
Theorem standard_generator_cap_never_fires :
  forall fuel, generateAmortizationSchedule fuel 100000 12 120 (-2000) = None.
Proof.
  intros fuel.
  assert (H : gen_cond 120 (gen_run 100000 12 120 (-2000) fuel) = true).
  { apply gen_never_stops.
    - reflexivity.
    - discriminate.
    - lia.
    - apply Qle_bool_iff. vm_compute. reflexivity. }
  unfold gen_run in H. unfold generateAmortizationSchedule, while. cbv zeta in *.
  rewrite H. reflexivity.
Qed.

(** ** Overpayments shorten the schedule *)

Section Overpayment.
Variables monthlyEMI monthlyRate : Q.
Variable tenureMonths : Z.
Variable principal : Q.
Variables o1 o2 : Q.
Hypothesis Hrate : 0 <= 1 + monthlyRate.
Hypothesis Hle : o1 <= o2.

Local Abbreviation cond := (gen_cond tenureMonths).
Local Abbreviation s1 k :=
  (unroll cond (gen_body monthlyEMI monthlyRate o1) k (gen_init principal)).
Local Abbreviation s2 k :=
  (unroll cond (gen_body monthlyEMI monthlyRate o2) k (gen_init principal)).


End Overpayment.





(** ** The loop of the date-aware engine *)

Section AdvFacts.
Import AdvancedMortgageInput.
Variable input : AdvancedMortgageInput.t.
Variable originalEMI : Q.

Local Abbreviation body := (adv_body input originalEMI).
Local Abbreviation cond := (adv_cond input).

Lemma adv_cond_true st :
  cond st = true <->
  as_break st = false /\ 0 < as_balance st /\ (as_month st < tenureMonths input * 2)%Z.
Proof.
  unfold adv_cond. rewrite !andb_true_iff, negb_true_iff, Qltb_lt, Z.ltb_lt. reflexivity.
Qed.

Lemma periodRecord_entering m b b' r :
  b == b' -> periodRecord input originalEMI m b r -> periodRecord input originalEMI m b' r.
Proof.
  intros Hb. unfold periodRecord. cbv zeta. rewrite Hb. tauto.
Qed.

(** What one iteration does to the variables of the loop. *)
Lemma adv_body_spec st :
  exists r,
    as_schedule (body st) = as_schedule st ++ [r] /\
    periodRecord input originalEMI (as_month st) (as_balance st) r /\
    PaymentDetail.balance r = Qmax 0 (as_balance (body st)) /\
    as_balance (body st) = as_balance st - PaymentDetail.principalPayment r /\
    as_month (body st) = (as_month st + 1)%Z /\
    as_break (body st) = (tenureMonths input * 2 <? as_month st + 1)%Z /\
    as_totalLumpSum (body st) =
      (if PaymentDetail.isLumpSumMonth r
       then as_totalLumpSum st + valueOf (lumpSumAmount input)
       else as_totalLumpSum st) /\
    as_totalExtraPayments (body st) =
      (if PaymentDetail.isExtraPaymentMonth r
       then as_totalExtraPayments st + valueOf (extraPaymentAmount input)
       else as_totalExtraPayments st).
Proof.
  eexists. split; [reflexivity|].
  split; [|repeat split; reflexivity].
  unfold periodRecord. cbn [PaymentDetail.date PaymentDetail.monthNumber
    PaymentDetail.interestRate PaymentDetail.isExtraPaymentMonth
    PaymentDetail.isLumpSumMonth PaymentDetail.interestPayment
    PaymentDetail.principalPayment PaymentDetail.totalPayment].
  cbv zeta.
  repeat (split; [reflexivity|]).
  set (d := getPaymentDate _ _ _).
  destruct (inExtraWindow input d), (inLumpSumMonth input d);
    match goal with
    | |- context [Qltb ?a ?b] => destruct (Qltb a b) eqn:E
    end;
    [apply Qltb_lt in E | apply Qltb_ge in E
    |apply Qltb_lt in E | apply Qltb_ge in E
    |apply Qltb_lt in E | apply Qltb_ge in E
    |apply Qltb_lt in E | apply Qltb_ge in E];
    ((right; split; [lra | split; reflexivity]) ||
     (left; split; [lra | split; ring])).
Qed.

Lemma flagged_app flag schedule r :
  flagged flag (schedule ++ [r]) ==
  flagged flag schedule + (if flag r then 1 else 0).
Proof.
  unfold flagged. rewrite filter_app, length_app. simpl.
  destruct (flag r); simpl; rewrite Nat2Z.inj_add, inject_Z_plus; simpl; ring.
Qed.

Lemma advInvariant_init : advInvariant input originalEMI (adv_init input).
Proof.
  unfold advInvariant, adv_init. simpl.
  split; [reflexivity|]. split; [reflexivity|]. split; [left; reflexivity|].
  split; [apply recordsWithin_nil|]. split; [reflexivity|].
  split; [intros [|i] r; discriminate|].
  split; unfold flagged; simpl; ring.
Qed.

Lemma advInvariant_step st :
  advInvariant input originalEMI st -> cond st = true ->
  advInvariant input originalEMI (body st).
Proof.
  intros (Hm & Hbr & Hlen & Hw & Hb & Hrec & Hl & He) Hrun.
  apply adv_cond_true in Hrun as (_ & Hpos & Hcap).
  destruct (adv_body_spec st) as (r & Hs & Hr & Hrb & Hbal & Hmon & Hbrk & Hls & Hex).
  assert (Hpp : PaymentDetail.principalPayment r <= as_balance st).
  { destruct Hr as (_ & _ & _ & _ & _ & _ & [(H1 & H2 & _)|(H1 & H2 & _)]);
      rewrite H2; [exact H1 | apply Qle_refl]. }
  assert (Hnn : 0 <= as_balance (body st)) by (rewrite Hbal; lra).
  unfold advInvariant. cbv zeta. rewrite Hs, length_app. simpl length.
  split; [|split; [|split; [|split; [|split; [|split; [|split]]]]]].
  - rewrite Hmon, Hm. lia.
  - rewrite Hbrk. apply Z.ltb_ge. lia.
  - right. lia.
  - apply recordsWithin_app; [assumption | |].
    + rewrite Hrb. apply Qmax_0_nonneg.
    + rewrite <- Hb. exact Hpp.
  - rewrite closingBalance_app, Hrb. symmetry. apply Qmax_0_of_nonneg, Hnn.
  - intros i r' Hi.
    destruct (Nat.lt_ge_cases i (length (as_schedule st))) as [Hlt|Hge].
    + rewrite nth_error_app1 in Hi by assumption.
      rewrite enteringBalance_app by lia. auto.
    + assert (i = length (as_schedule st)) as ->.
      { assert (i < length (as_schedule st ++ [r]))%nat as Hlt
          by (apply nth_error_Some; congruence).
        rewrite length_app in Hlt. simpl in Hlt. lia. }
      rewrite nth_error_app2, Nat.sub_diag in Hi by lia. injection Hi as <-.
      rewrite enteringBalance_app by lia. rewrite <- Hm.
      apply (periodRecord_entering _ (as_balance st)); assumption.
  - rewrite Hls, flagged_app. destruct (PaymentDetail.isLumpSumMonth r); rewrite Hl; ring.
  - rewrite Hex, flagged_app. destruct (PaymentDetail.isExtraPaymentMonth r); rewrite He; ring.
Qed.
End AdvFacts.

Lemma adv_run_invariant input k :
  advInvariant input (advEMI input) (adv_run input k).
Proof.
  unfold adv_run. apply unroll_invariant.
  - apply advInvariant_step.
  - apply advInvariant_init.
Qed.

(** While the loop runs, the schedule has one record per iteration. *)
Lemma adv_length_running input k :
  adv_cond input (adv_run input k) = true ->
  length (as_schedule (adv_run input k)) = k.
Proof.
  unfold adv_run. induction k as [|k IH]; intros Hrun; [reflexivity|].
  pose proof (unroll_running _ _ _ _ Hrun k ltac:(lia)) as Hk.
  rewrite unroll_succ, Hk.
  destruct (adv_body_spec input (advEMI input)
              (unroll (adv_cond input) (adv_body input (advEMI input)) k (adv_init input)))
    as (r & -> & _).
  rewrite length_app, IH by assumption. simpl. lia.
Qed.

Lemma adv_length_le input k : (length (as_schedule (adv_run input k)) <= k)%nat.
Proof.
  unfold adv_run. induction k as [|k IH]; [simpl; lia|].
  rewrite unroll_succ. destruct (adv_cond input _); [|lia].
  destruct (adv_body_spec input (advEMI input)
              (unroll (adv_cond input) (adv_body input (advEMI input)) k (adv_init input)))
    as (r & -> & _).
  rewrite length_app. simpl. lia.
Qed.

Lemma adv_length_mono input j k :
  (j <= k)%nat ->
  (length (as_schedule (adv_run input j)) <= length (as_schedule (adv_run input k)))%nat.
Proof.
  unfold adv_run. induction 1 as [|k Hle IH]; [lia|].
  rewrite unroll_succ. destruct (adv_cond input _); [|lia].
  destruct (adv_body_spec input (advEMI input)
              (unroll (adv_cond input) (adv_body input (advEMI input)) k (adv_init input)))
    as (r & -> & _).
  rewrite length_app. simpl. lia.
Qed.

(** The cap of the date-aware engine works: its counter is never reset, so
    the loop stops within twice the tenure. *)
Lemma adv_stops input :
  adv_cond input
    (adv_run input (Z.to_nat (AdvancedMortgageInput.tenureMonths input * 2))) = false.
Proof.
  set (k := Z.to_nat _).
  destruct (adv_cond input (adv_run input k)) eqn:E; [|reflexivity].
  pose proof (adv_length_running input k E) as Hl.
  destruct (adv_run_invariant input k) as (Hm & _).
  apply adv_cond_true in E as (_ & _ & Hcap). rewrite Hm, Hl in Hcap. lia.
Qed.

Lemma advanced_Some fuel input res :
  calculateAdvancedMortgage fuel input = Some res ->
  res = adv_result input (advEMI input) (adv_run input fuel) /\
  adv_cond input (adv_run input fuel) = false.
Proof.
  unfold calculateAdvancedMortgage, adv_run. cbv zeta.
  destruct (while _ _ fuel _) as [st|] eqn:E; [|discriminate].
  apply while_Some in E as [-> Hc]. intros [= <-]. auto.
Qed.

(** The date-aware engine always returns, with a schedule of at most twice
    the tenure. *)
Lemma advanced_engine_terminates input :
  let cap := Z.to_nat (AdvancedMortgageInput.tenureMonths input * 2) in
  exists res,
    (forall fuel, (cap <= fuel)%nat -> calculateAdvancedMortgage fuel input = Some res) /\
    (length (AdvancedCalculationResult.schedule res) <= cap)%nat.
Proof.
  intros cap. exists (adv_result input (advEMI input) (adv_run input cap)). split.
  - intros fuel Hf. unfold calculateAdvancedMortgage, adv_run. cbv zeta.
    rewrite (while_stopped _ _ cap _ (adv_stops input) fuel Hf). reflexivity.
  - simpl. apply adv_length_le.
Qed.

(** ** Balances and principal components *)

(** *** Binary64: comparisons, subtraction and [Math.max]

    A comparison with NaN is false, [x - y] is NaN only when an operand is
    NaN or both are the same infinity, and [Math.max(0, x)] is NaN exactly
    when [x] is. *)

Local Open Scope float_scope.

Lemma Pos_compare_cont_refl m : Pos.compare_cont Eq m m = Eq.
Proof. apply Pos.compare_refl. Qed.

Lemma SFcompare_refl s : s <> S754_nan -> SFcompare s s = Some Eq.
Proof.
  destruct s as [[]|[]| |[] m e]; intros H; try reflexivity; try congruence;
    simpl; rewrite Z.compare_refl, Pos_compare_cont_refl; reflexivity.
Qed.

Lemma is_nan_spec x : is_nan x = true <-> Prim2SF x = S754_nan.
Proof.
  unfold is_nan. rewrite FloatAxioms.eqb_spec. unfold SFeqb. split.
  - intros H. destruct (Prim2SF x) eqn:E; try reflexivity;
      rewrite SFcompare_refl in H by discriminate; discriminate.
  - intros ->. reflexivity.
Qed.

Lemma is_num_spec x : is_nan x = false <-> Prim2SF x <> S754_nan.
Proof.
  rewrite <- is_nan_spec. destruct (is_nan x); split; congruence.
Qed.

Lemma ltb_is_num x y : (x <? y) = true -> is_nan x = false /\ is_nan y = false.
Proof.
  rewrite ltb_spec, !is_num_spec. unfold SFltb.
  destruct (Prim2SF x), (Prim2SF y); simpl; intros H; split; congruence.
Qed.

Lemma leb_refl x : is_nan x = false -> (x <=? x) = true.
Proof.
  rewrite is_num_spec, leb_spec. intros H. unfold SFleb.
  rewrite SFcompare_refl by exact H. reflexivity.
Qed.

Lemma SFcompare_antisym s1 s2 :
  SFcompare s2 s1 = option_map CompOpp (SFcompare s1 s2).
Proof.
  destruct s1 as [[]|[]| |[] m1 e1], s2 as [[]|[]| |[] m2 e2]; try reflexivity;
    simpl; rewrite (Z.compare_antisym e1 e2);
    destruct (e1 ?= e2)%Z; simpl; try reflexivity;
    rewrite (Pos.compare_cont_antisym m1 m2 Eq); simpl;
    destruct (Pos.compare_cont Eq m1 m2); reflexivity.
Qed.

Lemma SFcompare_total s1 s2 :
  s1 <> S754_nan -> s2 <> S754_nan -> SFcompare s1 s2 <> None.
Proof.
  destruct s1 as [[]|[]| |[] m1 e1], s2 as [[]|[]| |[] m2 e2]; simpl; congruence.
Qed.

Lemma ltb_false_leb x y :
  is_nan x = false -> is_nan y = false -> (x <? y) = false -> (y <=? x) = true.
Proof.
  rewrite !is_num_spec, ltb_spec, leb_spec. unfold SFltb, SFleb. intros Hx Hy.
  rewrite (SFcompare_antisym (Prim2SF x) (Prim2SF y)).
  pose proof (SFcompare_total _ _ Hx Hy) as Ht.
  destruct (SFcompare (Prim2SF x) (Prim2SF y)) as [[]|]; simpl; congruence.
Qed.

Lemma ltb_leb x y : (x <? y) = true -> (x <=? y) = true.
Proof.
  rewrite ltb_spec, leb_spec. unfold SFltb, SFleb.
  destruct (SFcompare _ _) as [[]|]; congruence.
Qed.

(** Rounding a mantissa that is not negative never gives NaN. *)
Definition shr_nonneg (mrs : shr_record) : Prop := (0 <= shr_m mrs)%Z.

Lemma shr_1_nonneg mrs : shr_nonneg mrs -> shr_nonneg (shr_1 mrs).
Proof.
  destruct mrs as [m r s]. unfold shr_nonneg. simpl.
  destruct m as [|[p|p|]|p]; simpl; lia.
Qed.

Lemma iter_pos_nonneg p mrs : shr_nonneg mrs -> shr_nonneg (iter_pos shr_1 p mrs).
Proof.
  revert mrs. induction p as [p IH|p IH|]; intros mrs H; simpl.
  - apply IH, IH, shr_1_nonneg, H.
  - apply IH, IH, H.
  - apply shr_1_nonneg, H.
Qed.

Lemma shr_fexp_nonneg m e l :
  (0 <= m)%Z -> shr_nonneg (fst (shr_fexp prec emax m e l)).
Proof.
  intros Hm. unfold shr_fexp, shr.
  assert (H0 : shr_nonneg (shr_record_of_loc m l)).
  { unfold shr_nonneg. destruct l as [|[]]; simpl; exact Hm. }
  destruct (_ - e)%Z; simpl; try exact H0. apply iter_pos_nonneg, H0.
Qed.

Lemma round_nearest_even_nonneg m l : (0 <= m)%Z -> (0 <= round_nearest_even m l)%Z.
Proof.
  intros Hm. destruct l as [|[]]; simpl; try lia. destruct (Z.even m); lia.
Qed.

Lemma binary_round_aux_num sx mx ex lx :
  (0 <= mx)%Z -> binary_round_aux prec emax sx mx ex lx <> S754_nan.
Proof.
  intros Hm. unfold binary_round_aux.
  pose proof (shr_fexp_nonneg mx ex lx Hm) as H1.
  destruct (shr_fexp prec emax mx ex lx) as [mrs' e'] eqn:E1. simpl in H1.
  pose proof (shr_fexp_nonneg _ e' loc_Exact
                (round_nearest_even_nonneg _ (loc_of_shr_record mrs') H1)) as H2.
  destruct (shr_fexp prec emax _ e' loc_Exact) as [mrs'' e''] eqn:E2. simpl in H2.
  unfold shr_nonneg in H2.
  destruct (shr_m mrs'') eqn:E3; try discriminate; [|lia].
  destruct (_ <=? _)%Z; discriminate.
Qed.

Lemma binary_normalize_num m e szero : binary_normalize prec emax m e szero <> S754_nan.
Proof.
  destruct m as [|p|p]; simpl; try discriminate; unfold binary_round;
    destruct (shl_align _ _ _) as [mz ez]; apply binary_round_aux_num; lia.
Qed.

Definition SFfinite (s : spec_float) : bool :=
  match s with
  | S754_zero _ | S754_finite _ _ _ => true
  | _ => false
  end.

Lemma is_finite_spec x : is_finite x = SFfinite (Prim2SF x).
Proof.
  unfold is_finite, is_infinity, is_nan.
  rewrite !FloatAxioms.eqb_spec, abs_spec.
  change (Prim2SF infinity) with (S754_infinity false).
  unfold SFeqb. destruct (Prim2SF x) as [[]|[]| |[] m e]; try reflexivity;
    simpl; rewrite Z.compare_refl, Pos_compare_cont_refl; reflexivity.
Qed.

Lemma sub_is_num x y : is_nan x = false -> is_finite y = true -> is_nan (x - y) = false.
Proof.
  rewrite is_finite_spec, !is_num_spec, sub_spec. unfold SF64sub.
  destruct (Prim2SF x) as [sx|sx| |sx mx ex], (Prim2SF y) as [sy|sy| |sy my ey];
    simpl; try congruence; try discriminate.
  - intros _ _. destruct sx, sy; discriminate.
  - intros _ _. apply binary_normalize_num.
Qed.

Lemma SFsub_diag s : SFfinite s = true -> SFsub prec emax s s = S754_zero false.
Proof.
  destruct s as [[]|[]| |sx mx ex]; simpl; try discriminate; try reflexivity.
  intros _. rewrite Z.sub_diag. reflexivity.
Qed.

Lemma sub_diag x : is_finite x = true -> x - x = 0.
Proof.
  rewrite is_finite_spec. intros H. apply Prim2SF_inj.
  rewrite sub_spec. unfold SF64sub. rewrite (SFsub_diag _ H). reflexivity.
Qed.

Lemma Math_max_pos x : (0 <? x) = true -> IEEE.Math_max 0 x = x.
Proof.
  intros H. unfold IEEE.Math_max. destruct (ltb_is_num _ _ H) as (_ & Hx).
  rewrite Hx, H. reflexivity.
Qed.

Lemma Math_max_nonneg x : is_nan x = false -> (0 <=? IEEE.Math_max 0 x) = true.
Proof.
  intros Hx. unfold IEEE.Math_max. rewrite Hx. simpl.
  destruct (0 <? x) eqn:E; [apply ltb_leb, E | reflexivity].
Qed.

Lemma Math_max_nan x : is_nan x = true -> is_nan (IEEE.Math_max 0 x) = true.
Proof. intros Hx. unfold IEEE.Math_max. rewrite Hx. reflexivity. Qed.

Lemma is_finite_num x : is_finite x = true -> is_nan x = false.
Proof. unfold is_finite. destruct (is_nan x); [discriminate|reflexivity]. Qed.

Lemma sub_nan_r x y : is_nan y = true -> is_nan (x - y) = true.
Proof.
  rewrite !is_nan_spec, sub_spec. intros ->. unfold SF64sub.
  destruct (Prim2SF x); reflexivity.
Qed.

(** What a record of a clamped period says when its principal is a finite
    number, and when it is not a number. *)
Lemma clamped_record_within (entering due principal balance : float) :
  (0 <? entering) = true ->
  principal = (if entering <? due then entering else due) ->
  balance = IEEE.Math_max 0 (entering - principal) ->
  is_finite principal = true ->
  (0 <=? balance) = true /\ (principal <=? entering) = true /\
  ((entering <? due) = true -> principal = entering /\ balance = 0).
Proof.
  intros Hpos Hp Hb Hfin.
  destruct (ltb_is_num _ _ Hpos) as (_ & He).
  pose proof (is_finite_num _ Hfin) as Hnum.
  assert (Hbal : (0 <=? balance) = true).
  { rewrite Hb. apply Math_max_nonneg, sub_is_num; assumption. }
  split; [exact Hbal|]. destruct (entering <? due) eqn:E.
  - subst principal. split; [apply leb_refl, He|]. intros _. split; [reflexivity|].
    rewrite Hb, (sub_diag _ Hfin). reflexivity.
  - split; [|discriminate]. subst principal. apply ltb_false_leb; assumption.
Qed.

Lemma clamped_record_nan (entering principal balance : float) :
  balance = IEEE.Math_max 0 (entering - principal) ->
  is_nan principal = true -> is_nan balance = true.
Proof. intros -> H. apply Math_max_nan, sub_nan_r, H. Qed.

Lemma IEEE_enteringBalance_app {R : Type} (balanceOf : R -> float) initial
    (schedule : list R) r i :
  (i <= length schedule)%nat ->
  IEEE.enteringBalance balanceOf initial (schedule ++ [r]) i =
  IEEE.enteringBalance balanceOf initial schedule i.
Proof.
  intros Hi. destruct i as [|j]; simpl; [reflexivity|].
  rewrite nth_error_app1 by lia. reflexivity.
Qed.

Lemma IEEE_closingBalance_app {R : Type} (balanceOf : R -> float) initial
    (schedule : list R) r :
  IEEE.closingBalance balanceOf initial (schedule ++ [r]) = balanceOf r.
Proof.
  unfold IEEE.closingBalance. rewrite length_app, Nat.add_1_r. simpl.
  rewrite nth_error_app2 by lia. rewrite Nat.sub_diag. reflexivity.
Qed.

(** A loop that runs while the balance is positive and whose body is a
    clamped period keeps a clamped ledger. *)
Section ClampedLoop.
Context {S R : Type}.
Variable bal : S -> float.
Variable sched : S -> list R.
Variables principalOf balanceOf due : R -> float.
Variable cond : S -> bool.
Variable body : S -> S.
Variable initial : float.
Hypothesis cond_positive : forall st, cond st = true -> (0 <? bal st) = true.
Hypothesis body_period : forall st, exists r,
  sched (body st) = sched st ++ [r] /\
  principalOf r = (if bal st <? due r then bal st else due r) /\
  balanceOf r = IEEE.Math_max 0 (bal (body st)) /\
  bal (body st) = bal st - principalOf r.

Lemma clamped_loop k st :
  IEEE.clamped principalOf balanceOf due initial (sched st) /\
  ((0 <? bal st) = true -> bal st = IEEE.closingBalance balanceOf initial (sched st)) ->
  IEEE.clamped principalOf balanceOf due initial (sched (unroll cond body k st)) /\
  ((0 <? bal (unroll cond body k st)) = true ->
   bal (unroll cond body k st) =
   IEEE.closingBalance balanceOf initial (sched (unroll cond body k st))).
Proof.
  apply (unroll_invariant cond body
           (fun st => IEEE.clamped principalOf balanceOf due initial (sched st) /\
                      ((0 <? bal st) = true ->
                       bal st = IEEE.closingBalance balanceOf initial (sched st)))).
  clear st. intros st (Hc & Hb) Hrun.
  pose proof (cond_positive st Hrun) as Hpos. specialize (Hb Hpos).
  destruct (body_period st) as (r & Hs & Hp & Hr & Hnew).
  rewrite Hs. split.
  - intros i r' Hi.
    destruct (Nat.lt_ge_cases i (length (sched st))) as [Hlt|Hge].
    + rewrite nth_error_app1 in Hi by assumption.
      rewrite IEEE_enteringBalance_app by lia. apply Hc, Hi.
    + assert (i = length (sched st)) as ->.
      { assert (i < length (sched st ++ [r]))%nat as Hlt
          by (apply nth_error_Some; congruence).
        rewrite length_app in Hlt. simpl in Hlt. lia. }
      rewrite nth_error_app2, Nat.sub_diag in Hi by lia. injection Hi as <-.
      rewrite IEEE_enteringBalance_app by lia.
      fold (IEEE.closingBalance balanceOf initial (sched st)).
      cbv zeta. rewrite <- Hb. split; [exact Hpos|]. split; [exact Hp|].
      rewrite Hr, Hnew. reflexivity.
  - intros Hpos'. rewrite IEEE_closingBalance_app, Hr. symmetry.
    apply Math_max_pos, Hpos'.
Qed.
End ClampedLoop.

Lemma IEEE_gen_body_period monthlyEMI monthlyRate monthlyOverpayment st :
  exists r,
    IEEE.gs_schedule (IEEE.gen_body monthlyEMI monthlyRate monthlyOverpayment st) =
      IEEE.gs_schedule st ++ [r] /\
    IEEE.PaymentRecord.principal r =
      (if IEEE.gs_balance st <? IEEE.gen_due monthlyEMI monthlyOverpayment r
       then IEEE.gs_balance st else IEEE.gen_due monthlyEMI monthlyOverpayment r) /\
    IEEE.PaymentRecord.balance r =
      IEEE.Math_max 0
        (IEEE.gs_balance (IEEE.gen_body monthlyEMI monthlyRate monthlyOverpayment st)) /\
    IEEE.gs_balance (IEEE.gen_body monthlyEMI monthlyRate monthlyOverpayment st) =
      IEEE.gs_balance st - IEEE.PaymentRecord.principal r.
Proof.
  unfold IEEE.gen_body. cbv zeta.
  destruct (_ =? 12)%Z; eexists; repeat split; reflexivity.
Qed.

Lemma IEEE_post_body_period postFixedEMI postFixedRate_monthly st :
  exists r,
    IEEE.gs_schedule (IEEE.post_body postFixedEMI postFixedRate_monthly st) =
      IEEE.gs_schedule st ++ [r] /\
    IEEE.PaymentRecord.principal r =
      (if IEEE.gs_balance st <? IEEE.post_due postFixedEMI r
       then IEEE.gs_balance st else IEEE.post_due postFixedEMI r) /\
    IEEE.PaymentRecord.balance r =
      IEEE.Math_max 0
        (IEEE.gs_balance (IEEE.post_body postFixedEMI postFixedRate_monthly st)) /\
    IEEE.gs_balance (IEEE.post_body postFixedEMI postFixedRate_monthly st) =
      IEEE.gs_balance st - IEEE.PaymentRecord.principal r.
Proof.
  unfold IEEE.post_body. cbv zeta.
  destruct (_ =? 12)%Z; eexists; repeat split; reflexivity.
Qed.

Lemma IEEE_adv_body_period input originalEMI st :
  exists r,
    IEEEAdvanced.as_schedule (IEEEAdvanced.adv_body input originalEMI st) =
      IEEEAdvanced.as_schedule st ++ [r] /\
    IEEEAdvanced.PaymentDetail.principalPayment r =
      (if IEEEAdvanced.as_balance st <? IEEEAdvanced.adv_due input originalEMI r
       then IEEEAdvanced.as_balance st
       else IEEEAdvanced.adv_due input originalEMI r) /\
    IEEEAdvanced.PaymentDetail.balance r =
      IEEE.Math_max 0
        (IEEEAdvanced.as_balance (IEEEAdvanced.adv_body input originalEMI st)) /\
    IEEEAdvanced.as_balance (IEEEAdvanced.adv_body input originalEMI st) =
      IEEEAdvanced.as_balance st - IEEEAdvanced.PaymentDetail.principalPayment r.
Proof.
  unfold IEEEAdvanced.adv_body. cbv zeta. eexists. repeat split; reflexivity.
Qed.

(** The ledger of the standard loop, whatever further test [cap] the loop
    makes besides [balance > 0]. *)
Lemma IEEE_gen_clamped (cap : IEEE.GenState -> bool)
    (monthlyEMI monthlyRate monthlyOverpayment principal : float) (k : nat) :
  IEEE.clamped IEEE.PaymentRecord.principal IEEE.PaymentRecord.balance
    (IEEE.gen_due monthlyEMI monthlyOverpayment) principal
    (IEEE.gs_schedule
       (unroll (fun st => (0 <? IEEE.gs_balance st) && cap st)
          (IEEE.gen_body monthlyEMI monthlyRate monthlyOverpayment) k
          (IEEE.mkGenState principal 0 0 []))).
Proof.
  apply (clamped_loop IEEE.gs_balance IEEE.gs_schedule
           IEEE.PaymentRecord.principal IEEE.PaymentRecord.balance
           (IEEE.gen_due monthlyEMI monthlyOverpayment)
           (fun st => (0 <? IEEE.gs_balance st) && cap st)
           (IEEE.gen_body monthlyEMI monthlyRate monthlyOverpayment) principal).
  - intros st H. apply andb_true_iff in H. apply H.
  - apply IEEE_gen_body_period.
  - split; [intros [|i] r; discriminate|]. intros _. reflexivity.
Qed.

Lemma IEEE_adv_clamped (input : IEEEAdvanced.AdvancedMortgageInput.t)
    (originalEMI : float) (k : nat) :
  IEEE.clamped IEEEAdvanced.PaymentDetail.principalPayment
    IEEEAdvanced.PaymentDetail.balance (IEEEAdvanced.adv_due input originalEMI)
    (IEEEAdvanced.AdvancedMortgageInput.loanAmount input)
    (IEEEAdvanced.as_schedule
       (unroll (IEEEAdvanced.adv_cond input) (IEEEAdvanced.adv_body input originalEMI) k
          (IEEEAdvanced.adv_init input))).
Proof.
  apply (clamped_loop IEEEAdvanced.as_balance IEEEAdvanced.as_schedule
           IEEEAdvanced.PaymentDetail.principalPayment
           IEEEAdvanced.PaymentDetail.balance (IEEEAdvanced.adv_due input originalEMI)
           (IEEEAdvanced.adv_cond input) (IEEEAdvanced.adv_body input originalEMI)
           (IEEEAdvanced.AdvancedMortgageInput.loanAmount input)).
  - intros st H. unfold IEEEAdvanced.adv_cond in H.
    apply andb_true_iff in H as (_ & H). apply andb_true_iff in H. apply H.
  - apply IEEE_adv_body_period.
  - split; [intros [|i] r; discriminate|]. intros _. reflexivity.
Qed.

(** C3, amended: in binary64, every record of the standard schedule
    generator (whatever its installment, and whatever further test its
    loop makes besides [balance > 0]) and of the date-aware engine whose
    principal component is a finite number has a balance field that is not
    negative and a principal of at most the balance the period starts from
    (the loan amount for the first record, the balance recorded by the
    previous record afterwards); and when the principal that the period
    asks for exceeds that balance, the principal is that balance and the
    recorded balance is 0. *)
Theorem finite_records_within_balance :
  (forall (cap : IEEE.GenState -> bool)
          (monthlyEMI monthlyRate monthlyOverpayment principal : float)
          (k i : nat) (rec : IEEE.PaymentRecord.t),
     let st :=
       unroll (fun st => (0 <? IEEE.gs_balance st) && cap st)
         (IEEE.gen_body monthlyEMI monthlyRate monthlyOverpayment) k
         (IEEE.mkGenState principal 0 0 []) in
     let entering :=
       IEEE.enteringBalance IEEE.PaymentRecord.balance principal
         (IEEE.gs_schedule st) i in
     nth_error (IEEE.gs_schedule st) i = Some rec ->
     is_finite (IEEE.PaymentRecord.principal rec) = true ->
     (0 <=? IEEE.PaymentRecord.balance rec) = true /\
     (IEEE.PaymentRecord.principal rec <=? entering) = true /\
     ((entering <? IEEE.gen_due monthlyEMI monthlyOverpayment rec) = true ->
      IEEE.PaymentRecord.principal rec = entering /\
      IEEE.PaymentRecord.balance rec = 0)) /\
  (forall (input : IEEEAdvanced.AdvancedMortgageInput.t) (originalEMI : float)
          (k i : nat) (rec : IEEEAdvanced.PaymentDetail.t),
     let st :=
       unroll (IEEEAdvanced.adv_cond input) (IEEEAdvanced.adv_body input originalEMI) k
         (IEEEAdvanced.adv_init input) in
     let entering :=
       IEEE.enteringBalance IEEEAdvanced.PaymentDetail.balance
         (IEEEAdvanced.AdvancedMortgageInput.loanAmount input)
         (IEEEAdvanced.as_schedule st) i in
     nth_error (IEEEAdvanced.as_schedule st) i = Some rec ->
     is_finite (IEEEAdvanced.PaymentDetail.principalPayment rec) = true ->
     (0 <=? IEEEAdvanced.PaymentDetail.balance rec) = true /\
     (IEEEAdvanced.PaymentDetail.principalPayment rec <=? entering) = true /\
     ((entering <? IEEEAdvanced.adv_due input originalEMI rec) = true ->
      IEEEAdvanced.PaymentDetail.principalPayment rec = entering /\
      IEEEAdvanced.PaymentDetail.balance rec = 0)).
Proof.
  split.
  - intros cap monthlyEMI monthlyRate monthlyOverpayment principal k i rec st entering
      Hi Hfin.
    destruct (IEEE_gen_clamped cap monthlyEMI monthlyRate monthlyOverpayment principal k
                i rec Hi) as (Hpos & Hp & Hb).
    exact (clamped_record_within _ _ _ _ Hpos Hp Hb Hfin).
  - intros input originalEMI k i rec st entering Hi Hfin.
    destruct (IEEE_adv_clamped input originalEMI k i rec Hi) as (Hpos & Hp & Hb).
    exact (clamped_record_within _ _ _ _ Hpos Hp Hb Hfin).
Qed.

Lemma finite_records_within_balance_witness :
  (exists rec,
     nth_error
       (IEEE.gs_schedule
          (unroll (fun st => (0 <? IEEE.gs_balance st) && (IEEE.gs_month st <? 1 * 2)%Z)
             (IEEE.gen_body (IEEE.calculateMonthlyEMI 1200 12 1) (12 / 12 / 100) 0) 2
             (IEEE.mkGenState 1200 0 0 []))) 1 = Some rec /\
     (0 <=? IEEE.PaymentRecord.balance rec) = true /\
     IEEE.PaymentRecord.principal rec =
       IEEE.enteringBalance IEEE.PaymentRecord.balance 1200
         (IEEE.gs_schedule
            (unroll (fun st => (0 <? IEEE.gs_balance st) && (IEEE.gs_month st <? 1 * 2)%Z)
               (IEEE.gen_body (IEEE.calculateMonthlyEMI 1200 12 1) (12 / 12 / 100) 0) 2
               (IEEE.mkGenState 1200 0 0 []))) 1 /\
     IEEE.PaymentRecord.balance rec = 0) /\
  (exists rec,
     nth_error
       (IEEEAdvanced.as_schedule
          (unroll (IEEEAdvanced.adv_cond lumpSumLoan)
             (IEEEAdvanced.adv_body lumpSumLoan 507.5) 4
             (IEEEAdvanced.adv_init lumpSumLoan))) 0 = Some rec /\
     IEEEAdvanced.PaymentDetail.isLumpSumMonth rec = true /\
     (0 <=? IEEEAdvanced.PaymentDetail.balance rec) = true /\
     IEEEAdvanced.PaymentDetail.principalPayment rec =
       IEEE.enteringBalance IEEEAdvanced.PaymentDetail.balance
         (IEEEAdvanced.AdvancedMortgageInput.loanAmount lumpSumLoan)
         (IEEEAdvanced.as_schedule
            (unroll (IEEEAdvanced.adv_cond lumpSumLoan)
               (IEEEAdvanced.adv_body lumpSumLoan 507.5) 4
               (IEEEAdvanced.adv_init lumpSumLoan))) 0 /\
     IEEEAdvanced.PaymentDetail.balance rec = 0).
Proof.
  split.
  - eexists. split; [vm_compute; reflexivity|].
    match goal with
    | |- (0 <=? IEEE.PaymentRecord.balance ?r) = true /\ _ =>
      unshelve refine (let H := proj1 finite_records_within_balance
                         (fun st => (IEEE.gs_month st <? 1 * 2)%Z)
                         (IEEE.calculateMonthlyEMI 1200 12 1) (12 / 12 / 100) 0 1200
                         2%nat 1%nat r _ _ in
              conj (proj1 H) (proj2 (proj2 H) _))
    end; vm_compute; reflexivity.
  - eexists. split; [vm_compute; reflexivity|]. split; [vm_compute; reflexivity|].
    match goal with
    | |- (0 <=? IEEEAdvanced.PaymentDetail.balance ?r) = true /\ _ =>
      unshelve refine (let H := proj2 finite_records_within_balance
                         lumpSumLoan 507.5 4%nat 0%nat r _ _ in
              conj (proj1 H) (proj2 (proj2 H) _))
    end; vm_compute; reflexivity.
Defined.

(** C3, as stated, fails: for 100000 borrowed at 30% over 30000 months
    [(1 + 0.025)^30000] is beyond the largest double, so [Math.pow]
    returns [Infinity] (here as in any implementation) and the installment
    is [Infinity / Infinity], not a number; the only record of the schedule
    has a principal and a balance that are not numbers, and its balance is
    not [>= 0]. *)
Lemma overflowing_emi_breaks_the_ledger :
  exists rec,
    (forall fuel, (1 <= fuel)%nat ->
       IEEE.generateAmortizationSchedule fuel 100000 30 30000 0 = Some [rec]) /\
    is_nan (IEEE.calculateMonthlyEMI 100000 30 30000) = true /\
    is_nan (IEEE.PaymentRecord.principal rec) = true /\
    is_nan (IEEE.PaymentRecord.balance rec) = true /\
    (0 <=? IEEE.PaymentRecord.balance rec) = false.
Proof.
  eexists. split.
  - intros fuel Hf.
    assert (Hstop :
      IEEE.gen_cond 30000
        (unroll (IEEE.gen_cond 30000)
           (IEEE.gen_body (IEEE.calculateMonthlyEMI 100000 30 30000) (30 / 12 / 100) 0) 1
           (IEEE.mkGenState 100000 0 0 [])) = false) by (vm_compute; reflexivity).
    unfold IEEE.generateAmortizationSchedule. cbv zeta.
    rewrite (while_stopped _ _ 1%nat _ Hstop fuel Hf).
    vm_compute. reflexivity.
  - vm_compute. repeat split.
Qed.

Local Close Scope float_scope.

(** ** Rates, installments and totals of the date-aware engine *)

Lemma rateOn_configured input d e f v :
  AdvancedMortgageInput.hasFixedRatePeriod input = true ->
  AdvancedMortgageInput.fixedRateEndDate input = Some e ->
  AdvancedMortgageInput.fixedRate input = Some f ->
  AdvancedMortgageInput.variableRate input = Some v ->
  rateOn input d = if (d <=? e)%Z then f else v.
Proof.
  intros H1 H2 H3 H4. unfold rateOn. rewrite H1, H2, H3, H4. simpl.
  destruct (d <=? e)%Z; reflexivity.
Qed.

Lemma rateOn_base input d :
  AdvancedMortgageInput.hasFixedRatePeriod input = false \/
  AdvancedMortgageInput.fixedRateEndDate input = None ->
  rateOn input d = AdvancedMortgageInput.annualRate input.
Proof.
  intros [H|H]; unfold rateOn; rewrite H; [reflexivity|].
  simpl. rewrite andb_false_r. reflexivity.
Qed.

(** C7: in every period of the date-aware engine the rate in effect is the
    fixed rate when a fixed-rate period is configured (flag, end date, fixed
    and variable rate present) and the payment date is on or before its end
    date, the variable rate after that date, and the base rate when no
    fixed-rate period is configured (flag off or no end date); the interest is the starting balance at
    that rate; and the payment is computed from the EMI at the base rate
    (plus the extra payment and lump sum of the period), unless the principal
    is clamped to the starting balance.  [newMonthlyEMI] is
    [originalMonthlyEMI]. *)
Theorem advanced_rate_and_emi (input : AdvancedMortgageInput.t) (fuel : nat)
    (res : AdvancedCalculationResult.t) :
  calculateAdvancedMortgage fuel input = Some res ->
  let emi :=
    calculateEMI (AdvancedMortgageInput.loanAmount input)
      (getMonthlyRate (AdvancedMortgageInput.annualRate input))
      (AdvancedMortgageInput.tenureMonths input) in
  let schedule := AdvancedCalculationResult.schedule res in
  AdvancedCalculationResult.originalMonthlyEMI res = emi /\
  AdvancedCalculationResult.newMonthlyEMI res =
    AdvancedCalculationResult.originalMonthlyEMI res /\
  forall i r, nth_error schedule i = Some r ->
    let entering :=
      enteringBalance PaymentDetail.balance
        (AdvancedMortgageInput.loanAmount input) schedule i in
    let extra :=
      if PaymentDetail.isExtraPaymentMonth r
      then valueOf (AdvancedMortgageInput.extraPaymentAmount input) else 0 in
    let lump :=
      if PaymentDetail.isLumpSumMonth r
      then valueOf (AdvancedMortgageInput.lumpSumAmount input) else 0 in
    let due := emi - PaymentDetail.interestPayment r + extra + lump in
    PaymentDetail.date r =
      getPaymentDate (AdvancedMortgageInput.loanStartDate input) (Z.of_nat i)
        (AdvancedMortgageInput.emiPaymentDate input) /\
    (forall e f v,
       AdvancedMortgageInput.hasFixedRatePeriod input = true ->
       AdvancedMortgageInput.fixedRateEndDate input = Some e ->
       AdvancedMortgageInput.fixedRate input = Some f ->
       AdvancedMortgageInput.variableRate input = Some v ->
       PaymentDetail.interestRate r =
         if (PaymentDetail.date r <=? e)%Z then f else v) /\
    (AdvancedMortgageInput.hasFixedRatePeriod input = false \/
     AdvancedMortgageInput.fixedRateEndDate input = None ->
     PaymentDetail.interestRate r = AdvancedMortgageInput.annualRate input) /\
    PaymentDetail.interestPayment r ==
      entering * getMonthlyRate (PaymentDetail.interestRate r) /\
    ((due <= entering /\
      PaymentDetail.principalPayment r == due /\
      PaymentDetail.totalPayment r == emi + extra + lump) \/
     (entering < due /\
      PaymentDetail.principalPayment r == entering /\
      PaymentDetail.totalPayment r == entering + PaymentDetail.interestPayment r)).
Proof.
  intros Hres emi schedule. apply advanced_Some in Hres as (-> & _).
  split; [reflexivity|]. split; [reflexivity|].
  intros i r Hi. subst schedule. simpl in Hi |- *.
  destruct (adv_run_invariant input fuel) as (_ & _ & _ & _ & _ & Hrec & _).
  destruct (Hrec i r Hi) as (Hd & _ & Hrate & _ & _ & Hint & Hpay).
  split; [exact Hd|]. split; [|split; [|split; [exact Hint | exact Hpay]]].
  - intros e f v H1 H2 H3 H4. rewrite Hrate, Hd. apply rateOn_configured; assumption.
  - intros H1. rewrite Hrate. apply rateOn_base, H1.
Qed.

Lemma advanced_rate_and_emi_witness :
  exists res r0 r1,
    calculateAdvancedMortgage 4 (shortLoan false) = Some res /\
    nth_error (AdvancedCalculationResult.schedule res) 0 = Some r0 /\
    nth_error (AdvancedCalculationResult.schedule res) 1 = Some r1 /\
    PaymentDetail.interestRate r0 = 6 /\
    PaymentDetail.interestRate r1 = 18 /\
    AdvancedCalculationResult.newMonthlyEMI res =
      AdvancedCalculationResult.originalMonthlyEMI res.
Proof.
  do 3 eexists.
  split; [vm_compute; reflexivity|].
  split; [vm_compute; reflexivity|].
  split; [vm_compute; reflexivity|].
  match goal with
  | |- PaymentDetail.interestRate ?a = _ /\ PaymentDetail.interestRate ?b = _ /\
       AdvancedCalculationResult.newMonthlyEMI ?res = _ =>
    assert (Hres : calculateAdvancedMortgage 4 (shortLoan false) = Some res)
      by (vm_compute; reflexivity);
    pose proof (advanced_rate_and_emi (shortLoan false) 4 res Hres) as (_ & Hnew & Hrec);
    assert (H0 : nth_error (AdvancedCalculationResult.schedule res) 0 = Some a)
      by (vm_compute; reflexivity);
    assert (H1 : nth_error (AdvancedCalculationResult.schedule res) 1 = Some b)
      by (vm_compute; reflexivity);
    destruct (Hrec 0%nat a H0) as (_ & Hfix0 & _);
    destruct (Hrec 1%nat b H1) as (_ & Hfix1 & _);
    split; [|split; [|exact Hnew]]
  end.
  - exact (Hfix0 _ 6 18 eq_refl eq_refl eq_refl eq_refl).
  - exact (Hfix1 _ 6 18 eq_refl eq_refl eq_refl eq_refl).
Defined.

Lemma inLumpSumMonth_spec input paymentDate :
  inLumpSumMonth input paymentDate = true <->
  AdvancedMortgageInput.hasLumpSum input = true /\
  exists d a,
    AdvancedMortgageInput.lumpSumDate input = Some d /\
    AdvancedMortgageInput.lumpSumAmount input = Some a /\
    ~ a == 0 /\ isSameMonth paymentDate d = true.
Proof.
  unfold inLumpSumMonth, truthy, sameMonthAs, isSome.
  destruct (AdvancedMortgageInput.hasLumpSum input),
           (AdvancedMortgageInput.lumpSumDate input) as [d|],
           (AdvancedMortgageInput.lumpSumAmount input) as [a|]; simpl;
    try (split; [discriminate | intros (H & d' & a' & Hd & Ha & _); congruence]).
  rewrite andb_true_iff, negb_true_iff. split.
  - intros (Ha & Hm). split; [reflexivity|]. exists d, a.
    repeat split; try assumption. apply Qeq_bool_neq, Ha.
  - intros (_ & d' & a' & [= <-] & [= <-] & Ha & Hm). split; [|exact Hm].
    destruct (Qeq_bool a 0) eqn:E; [|reflexivity].
    apply Qeq_bool_iff in E. contradiction.
Qed.

Lemma inExtraWindow_spec input paymentDate :
  inExtraWindow input paymentDate = true <->
  AdvancedMortgageInput.hasExtraPayments input = true /\
  exists s e a,
    AdvancedMortgageInput.extraPaymentStartDate input = Some s /\
    AdvancedMortgageInput.extraPaymentEndDate input = Some e /\
    AdvancedMortgageInput.extraPaymentAmount input = Some a /\
    ~ a == 0 /\ (s <= paymentDate <= e)%Z.
Proof.
  unfold inExtraWindow, truthy, onOrAfter, onOrBefore, isSome.
  destruct (AdvancedMortgageInput.hasExtraPayments input),
           (AdvancedMortgageInput.extraPaymentStartDate input) as [s|],
           (AdvancedMortgageInput.extraPaymentEndDate input) as [e|],
           (AdvancedMortgageInput.extraPaymentAmount input) as [a|]; simpl;
    try (split; [discriminate
                | intros (H & s' & e' & a' & Hs & He & Ha & _); congruence]).
  rewrite !andb_true_iff, negb_true_iff, !Z.leb_le. split.
  - intros (Ha & Hs & He). split; [reflexivity|]. exists s, e, a.
    repeat split; try assumption. apply Qeq_bool_neq, Ha.
  - intros (_ & s' & e' & a' & [= <-] & [= <-] & [= <-] & Ha & Hs & He).
    split; [|split; assumption].
    destruct (Qeq_bool a 0) eqn:E; [|reflexivity].
    apply Qeq_bool_iff in E. contradiction.
Qed.

(** C10: [totalLumpSum] and [totalExtraPayments] receive the full
    configured amount once for every period flagged as lump-sum month or
    as extra-payment month (in exact arithmetic: the amount times the
    number of flagged periods).  The period of index [i] is dated by
    [getPaymentDate], and it is flagged from that date and the input alone:
    as lump-sum month when a lump sum is switched on with a date and an
    amount that is a number other than zero and the payment falls in the
    calendar month of that date; as extra-payment month when extra
    payments are switched on with a start date, an end date and an amount
    that is a number other than zero, and the payment date lies between
    the two dates.  The clamp plays no part: on
    the sample loan of 1000 with a lump sum of 5000, and on the sample loan
    of 1000 with an extra payment of 5000, the only period is flagged, its
    principal is clamped to 1000, below the configured amount, and the
    total reported is 5000, above the whole loan. *)
Theorem totals_ignore_the_clamp :
  (forall input fuel res,
     calculateAdvancedMortgage fuel input = Some res ->
     let schedule := AdvancedCalculationResult.schedule res in
     AdvancedCalculationResult.totalLumpSum res ==
       valueOf (AdvancedMortgageInput.lumpSumAmount input) *
       flagged PaymentDetail.isLumpSumMonth schedule /\
     AdvancedCalculationResult.totalExtraPayments res ==
       valueOf (AdvancedMortgageInput.extraPaymentAmount input) *
       flagged PaymentDetail.isExtraPaymentMonth schedule /\
     forall i r, nth_error schedule i = Some r ->
       PaymentDetail.date r =
         getPaymentDate (AdvancedMortgageInput.loanStartDate input) (Z.of_nat i)
           (AdvancedMortgageInput.emiPaymentDate input) /\
       (PaymentDetail.isLumpSumMonth r = true <->
        AdvancedMortgageInput.hasLumpSum input = true /\
        exists d a,
          AdvancedMortgageInput.lumpSumDate input = Some d /\
          AdvancedMortgageInput.lumpSumAmount input = Some a /\
          ~ a == 0 /\ isSameMonth (PaymentDetail.date r) d = true) /\
       (PaymentDetail.isExtraPaymentMonth r = true <->
        AdvancedMortgageInput.hasExtraPayments input = true /\
        exists s e a,
          AdvancedMortgageInput.extraPaymentStartDate input = Some s /\
          AdvancedMortgageInput.extraPaymentEndDate input = Some e /\
          AdvancedMortgageInput.extraPaymentAmount input = Some a /\
          ~ a == 0 /\ (s <= PaymentDetail.date r <= e)%Z)) /\
  (exists res r,
     calculateAdvancedMortgage 4 (shortLoan true) = Some res /\
     AdvancedCalculationResult.schedule res = [r] /\
     PaymentDetail.isLumpSumMonth r = true /\
     PaymentDetail.principalPayment r == 1000 /\
     PaymentDetail.principalPayment r <
       valueOf (AdvancedMortgageInput.lumpSumAmount (shortLoan true)) /\
     AdvancedCalculationResult.totalLumpSum res == 5000 /\
     AdvancedMortgageInput.loanAmount (shortLoan true) <
       AdvancedCalculationResult.totalLumpSum res) /\
  (exists res r,
     calculateAdvancedMortgage 4 toppedUpLoan = Some res /\
     AdvancedCalculationResult.schedule res = [r] /\
     PaymentDetail.isExtraPaymentMonth r = true /\
     PaymentDetail.principalPayment r == 1000 /\
     PaymentDetail.principalPayment r <
       valueOf (AdvancedMortgageInput.extraPaymentAmount toppedUpLoan) /\
     AdvancedCalculationResult.totalExtraPayments res == 5000 /\
     AdvancedMortgageInput.loanAmount toppedUpLoan <
       AdvancedCalculationResult.totalExtraPayments res).
Proof.
  split; [|split].
  - intros input fuel res Hres schedule. apply advanced_Some in Hres as (-> & _).
    subst schedule. simpl.
    destruct (adv_run_invariant input fuel) as (_ & _ & _ & _ & _ & Hrec & Hl & He).
    split; [exact Hl|]. split; [exact He|].
    intros i r Hi. destruct (Hrec i r Hi) as (Hd & _ & _ & Hx & Hls & _).
    split; [exact Hd|]. rewrite Hls, Hx, Hd.
    split; [apply inLumpSumMonth_spec | apply inExtraWindow_spec].
  - do 2 eexists.
    split; [vm_compute; reflexivity|].
    split; [vm_compute; reflexivity|].
    repeat split; vm_compute; reflexivity.
  - do 2 eexists.
    split; [vm_compute; reflexivity|].
    split; [vm_compute; reflexivity|].
    repeat split; vm_compute; reflexivity.
Qed.

Lemma totals_ignore_the_clamp_witness :
  exists res,
    calculateAdvancedMortgage 4 toppedUpLoan = Some res /\
    AdvancedCalculationResult.totalExtraPayments res ==
      valueOf (AdvancedMortgageInput.extraPaymentAmount toppedUpLoan) *
      flagged PaymentDetail.isExtraPaymentMonth (AdvancedCalculationResult.schedule res).
Proof.
  eexists. split; [vm_compute; reflexivity|].
  refine (proj1 (proj2 (proj1 totals_ignore_the_clamp toppedUpLoan 4%nat _ _))).
  vm_compute. reflexivity.
Defined.

(** ** How long the date-aware engine keeps paying *)

Section AdvLower.
Import AdvancedMortgageInput.
Variable input : AdvancedMortgageInput.t.
Hypothesis Hrate : forall d, 0 <= rateOn input d.
Hypothesis Hextra : 0 <= valueOf (extraPaymentAmount input).
Hypothesis Hlump : 0 <= valueOf (lumpSumAmount input).
Hypothesis Hemi : 0 <= advEMI input.

Local Abbreviation most :=
  (advEMI input + valueOf (extraPaymentAmount input) + valueOf (lumpSumAmount input)).

(** A period reduces the balance by at most the installment plus the extra
    payment plus the lump sum. *)
Lemma adv_body_lower st :
  0 < as_balance st ->
  as_balance st - most <= as_balance (adv_body input (advEMI input) st).
Proof.
  intros Hpos.
  destruct (adv_body_spec input (advEMI input) st)
    as (r & _ & (_ & _ & Hr & _ & _ & Hint & Hpay) & _ & -> & _).
  assert (Hi : 0 <= PaymentDetail.interestPayment r).
  { rewrite Hint, Hr. apply Qmult_le_0_compat; [lra|].
    unfold getMonthlyRate, Qdiv.
    apply Qmult_le_0_compat; [apply Qmult_le_0_compat|]; [apply Hrate| |]; discriminate. }
  destruct (PaymentDetail.isExtraPaymentMonth r), (PaymentDetail.isLumpSumMonth r);
    cbv beta iota zeta in Hpay;
    destruct Hpay as [(H1 & H2 & _)|(H1 & H2 & _)]; rewrite H2; lra.
Qed.

Lemma adv_balance_lower k :
  (Z.of_nat k < tenureMonths input * 2)%Z ->
  inject_Z (Z.of_nat k) * most < loanAmount input ->
  adv_cond input (adv_run input k) = true /\
  loanAmount input - inject_Z (Z.of_nat k) * most <= as_balance (adv_run input k).
Proof.
  induction k as [|k IH]; intros Hk Hm.
  - change (inject_Z (Z.of_nat 0)) with 0 in Hm |- *. split.
    + apply adv_cond_true. simpl. repeat split; [lra | lia].
    + simpl. lra.
  - rewrite Nat2Z.inj_succ in Hm |- *. unfold Z.succ in Hm |- *.
    rewrite inject_Z_plus in Hm |- *. change (inject_Z 1) with 1 in Hm |- *.
    destruct IH as (Hrun & Hb); [lia | nra |].
    pose proof (adv_length_running input k Hrun) as Hl.
    destruct (adv_run_invariant input (S k)) as (_ & Hbr & _).
    destruct (adv_run_invariant input k) as (Hmon & _).
    unfold adv_run in *. rewrite unroll_succ in Hbr |- *. rewrite Hrun in Hbr |- *.
    set (st := unroll _ _ k _) in *.
    apply adv_cond_true in Hrun as (_ & Hpos & _).
    pose proof (adv_body_lower st Hpos) as Hlow.
    split; [|lra].
    apply adv_cond_true. split; [exact Hbr|]. split; [lra|].
    destruct (adv_body_spec input (advEMI input) st) as (r & _ & _ & _ & _ & -> & _).
    rewrite Hmon, Hl. lia.
Qed.
End AdvLower.

(** ** Counting flagged periods by their dates *)

Lemma filter_none {A} (f : A -> bool) l :
  (forall x, In x l -> f x = false) -> filter f l = [].
Proof.
  induction l as [|a l IH]; intros H; [reflexivity|].
  simpl. rewrite (H a (or_introl eq_refl)). apply IH. intros x Hx. apply H. now right.
Qed.

Lemma flags_by_index {A} (flag : A -> bool) (f : nat -> bool) schedule :
  forall off,
    (forall i r, nth_error schedule i = Some r -> flag r = f (off + i)%nat) ->
    length (filter flag schedule) = length (filter f (seq off (length schedule))).
Proof.
  induction schedule as [|a l IH]; intros off H; [reflexivity|].
  simpl. rewrite (H O a eq_refl), Nat.add_0_r.
  assert (Hl : length (filter flag l) = length (filter f (seq (S off) (length l)))).
  { apply IH. intros i r Hi. rewrite (H (S i) r Hi). f_equal. lia. }
  destruct (f off); simpl; rewrite Hl; reflexivity.
Qed.

(** ** Payment dates when the loan starts late in a month

    [addMonths] lets the host calendar roll a day that the target month
    does not have into the next month, and [getPaymentDate] takes year and
    month from the rolled date: a month can be skipped and the next one paid
    twice. *)

(** C9: the payment date one month after 31 January 2024 with preferred day
    31 is 31 March 2024, not 29 February 2024: the year and month are not
    those of the start date advanced by one month, and the day is not
    clamped to the last day of February. *)
Theorem payment_date_skips_february :
  let start := newDate 2024 0 31 in
  let d := getPaymentDate start 1 31 in
  (getFullYear start, getMonth start, getDate start) = (2024, 0, 31)%Z /\
  (getFullYear d, getMonth d, getDate d) = (2024, 2, 31)%Z /\
  d <> newDate 2024 1 29.
Proof. vm_compute. repeat split; discriminate. Qed.

Lemma marchLoan_keeps_paying :
  adv_cond marchLoan (adv_run marchLoan 14) = true.
Proof.
  apply adv_balance_lower.
  - intros d. unfold rateOn. simpl. discriminate.
  - simpl. apply Qle_refl.
  - simpl. discriminate.
  - apply Qle_bool_iff. vm_compute. reflexivity.
  - simpl. lia.
  - apply Qltb_lt. vm_compute. reflexivity.
Qed.

Lemma marchLoan_lump_months schedule :
  (forall i r, nth_error schedule i = Some r ->
     PaymentDetail.isLumpSumMonth r =
     inLumpSumMonth marchLoan (getPaymentDate (newDate 2024 2 31) (Z.of_nat i) 31)) ->
  (14 <= length schedule <= 720)%nat ->
  length (filter PaymentDetail.isLumpSumMonth schedule) = 2%nat.
Proof.
  intros Hflag Hlen.
  set (f := fun i : nat =>
              inLumpSumMonth marchLoan (getPaymentDate (newDate 2024 2 31) (Z.of_nat i) 31)).
  rewrite (flags_by_index _ f schedule O) by (intros i r Hi; apply Hflag, Hi).
  replace (length schedule) with (14 + (length schedule - 14))%nat by lia.
  rewrite seq_app, filter_app, length_app.
  assert (Hlate : forallb (fun i => negb (f i)) (seq 14 706) = true)
    by (vm_compute; reflexivity).
  rewrite forallb_forall in Hlate.
  rewrite (filter_none f (seq (0 + 14) _)).
  - vm_compute. reflexivity.
  - intros x Hx. apply in_seq in Hx. apply negb_true_iff, Hlate, in_seq. lia.
Qed.

Lemma adv_result_schedule input emi st :
  AdvancedCalculationResult.schedule (adv_result input emi st) = as_schedule st.
Proof. reflexivity. Qed.

Lemma adv_result_totalLumpSum input emi st :
  AdvancedCalculationResult.totalLumpSum (adv_result input emi st) = as_totalLumpSum st.
Proof. reflexivity. Qed.

(** C8: for the loan of 300000 over 360 months that starts on 31 March 2024
    and is paid on the 31st, the 12th and the 13th payment are both dated
    31 March 2025; a lump sum of 10000 dated 15 March 2025, the month of the
    13th payment, is flagged on two records and [totalLumpSum] is 20000. *)
Theorem lump_sum_counted_twice :
  isSameMonth (getPaymentDate (newDate 2024 2 31) 12 31) (newDate 2025 2 15) = true /\
  getPaymentDate (newDate 2024 2 31) 11 31 = getPaymentDate (newDate 2024 2 31) 12 31 /\
  exists res,
    (forall fuel, (720 <= fuel)%nat ->
       calculateAdvancedMortgage fuel marchLoan = Some res) /\
    length (filter PaymentDetail.isLumpSumMonth
              (AdvancedCalculationResult.schedule res)) = 2%nat /\
    AdvancedCalculationResult.totalLumpSum res == 20000.
Proof.
  split; [vm_compute; reflexivity|]. split; [vm_compute; reflexivity|].
  destruct (advanced_engine_terminates marchLoan) as (res & Hres & _).
  assert (Hcap : Z.to_nat (AdvancedMortgageInput.tenureMonths marchLoan * 2) = 720%nat)
    by reflexivity.
  cbv zeta in Hres. rewrite Hcap in Hres. clear Hcap.
  exists res. split; [exact Hres|].
  pose proof (Hres 720%nat (le_n _)) as H. apply advanced_Some in H as (-> & _).
  rewrite adv_result_schedule, adv_result_totalLumpSum.
  destruct (adv_run_invariant marchLoan 720) as (_ & _ & _ & _ & _ & Hrec & Hl & _).
  assert (Hcount : length (filter PaymentDetail.isLumpSumMonth
                             (as_schedule (adv_run marchLoan 720))) = 2%nat).
  { apply marchLoan_lump_months.
    - intros i r Hi. destruct (Hrec i r Hi) as (_ & _ & _ & _ & Hls & _). exact Hls.
    - pose proof (adv_length_le marchLoan 720).
      pose proof (adv_length_running marchLoan 14 marchLoan_keeps_paying) as H14.
      pose proof (adv_length_mono marchLoan 14 720 ltac:(lia)). lia. }
  split; [exact Hcount|].
  rewrite Hl. unfold flagged. rewrite Hcount. reflexivity.
Qed.

(** ** Payment dates when the loan starts on the 28th or earlier

    When the day of the start date exists in every month, nothing rolls
    over: the payment of month offset [k] falls in the [k]-th month after
    the start, on the preferred day clamped to the length of that month. *)

Local Open Scope Z_scope.

Lemma newDate_fields y m d :
  100 <= y -> 0 <= m < 12 -> 1 <= d <= DaysInMonth y m ->
  getFullYear (newDate y m d) = y /\ getMonth (newDate y m d) = m /\
  getDate (newDate y m d) = d.
Proof.
  intros Hy Hm Hd. unfold newDate, getFullYear, getMonth, getDate. cbv zeta.
  replace ((0 <=? y) && (y <=? 99))%bool with false
    by (symmetry; apply andb_false_iff; right; apply Z.leb_gt; lia).
  destruct (fields_of_MakeDate y m d 0 Hm Hd ltac:(unfold msPerDay; lia)) as (H1 & H2 & H3 & _).
  auto.
Qed.

Lemma payment_date_regular start k p :
  getDate start <= 28 -> 0 <= k -> 1 <= p -> 100 <= getFullYear start ->
  let Y := getFullYear start + (getMonth start + k) / 12 in
  let M := (getMonth start + k) mod 12 in
  let d := getPaymentDate start k p in
  getFullYear d = Y /\ getMonth d = M /\ getDate d = Z.min p (DaysInMonth Y M).
Proof.
  intros Hd Hk Hp Hy Y M.
  destruct (fields_in_range start) as (Hm0 & Hd0 & _).
  fold (getMonth start) in Hm0. fold (getDate start) in Hd0.
  pose proof (Z.mod_pos_bound (getMonth start + k) 12 ltac:(lia)) as HM. fold M in HM.
  assert (HY : 100 <= Y) by (subst Y; zdiv).
  pose proof (DaysInMonth_range Y M) as Hdim.
  unfold getPaymentDate, addMonths, setMonth. cbv zeta.
  fold (getFullYear start). fold (getMonth start). fold (getDate start).
  rewrite MakeDay_months by assumption. fold Y. fold M.
  destruct (fields_of_MakeDate Y M (getDate start) (TimeWithinDay start) HM
              ltac:(lia) (TimeWithinDay_range start)) as (H1 & H2 & _).
  set (date := MakeDate (MakeDay Y M (getDate start)) (TimeWithinDay start)) in *.
  assert (HFY : getFullYear date = Y) by exact H1.
  assert (HFM : getMonth date = M) by exact H2.
  rewrite !HFY, !HFM.
  assert (Hlast : getDate (newDate Y (M + 1) 0) = DaysInMonth Y M).
  { unfold newDate. cbv zeta.
    replace ((0 <=? Y) && (Y <=? 99))%bool with false
      by (symmetry; apply andb_false_iff; right; apply Z.leb_gt; lia).
    rewrite MakeDay_last by assumption.
    destruct (fields_of_MakeDate Y M (DaysInMonth Y M) 0 HM ltac:(lia)
                ltac:(unfold msPerDay; lia)) as (_ & _ & H3 & _).
    exact H3. }
  rewrite Hlast. apply newDate_fields; lia.
Qed.

Local Open Scope Q_scope.

Lemma filter_single (f : nat -> bool) (j n : nat) :
  (forall i, f i = true <-> i = j) -> (j < n)%nat ->
  length (filter f (seq 0 n)) = 1%nat.
Proof.
  intros Hf Hj.
  replace n with (j + S (n - j - 1))%nat by lia.
  rewrite seq_app, filter_app, length_app. simpl.
  assert (Hj' : f j = true) by (apply Hf; reflexivity). rewrite Hj'.
  rewrite !filter_none; [reflexivity | |].
  - intros x Hx. apply in_seq in Hx. apply not_true_is_false. rewrite Hf. lia.
  - intros x Hx. apply in_seq in Hx. apply not_true_is_false. rewrite Hf. lia.
Qed.

Local Open Scope Z_scope.

(** From a start on the 28th or earlier, different payments fall in
    different months. *)
Lemma isSameMonth_regular start p i j :
  getDate start <= 28 -> 100 <= getFullYear start -> 1 <= p -> 0 <= i -> 0 <= j ->
  isSameMonth (getPaymentDate start i p) (getPaymentDate start j p) = true <-> i = j.
Proof.
  intros Hday Hyear Hp Hi Hj.
  destruct (payment_date_regular start i p Hday Hi Hp Hyear) as (Hy & Hm & _).
  destruct (payment_date_regular start j p Hday Hj Hp Hyear) as (Hy' & Hm' & _).
  unfold isSameMonth. rewrite Hy, Hm, Hy', Hm'.
  rewrite andb_true_iff, !Z.eqb_eq.
  pose proof (fields_in_range start) as (Hm0 & _).
  unfold getMonth. clear - Hm0 Hi Hj.
  split; [intros (A & B)|intros ->; split; reflexivity]; zdiv.
Qed.

Lemma isSameMonth_as a b c :
  isSameMonth a c = true -> isSameMonth b c = isSameMonth b a.
Proof.
  unfold isSameMonth. intros H. apply andb_true_iff in H as (E1 & E2).
  apply Z.eqb_eq in E1, E2. rewrite E1, E2. reflexivity.
Qed.

Local Open Scope Q_scope.

(** When the loan starts on the 28th or earlier (so that nothing rolls
    over), a lump sum dated in the month of a payment that the schedule
    reaches (the 13th payment is the one of index 12) is flagged on exactly
    one record and counted once. *)
Lemma lump_sum_counted_once input fuel res lumpDate (j : nat) :
  calculateAdvancedMortgage fuel input = Some res ->
  (getDate (AdvancedMortgageInput.loanStartDate input) <= 28)%Z ->
  (100 <= getFullYear (AdvancedMortgageInput.loanStartDate input))%Z ->
  (1 <= AdvancedMortgageInput.emiPaymentDate input)%Z ->
  AdvancedMortgageInput.hasLumpSum input = true ->
  AdvancedMortgageInput.lumpSumDate input = Some lumpDate ->
  truthy (AdvancedMortgageInput.lumpSumAmount input) = true ->
  isSameMonth
    (getPaymentDate (AdvancedMortgageInput.loanStartDate input) (Z.of_nat j)
       (AdvancedMortgageInput.emiPaymentDate input)) lumpDate = true ->
  (j < length (AdvancedCalculationResult.schedule res))%nat ->
  length (filter PaymentDetail.isLumpSumMonth
            (AdvancedCalculationResult.schedule res)) = 1%nat /\
  AdvancedCalculationResult.totalLumpSum res ==
    valueOf (AdvancedMortgageInput.lumpSumAmount input).
Proof.
  intros Hres Hday Hyear Hp Hhas Hdate Hamt Hsame Hlen.
  apply advanced_Some in Hres as (-> & _).
  rewrite adv_result_schedule in Hlen |- *. rewrite adv_result_totalLumpSum.
  destruct (adv_run_invariant input fuel) as (_ & _ & _ & _ & _ & Hrec & Hl & _).
  set (f := fun i : nat =>
              inLumpSumMonth input
                (getPaymentDate (AdvancedMortgageInput.loanStartDate input) (Z.of_nat i)
                   (AdvancedMortgageInput.emiPaymentDate input))).
  assert (Hf : forall i, f i = true <-> i = j).
  { intros i. unfold f, inLumpSumMonth. rewrite Hhas, Hdate, Hamt.
    cbn [sameMonthAs andb isSome].
    rewrite (isSameMonth_as _ _ _ Hsame).
    rewrite isSameMonth_regular by (assumption || lia). lia. }
  assert (Hcount : length (filter PaymentDetail.isLumpSumMonth
                             (as_schedule (adv_run input fuel))) = 1%nat).
  { rewrite (flags_by_index _ f _ O).
    - apply (filter_single f j); [exact Hf | exact Hlen].
    - intros i r Hi. destruct (Hrec i r Hi) as (_ & _ & _ & _ & Hls & _). exact Hls. }
  split; [exact Hcount|].
  rewrite Hl. unfold flagged. rewrite Hcount. change (inject_Z (Z.of_nat 1)) with 1. ring.
Qed.

(** ** Payment dates and date bounds *)

Local Open Scope Z_scope.

(** A payment date is a local midnight, so it is on or before a time value
    exactly when its day is on or before the day of that time value. *)
Lemma payment_on_or_before start k p bound :
  getPaymentDate start k p <= bound <-> Day (getPaymentDate start k p) <= Day bound.
Proof.
  unfold getPaymentDate, newDate. cbv zeta.
  set (D := MakeDay _ _ _). unfold MakeDate, Day, msPerDay.
  rewrite Z.add_0_r, Z.div_mul by lia. split; intros H; zdiv.
Qed.

(** From 15 January 2024, the payment three months later with preferred
    day 31 is 30 April 2024. *)
Example payment_date_clamped :
  getPaymentDate (newDate 2024 0 15) 3 31 = newDate 2024 3 30.
Proof. vm_compute. reflexivity. Qed.

Local Open Scope Q_scope.

(** * Further properties of the date helpers *)

Local Open Scope Z_scope.

(** X1: for a start date on the 28th or earlier in the year 100 or later, a
    month offset [k >= 0] and a preferred day [p >= 1], [getPaymentDate]
    returns a date in the [k]-th month after the start, on the preferred day
    clamped to the length of that month. *)
Theorem payment_date_in_target_month (startDate : Date) (k p : Z) :
  getDate startDate <= 28 -> 100 <= getFullYear startDate -> 0 <= k -> 1 <= p ->
  let Y := getFullYear startDate + (getMonth startDate + k) / 12 in
  let M := (getMonth startDate + k) mod 12 in
  getFullYear (getPaymentDate startDate k p) = Y /\
  getMonth (getPaymentDate startDate k p) = M /\
  getDate (getPaymentDate startDate k p) = Z.min p (DaysInMonth Y M).
Proof.
  intros Hd Hy Hk Hp. exact (payment_date_regular startDate k p Hd Hk Hp Hy).
Qed.

Lemma payment_date_in_target_month_witness :
  getFullYear (getPaymentDate (newDate 2024 0 15) 3 31) = 2024 /\
  getMonth (getPaymentDate (newDate 2024 0 15) 3 31) = 3 /\
  getDate (getPaymentDate (newDate 2024 0 15) 3 31) = 30.
Proof.
  apply (payment_date_in_target_month (newDate 2024 0 15) 3 31);
    try (apply Z.leb_le; vm_compute; reflexivity).
Defined.

(** X2: from a start date on the 28th or earlier, two payments fall in the
    same calendar month only if they are the same payment: no month is
    skipped or paid twice. *)
Theorem payments_in_distinct_months (startDate : Date) (p i j : Z) :
  getDate startDate <= 28 -> 100 <= getFullYear startDate -> 1 <= p ->
  0 <= i -> 0 <= j ->
  (isSameMonth (getPaymentDate startDate i p) (getPaymentDate startDate j p) = true
   <-> i = j).
Proof.
  intros Hd Hy Hp Hi Hj. exact (isSameMonth_regular startDate p i j Hd Hy Hp Hi Hj).
Qed.

Lemma payments_in_distinct_months_witness :
  isSameMonth (getPaymentDate (newDate 2024 0 28) 1 31)
              (getPaymentDate (newDate 2024 0 28) 2 31) = true <-> 1 = 2.
Proof.
  apply (payments_in_distinct_months (newDate 2024 0 28) 31 1 2);
    try (apply Z.leb_le; vm_compute; reflexivity).
Defined.

(** [addMonths] on a day that exists in the target month. *)
Lemma addMonths_fields date k :
  getDate date <= 28 ->
  let y := getFullYear date + (getMonth date + k) / 12 in
  let m := (getMonth date + k) mod 12 in
  addMonths date k = MakeDate (MakeDay y m (getDate date)) (TimeWithinDay date) /\
  getFullYear (addMonths date k) = y /\
  getMonth (addMonths date k) = m /\
  getDate (addMonths date k) = getDate date /\
  TimeWithinDay (addMonths date k) = TimeWithinDay date.
Proof.
  intros Hd y m.
  destruct (fields_in_range date) as (Hm0 & Hd0 & _).
  change (MonthFromTime date) with (getMonth date) in Hm0.
  change (DateFromTime date) with (getDate date) in Hd0.
  pose proof (Z.mod_pos_bound (getMonth date + k) 12 ltac:(lia)) as Hm. fold m in Hm.
  pose proof (DaysInMonth_range y m) as Hdim.
  assert (E : addMonths date k =
              MakeDate (MakeDay y m (getDate date)) (TimeWithinDay date)).
  { unfold addMonths, setMonth. cbv zeta.
    change (YearFromTime date) with (getFullYear date).
    change (DateFromTime date) with (getDate date).
    rewrite MakeDay_months by assumption. reflexivity. }
  split; [exact E|]. rewrite E.
  exact (fields_of_MakeDate y m (getDate date) (TimeWithinDay date) Hm
           ltac:(lia) (TimeWithinDay_range date)).
Qed.

(** X3: on a date whose day is the 28th or earlier, [addMonths] keeps the
    day of the month and the time of day, and adding [a] months and then
    [b] months is adding [a + b] months. *)
Theorem addMonths_compose (date : Date) (a b : Z) :
  getDate date <= 28 ->
  getDate (addMonths date a) = getDate date /\
  TimeWithinDay (addMonths date a) = TimeWithinDay date /\
  addMonths (addMonths date a) b = addMonths date (a + b).
Proof.
  intros Hd.
  destruct (addMonths_fields date a Hd) as (_ & Hy & Hm & Hday & Ht).
  destruct (addMonths_fields date (a + b) Hd) as (E & _).
  destruct (addMonths_fields (addMonths date a) b ltac:(lia)) as (E' & _).
  cbv zeta in *. split; [exact Hday|]. split; [exact Ht|].
  rewrite E, E', Hy, Hm, Hday, Ht.
  destruct (fields_in_range date) as (Hm0 & _).
  change (MonthFromTime date) with (getMonth date) in Hm0.
  f_equal. f_equal; clear - Hm0; zdiv.
Qed.

Lemma addMonths_compose_witness :
  getDate (addMonths (newDate 2024 0 28) 1) = getDate (newDate 2024 0 28) /\
  TimeWithinDay (addMonths (newDate 2024 0 28) 1) = TimeWithinDay (newDate 2024 0 28) /\
  addMonths (addMonths (newDate 2024 0 28) 1) 13 = addMonths (newDate 2024 0 28) (1 + 13).
Proof.
  apply (addMonths_compose (newDate 2024 0 28) 1 13).
  apply Z.leb_le. vm_compute. reflexivity.
Defined.

(** X4: a payment date is a local midnight: it is on or before a time value
    exactly when its calendar day is on or before the day of that time
    value, whatever the time of day of the bound. *)
Theorem payment_date_compares_by_day (startDate : Date) (k p : Z) (bound : Date) :
  TimeWithinDay (getPaymentDate startDate k p) = 0 /\
  (getPaymentDate startDate k p <= bound <->
   Day (getPaymentDate startDate k p) <= Day bound).
Proof.
  split; [|apply payment_on_or_before].
  unfold getPaymentDate, newDate. cbv zeta.
  set (D := MakeDay _ _ _). unfold MakeDate, TimeWithinDay, msPerDay.
  rewrite Z.add_0_r. apply Z.mod_mul. lia.
Qed.

Local Open Scope Q_scope.

(** * Further properties of the schedules *)

Lemma sumBy_app {R : Type} (f : R -> Q) (schedule : list R) (r : R) :
  sumBy f (schedule ++ [r]) = sumBy f schedule + f r.
Proof. unfold sumBy. rewrite fold_left_app. reflexivity. Qed.

Lemma sumInterest_sumBy schedule :
  sumInterest schedule = sumBy PaymentRecord.interest schedule.
Proof. reflexivity. Qed.

Section GenRecords.
Variables monthlyEMI monthlyRate monthlyOverpayment : Q.
Variable tenureMonths : Z.
Variable principal : Q.

Local Abbreviation body := (gen_body monthlyEMI monthlyRate monthlyOverpayment).
Local Abbreviation cond := (gen_cond tenureMonths).
Local Abbreviation state k := (unroll cond body k (gen_init principal)).

(** The record that one iteration appends. *)
Lemma gen_body_record st :
  exists r,
    gs_schedule (body st) = gs_schedule st ++ [r] /\
    PaymentRecord.month r = (gs_month st + 1)%Z /\
    PaymentRecord.year r = gs_year st /\
    PaymentRecord.payment r = PaymentRecord.interest r + PaymentRecord.principal r /\
    PaymentRecord.interest r = gs_balance st * monthlyRate /\
    gs_balance (body st) = gs_balance st - PaymentRecord.principal r.
Proof.
  unfold gen_body. cbv zeta.
  destruct (_ =? 12)%Z; eexists; repeat split; reflexivity.
Qed.

(** What every record says about its period, and what the records add up
    to. *)
Lemma gen_records k :
  let schedule := gs_schedule (state k) in
  (forall i r, nth_error schedule i = Some r ->
     PaymentRecord.month r = (Z.of_nat i mod 12 + 1)%Z /\
     PaymentRecord.year r = (Z.of_nat i / 12)%Z /\
     PaymentRecord.payment r = PaymentRecord.interest r + PaymentRecord.principal r /\
     PaymentRecord.interest r ==
       enteringBalance PaymentRecord.balance principal schedule i * monthlyRate) /\
  sumBy PaymentRecord.principal schedule == principal - gs_balance (state k).
Proof.
  induction k as [|k IH]; cbv zeta in *.
  - split; [intros [|i] r; discriminate|]. simpl. unfold sumBy. simpl. ring.
  - rewrite unroll_succ. destruct (cond (state k)) eqn:Hrun; [|exact IH].
    destruct IH as (Hrec & Hsum).
    pose proof (gen_counters monthlyEMI monthlyRate monthlyOverpayment tenureMonths
                  principal k) as (Hm & Hy & _). cbv zeta in Hm, Hy.
    pose proof (gen_ledger monthlyEMI monthlyRate monthlyOverpayment tenureMonths
                  principal k) as (_ & Hb). cbv zeta in Hb.
    destruct (gen_body_record (state k)) as (r & Hs & Rm & Ry & Rp & Ri & Rb).
    rewrite Hs. split.
    + intros i r' Hi.
      destruct (Nat.lt_ge_cases i (length (gs_schedule (state k)))) as [Hlt|Hge].
      * rewrite nth_error_app1 in Hi by assumption.
        rewrite enteringBalance_app by lia. auto.
      * assert (i = length (gs_schedule (state k))) as ->.
        { assert (i < length (gs_schedule (state k) ++ [r]))%nat as Hlt
            by (apply nth_error_Some; congruence).
          rewrite length_app in Hlt. simpl in Hlt. lia. }
        rewrite nth_error_app2, Nat.sub_diag in Hi by lia. injection Hi as <-.
        rewrite enteringBalance_app by lia.
        rewrite Rm, Ry, Hm, Hy. repeat split; try assumption.
        rewrite Ri. fold (closingBalance PaymentRecord.balance principal
                            (gs_schedule (state k))).
        rewrite Hb. reflexivity.
    + rewrite sumBy_app, Hsum, Rb. ring.
Qed.
End GenRecords.

(** X5: in every schedule of the standard generator, after any number of
    iterations, the record of index [i] (from 0) carries month
    [i mod 12 + 1] and year [i / 12], its payment is its interest plus its
    principal, and its interest is the balance the period starts from times
    the monthly rate. *)
Theorem standard_schedule_records (P r : Q) (n : Z) (o : Q) (k i : nat)
    (rec : PaymentRecord.t) :
  let schedule := gs_schedule (gen_run P r n o k) in
  nth_error schedule i = Some rec ->
  PaymentRecord.month rec = (Z.of_nat i mod 12 + 1)%Z /\
  PaymentRecord.year rec = (Z.of_nat i / 12)%Z /\
  PaymentRecord.payment rec = PaymentRecord.interest rec + PaymentRecord.principal rec /\
  PaymentRecord.interest rec ==
    enteringBalance PaymentRecord.balance P schedule i * (r / 12 / 100).
Proof.
  intros schedule Hi.
  pose proof (gen_records (calculateMonthlyEMI P r n) (r / 12 / 100) o n P k) as (H & _).
  cbv zeta in H. exact (H i rec Hi).
Qed.

Lemma standard_schedule_records_witness :
  exists rec,
    nth_error (gs_schedule (gen_run 1200 12 3 0 3)) 2 = Some rec /\
    PaymentRecord.month rec = 3%Z /\ PaymentRecord.year rec = 0%Z.
Proof.
  eexists. split; [vm_compute; reflexivity|].
  refine (let H := standard_schedule_records 1200 12 3 0 3 2 _ _ in
          conj (proj1 H) (proj1 (proj2 H))).
  vm_compute. reflexivity.
Defined.

(** X6: in exact arithmetic, the principal components of the records
    emitted so far by the standard generator add up to the loan amount less
    the running balance: what is repaid is what the balance went down by. *)
Theorem standard_schedule_principal_total (P r : Q) (n : Z) (o : Q) (k : nat) :
  sumBy PaymentRecord.principal (gs_schedule (gen_run P r n o k)) ==
  P - gs_balance (gen_run P r n o k).
Proof.
  pose proof (gen_records (calculateMonthlyEMI P r n) (r / 12 / 100) o n P k) as (_ & H).
  exact H.
Qed.

(** * Further properties of the date-aware engine *)

Local Open Scope float_scope.

Lemma leb_ltb_false x y : (x <=? y) = true -> (y <? x) = false.
Proof.
  rewrite leb_spec, ltb_spec. unfold SFleb, SFltb.
  rewrite (SFcompare_antisym (Prim2SF x) (Prim2SF y)).
  destruct (SFcompare (Prim2SF x) (Prim2SF y)) as [[]|]; simpl; congruence.
Qed.

Lemma IEEE_adv_body_month input originalEMI st :
  IEEEAdvanced.as_month (IEEEAdvanced.adv_body input originalEMI st) =
  (IEEEAdvanced.as_month st + 1)%Z.
Proof. reflexivity. Qed.

(** The month counter of the binary64 loop is the number of records, one
    per iteration while the loop runs. *)
Lemma IEEE_adv_counts (input : IEEEAdvanced.AdvancedMortgageInput.t)
    (originalEMI : float) (k : nat) :
  let st :=
    unroll (IEEEAdvanced.adv_cond input) (IEEEAdvanced.adv_body input originalEMI) k
      (IEEEAdvanced.adv_init input) in
  IEEEAdvanced.as_month st = Z.of_nat (length (IEEEAdvanced.as_schedule st)) /\
  (length (IEEEAdvanced.as_schedule st) <= k)%nat /\
  (IEEEAdvanced.adv_cond input st = true ->
   length (IEEEAdvanced.as_schedule st) = k).
Proof.
  induction k as [|k IH]; cbv zeta in *.
  - simpl. repeat split; lia.
  - rewrite unroll_succ.
    destruct (IEEEAdvanced.adv_cond input (unroll _ _ k _)) eqn:Hrun.
    + destruct IH as (Hm & _ & Hfull). specialize (Hfull eq_refl).
      destruct (IEEE_adv_body_period input originalEMI
                  (unroll (IEEEAdvanced.adv_cond input)
                     (IEEEAdvanced.adv_body input originalEMI) k
                     (IEEEAdvanced.adv_init input))) as (r & Hs & _).
      rewrite Hs, length_app. cbn [length].
      split; [|split; [lia|intros _; lia]].
      rewrite IEEE_adv_body_month, Hm. lia.
    + destruct IH as (Hm & Hle & _). split; [exact Hm|]. split; [lia|].
      intros H. rewrite Hrun in H. discriminate.
Qed.

(** X7: for a tenure that is a whole number of months (as
    [AdvancedMortgageInput.t] has it), [calculateAdvancedMortgage] returns
    once the fuel reaches twice the tenure, with the same result for any
    larger fuel; its schedule has at most twice the tenure records (none
    when the tenure is not positive), [newTenureMonths] is the length of
    the schedule and [tenureSaved] the tenure less that length.  For any
    tenure, whole or not (the screens pass [years * 12]), in binary64 and
    whatever the installment: when twice the tenure is at most a whole
    number [N >= 0], the loop stops within [N] iterations and emits at most
    [N] records, 82 for a tenure of 40.8 months. *)
Theorem advanced_engine_returns :
  (forall input : AdvancedMortgageInput.t,
   exists res,
     (forall fuel,
        (Z.to_nat (AdvancedMortgageInput.tenureMonths input * 2) <= fuel)%nat ->
        calculateAdvancedMortgage fuel input = Some res) /\
     (Z.of_nat (length (AdvancedCalculationResult.schedule res)) <=
        Z.max 0 (AdvancedMortgageInput.tenureMonths input * 2))%Z /\
     AdvancedCalculationResult.newTenureMonths res =
       Z.of_nat (length (AdvancedCalculationResult.schedule res)) /\
     AdvancedCalculationResult.tenureSaved res =
       (AdvancedMortgageInput.tenureMonths input -
        AdvancedCalculationResult.newTenureMonths res)%Z) /\
  (forall (input : IEEEAdvanced.AdvancedMortgageInput.t) (originalEMI : float) (N : Z),
     (0 <= N)%Z ->
     (IEEEAdvanced.AdvancedMortgageInput.tenureMonths input * 2 <=? IEEE.ofZ N) = true ->
     let st :=
       unroll (IEEEAdvanced.adv_cond input) (IEEEAdvanced.adv_body input originalEMI)
         (Z.to_nat N) (IEEEAdvanced.adv_init input) in
     IEEEAdvanced.adv_cond input st = false /\
     (Z.of_nat (length (IEEEAdvanced.as_schedule st)) <= N)%Z).
Proof.
  split.
  - intros input.
    set (cap := Z.to_nat (AdvancedMortgageInput.tenureMonths input * 2)).
    exists (adv_result input (advEMI input) (adv_run input cap)). split.
    + intros fuel Hf. unfold calculateAdvancedMortgage, adv_run. cbv zeta.
      rewrite (while_stopped _ _ cap _ (adv_stops input) fuel Hf). reflexivity.
    + split; [|split; reflexivity].
      rewrite adv_result_schedule. pose proof (adv_length_le input cap). lia.
  - intros input originalEMI N HN Hcap st.
    destruct (IEEE_adv_counts input originalEMI (Z.to_nat N)) as (Hm & Hle & Hfull).
    fold st in Hm, Hle, Hfull. split; [|lia].
    destruct (IEEEAdvanced.adv_cond input st) eqn:Hrun; [|reflexivity].
    specialize (Hfull eq_refl). rewrite Hfull, Z2Nat.id in Hm by exact HN.
    unfold IEEEAdvanced.adv_cond in Hrun. rewrite Hm in Hrun.
    rewrite (leb_ltb_false _ _ Hcap), !andb_false_r in Hrun. discriminate.
Qed.

Lemma advanced_engine_returns_witness :
  (IEEEAdvanced.adv_cond fractionalLoan
     (unroll (IEEEAdvanced.adv_cond fractionalLoan)
        (IEEEAdvanced.adv_body fractionalLoan 0) (Z.to_nat 82)
        (IEEEAdvanced.adv_init fractionalLoan)) = false /\
   (Z.of_nat
      (length
         (IEEEAdvanced.as_schedule
            (unroll (IEEEAdvanced.adv_cond fractionalLoan)
               (IEEEAdvanced.adv_body fractionalLoan 0) (Z.to_nat 82)
               (IEEEAdvanced.adv_init fractionalLoan)))) <= 82)%Z) /\
  length
    (IEEEAdvanced.as_schedule
       (unroll (IEEEAdvanced.adv_cond fractionalLoan)
          (IEEEAdvanced.adv_body fractionalLoan 0) (Z.to_nat 82)
          (IEEEAdvanced.adv_init fractionalLoan))) = 82%nat.
Proof.
  split.
  - apply (proj2 advanced_engine_returns fractionalLoan 0 82%Z).
    + lia.
    + vm_compute. reflexivity.
  - vm_compute. reflexivity.
Defined.

Local Close Scope float_scope.

Lemma adv_body_totals input originalEMI st :
  exists r,
    as_schedule (adv_body input originalEMI st) = as_schedule st ++ [r] /\
    as_totalInterestPaid (adv_body input originalEMI st) =
      as_totalInterestPaid st + PaymentDetail.interestPayment r /\
    as_balance (adv_body input originalEMI st) =
      as_balance st - PaymentDetail.principalPayment r.
Proof. eexists. repeat split; reflexivity. Qed.

Lemma adv_run_totals input k :
  let st := adv_run input k in
  as_totalInterestPaid st == sumBy PaymentDetail.interestPayment (as_schedule st) /\
  sumBy PaymentDetail.principalPayment (as_schedule st) ==
    AdvancedMortgageInput.loanAmount input - as_balance st.
Proof.
  unfold adv_run. induction k as [|k IH]; cbv zeta in *.
  - simpl. unfold sumBy. simpl. split; ring.
  - rewrite unroll_succ. destruct (adv_cond input _); [|exact IH].
    destruct IH as (Hi & Hp).
    destruct (adv_body_totals input (advEMI input)
                (unroll (adv_cond input) (adv_body input (advEMI input)) k (adv_init input)))
      as (r & -> & -> & ->).
    rewrite !sumBy_app, Hi, Hp. split; ring.
Qed.

(** X8: in exact arithmetic, every record of the date-aware engine carries
    its index plus one as month number, and its total payment is its
    principal plus its interest, with or without extra payment, lump sum or
    clamp. *)
Theorem advanced_records_add_up (input : AdvancedMortgageInput.t) (fuel : nat)
    (res : AdvancedCalculationResult.t) (i : nat) (r : PaymentDetail.t) :
  calculateAdvancedMortgage fuel input = Some res ->
  nth_error (AdvancedCalculationResult.schedule res) i = Some r ->
  PaymentDetail.monthNumber r = (Z.of_nat i + 1)%Z /\
  PaymentDetail.totalPayment r ==
    PaymentDetail.principalPayment r + PaymentDetail.interestPayment r.
Proof.
  intros Hres Hi. apply advanced_Some in Hres as (-> & _).
  rewrite adv_result_schedule in Hi.
  destruct (adv_run_invariant input fuel) as (_ & _ & _ & _ & _ & Hrec & _).
  destruct (Hrec i r Hi) as (_ & Hn & _ & _ & _ & _ & Hpay).
  split; [exact Hn|]. cbv zeta in Hpay.
  destruct Hpay as [(_ & H1 & H2)|(_ & H1 & H2)]; rewrite H1, H2; ring.
Qed.

Lemma advanced_records_add_up_witness :
  exists res r,
    calculateAdvancedMortgage 4 (shortLoan false) = Some res /\
    nth_error (AdvancedCalculationResult.schedule res) 1 = Some r /\
    PaymentDetail.monthNumber r = 2%Z /\
    PaymentDetail.totalPayment r ==
      PaymentDetail.principalPayment r + PaymentDetail.interestPayment r.
Proof.
  do 2 eexists.
  split; [vm_compute; reflexivity|]. split; [vm_compute; reflexivity|].
  refine (advanced_records_add_up (shortLoan false) 4 _ 1 _ _ _);
    vm_compute; reflexivity.
Defined.

(** X9: in exact arithmetic, [newTotalInterest] is the sum of the interest
    components of the schedule, [interestSaved] is [originalTotalInterest]
    less that sum, and the principal components add up to the loan amount
    less the balance left after the last record. *)
Theorem advanced_totals (input : AdvancedMortgageInput.t) (fuel : nat)
    (res : AdvancedCalculationResult.t) :
  calculateAdvancedMortgage fuel input = Some res ->
  let schedule := AdvancedCalculationResult.schedule res in
  AdvancedCalculationResult.newTotalInterest res ==
    sumBy PaymentDetail.interestPayment schedule /\
  AdvancedCalculationResult.interestSaved res ==
    AdvancedCalculationResult.originalTotalInterest res -
    sumBy PaymentDetail.interestPayment schedule /\
  sumBy PaymentDetail.principalPayment schedule ==
    AdvancedMortgageInput.loanAmount input -
    closingBalance PaymentDetail.balance (AdvancedMortgageInput.loanAmount input) schedule.
Proof.
  intros Hres schedule. apply advanced_Some in Hres as (-> & _).
  subst schedule. rewrite adv_result_schedule.
  destruct (adv_run_totals input fuel) as (Hi & Hp). cbv zeta in Hi, Hp.
  destruct (adv_run_invariant input fuel) as (_ & _ & _ & _ & Hb & _).
  split; [exact Hi|]. split.
  - unfold adv_result. cbn [AdvancedCalculationResult.interestSaved
      AdvancedCalculationResult.originalTotalInterest]. rewrite Hi. reflexivity.
  - rewrite Hp, Hb. reflexivity.
Qed.

Lemma advanced_totals_witness :
  exists res,
    calculateAdvancedMortgage 4 (shortLoan true) = Some res /\
    AdvancedCalculationResult.newTotalInterest res ==
      sumBy PaymentDetail.interestPayment (AdvancedCalculationResult.schedule res).
Proof.
  eexists. split; [vm_compute; reflexivity|].
  refine (proj1 (advanced_totals (shortLoan true) 4 _ _)).
  vm_compute. reflexivity.
Defined.

(** X10: when the loan starts on the 28th or earlier (in the year 100 or
    later) with a payment day of at least 1, a lump sum with a non-zero
    amount dated in the month of a payment that the schedule reaches is
    flagged on exactly one record and [totalLumpSum] is the configured
    amount. *)
Theorem lump_sum_flagged_once (input : AdvancedMortgageInput.t) (fuel : nat)
    (res : AdvancedCalculationResult.t) (lumpDate : Date) (j : nat) :
  calculateAdvancedMortgage fuel input = Some res ->
  (getDate (AdvancedMortgageInput.loanStartDate input) <= 28)%Z ->
  (100 <= getFullYear (AdvancedMortgageInput.loanStartDate input))%Z ->
  (1 <= AdvancedMortgageInput.emiPaymentDate input)%Z ->
  AdvancedMortgageInput.hasLumpSum input = true ->
  AdvancedMortgageInput.lumpSumDate input = Some lumpDate ->
  truthy (AdvancedMortgageInput.lumpSumAmount input) = true ->
  isSameMonth
    (getPaymentDate (AdvancedMortgageInput.loanStartDate input) (Z.of_nat j)
       (AdvancedMortgageInput.emiPaymentDate input)) lumpDate = true ->
  (j < length (AdvancedCalculationResult.schedule res))%nat ->
  length (filter PaymentDetail.isLumpSumMonth
            (AdvancedCalculationResult.schedule res)) = 1%nat /\
  AdvancedCalculationResult.totalLumpSum res ==
    valueOf (AdvancedMortgageInput.lumpSumAmount input).
Proof.
  intros. eapply lump_sum_counted_once; eassumption.
Qed.

Lemma lump_sum_flagged_once_witness :
  exists res,
    calculateAdvancedMortgage 4 (shortLoan true) = Some res /\
    length (filter PaymentDetail.isLumpSumMonth
              (AdvancedCalculationResult.schedule res)) = 1%nat /\
    AdvancedCalculationResult.totalLumpSum res == 5000.
Proof.
  eexists. split; [vm_compute; reflexivity|].
  refine (lump_sum_flagged_once (shortLoan true) 4 _ (newDate 2024 0 20) 0
            _ _ _ _ eq_refl eq_refl eq_refl _ _);
    try (vm_compute; reflexivity);
    try (apply Z.leb_le; vm_compute; reflexivity);
    try (apply Nat.ltb_lt; vm_compute; reflexivity).
Defined.

(** * Properties of the display helpers *)

Local Open Scope Z_scope.

(** X11: for a whole number of months that is not negative,
    [monthsToYearsMonths] splits it into years and fewer than 12 remaining
    months that put together give the input back; for a negative number
    that is not a multiple of 12 the two parts are a year apart from it. *)
Theorem monthsToYearsMonths_round_trip (months : Z) :
  let (years, remainingMonths) := monthsToYearsMonths months in
  (0 <= months ->
   years * 12 + remainingMonths = months /\ 0 <= remainingMonths < 12 /\ 0 <= years) /\
  (months < 0 -> months mod 12 <> 0 ->
   years * 12 + remainingMonths = months - 12 /\ -12 < remainingMonths < 0).
Proof.
  unfold monthsToYearsMonths. cbv zeta. split.
  - intros H. zdiv.
  - intros H Hm. zdiv.
Qed.

Lemma monthsToYearsMonths_round_trip_witness :
  (0 <= 25 -> 2 * 12 + 1 = 25 /\ 0 <= 1 < 12 /\ 0 <= 2) /\
  (25 < 0 -> 25 mod 12 <> 0 -> 2 * 12 + 1 = 25 - 12 /\ -12 < 1 < 0).
Proof. exact (monthsToYearsMonths_round_trip 25). Defined.

(** X12: [daysUntilDate] counts a started day as a whole day: the result
    [d] is the least number of days with [toDate <= fromDate + d] days, so
    it is at least 1 as soon as [toDate] is later, and swapping the two
    dates gives the opposite number only when they are whole days apart
    (otherwise the two results add up to 1). *)
Theorem daysUntilDate_rounds_up (fromDate toDate : Date) :
  let d := daysUntilDate fromDate toDate in
  (d - 1) * msPerDay < toDate - fromDate <= d * msPerDay /\
  (fromDate < toDate -> 1 <= d) /\
  ((toDate - fromDate) mod msPerDay = 0 ->
   daysUntilDate toDate fromDate = - d) /\
  ((toDate - fromDate) mod msPerDay <> 0 ->
   daysUntilDate toDate fromDate = 1 - d).
Proof.
  unfold daysUntilDate, ceilDiv, msPerDay. cbv zeta.
  change (1000 * 60 * 60 * 24) with 86400000.
  split; [split; zdiv|]. split; [intros H; zdiv|]. split; intros H; zdiv.
Qed.

Lemma daysUntilDate_rounds_up_witness :
  1 <= daysUntilDate (newDate 2024 0 15) (newDate 2024 0 15 + 1).
Proof.
  apply (proj1 (proj2 (daysUntilDate_rounds_up (newDate 2024 0 15) (newDate 2024 0 15 + 1)))).
  lia.
Defined.

Local Open Scope Q_scope.

(** * Properties of the scenario store *)

Lemma isCurrent_Some id c : isCurrent id (Some c) = true <-> id = c.
Proof. simpl. apply String.eqb_eq. Qed.

Lemma find_first_match {A} (f : A -> bool) (l : list A) (x : A) :
  (forall y, In y l -> f y = false) -> f x = true -> find f (l ++ [x]) = Some x.
Proof.
  intros Hl Hx. induction l as [|a l IH]; simpl.
  - rewrite Hx. reflexivity.
  - rewrite (Hl a (or_introl eq_refl)). apply IH. intros y Hy. apply Hl. now right.
Qed.

Lemma find_app_found {A} (f : A -> bool) (l l' : list A) (x : A) :
  find f l = Some x -> find f (l ++ l') = Some x.
Proof.
  induction l as [|a l IH]; simpl; [discriminate|].
  destruct (f a); auto.
Qed.

(** X13: after a scenario is added, it is the current one when no stored
    scenario had its id; when a stored scenario already has that id, the
    current scenario is that older one, not the one just added (ids are not
    checked on insertion). *)
Theorem added_scenario_is_current (state : MortgageState.t) (s : MortgageScenario.t) :
  let state' := mortgageReducer state (ADD_SCENARIO s) in
  MortgageState.scenarios state' = MortgageState.scenarios state ++ [s] /\
  ((forall s', In s' (MortgageState.scenarios state) ->
      MortgageScenario.id s' <> MortgageScenario.id s) ->
   getCurrentScenario state' = Some s) /\
  (forall old,
     find (fun s' => String.eqb (MortgageScenario.id s') (MortgageScenario.id s))
          (MortgageState.scenarios state) = Some old ->
     getCurrentScenario state' = Some old).
Proof.
  destruct state as [scenarios current currency places theme]. cbv zeta.
  unfold getCurrentScenario. simpl. split; [reflexivity|]. split.
  - intros Hnew. apply find_first_match.
    + intros y Hy. apply String.eqb_neq. apply Hnew, Hy.
    + apply String.eqb_refl.
  - intros old Hold. apply find_app_found. exact Hold.
Qed.

Lemma added_scenario_is_current_witness :
  getCurrentScenario (mortgageReducer sampleStore (ADD_SCENARIO (sampleScenario idB)))
  = Some (sampleScenario idB).
Proof.
  apply (proj1 (proj2 (added_scenario_is_current sampleStore (sampleScenario idB)))).
  intros s' [<-|[]]. discriminate.
Defined.

(** X14: updating a scenario never adds or removes one: the store keeps
    its length and its ids in order, every scenario with the payload's id
    becomes the payload, the others are untouched, and an id that is not
    stored leaves the state as it was. *)
Theorem update_keeps_ids (state : MortgageState.t) (payload : MortgageScenario.t) :
  let state' := mortgageReducer state (UPDATE_SCENARIO payload) in
  map MortgageScenario.id (MortgageState.scenarios state') =
    map MortgageScenario.id (MortgageState.scenarios state) /\
  MortgageState.currentScenarioId state' = MortgageState.currentScenarioId state /\
  (forall i s, nth_error (MortgageState.scenarios state) i = Some s ->
     nth_error (MortgageState.scenarios state') i =
     Some (if String.eqb (MortgageScenario.id s) (MortgageScenario.id payload)
           then payload else s)) /\
  ((forall s, In s (MortgageState.scenarios state) ->
      MortgageScenario.id s <> MortgageScenario.id payload) ->
   state' = state).
Proof.
  destruct state as [scenarios current currency places theme]. cbv zeta. simpl.
  split; [|split; [reflexivity|split]].
  - rewrite map_map. apply map_ext. intros s.
    destruct (String.eqb_spec (MortgageScenario.id s) (MortgageScenario.id payload));
      congruence.
  - intros i s Hi. rewrite nth_error_map, Hi. reflexivity.
  - intros Habsent. f_equal. rewrite <- (map_id scenarios) at 2.
    apply map_ext_in. intros s Hs.
    destruct (String.eqb_spec (MortgageScenario.id s) (MortgageScenario.id payload)) as [E|E];
      [destruct (Habsent s Hs E) | reflexivity].
Qed.

Lemma update_keeps_ids_witness :
  mortgageReducer sampleStore (UPDATE_SCENARIO (sampleScenario idB)) = sampleStore.
Proof.
  apply (proj2 (proj2 (proj2 (update_keeps_ids sampleStore (sampleScenario idB))))).
  intros s [<-|[]]. discriminate.
Defined.

(** X15: deleting an id removes every scenario with that id and keeps the
    others in order; the current id moves only when it was the deleted id,
    to the first scenario left ([null] when none is left or when that
    scenario's id is the empty string); deleting an id that is neither
    stored nor current leaves the state as it was. *)
Theorem delete_removes_id (state : MortgageState.t) (id : String.string) :
  let state' := mortgageReducer state (DELETE_SCENARIO id) in
  (forall s, In s (MortgageState.scenarios state') <->
     In s (MortgageState.scenarios state) /\ MortgageScenario.id s <> id) /\
  (MortgageState.currentScenarioId state = Some id ->
   MortgageState.currentScenarioId state' =
     firstIdOrNull (MortgageState.scenarios state')) /\
  (MortgageState.currentScenarioId state <> Some id ->
   MortgageState.currentScenarioId state' = MortgageState.currentScenarioId state) /\
  ((forall s, In s (MortgageState.scenarios state) -> MortgageScenario.id s <> id) ->
   MortgageState.currentScenarioId state <> Some id ->
   state' = state).
Proof.
  destruct state as [scenarios current currency places theme]. cbv zeta. simpl.
  assert (Hcur : isCurrent id current = true <-> current = Some id).
  { destruct current as [c|]; simpl; [|split; discriminate].
    rewrite String.eqb_eq. split; congruence. }
  split; [|split; [|split]].
  - intros s. rewrite filter_In, negb_true_iff, String.eqb_neq. reflexivity.
  - intros H. apply Hcur in H. rewrite H. reflexivity.
  - intros H. destruct (isCurrent id current) eqn:E; [|reflexivity].
    destruct H. apply Hcur. reflexivity.
  - intros Habsent H. destruct (isCurrent id current) eqn:E.
    + destruct H. apply Hcur. reflexivity.
    + f_equal. induction scenarios as [|a l IH]; [reflexivity|]. simpl.
      destruct (String.eqb_spec (MortgageScenario.id a) id) as [Ea|Ea].
      * destruct (Habsent a (or_introl eq_refl) Ea).
      * simpl. f_equal. apply IH. intros s Hs. apply Habsent. now right.
Qed.

Lemma delete_removes_id_witness :
  mortgageReducer sampleStore (DELETE_SCENARIO idB) = sampleStore.
Proof.
  apply (proj2 (proj2 (proj2 (delete_removes_id sampleStore idB)))).
  - intros s [<-|[]]. discriminate.
  - discriminate.
Defined.

Lemma firstIdOrNull_stored l c :
  firstIdOrNull l = Some c -> exists s, In s l /\ MortgageScenario.id s = c.
Proof.
  destruct l as [|s l]; simpl; [discriminate|].
  destruct (String.eqb _ _); [discriminate|].
  intros [= <-]. exists s. auto.
Qed.

(** X16: adding, updating and deleting scenarios and changing currency,
    decimal places or theme keep the current id either [null] or the id of
    a stored scenario; [SET_CURRENT_SCENARIO] takes any id, and with an id
    that is not stored [getCurrentScenario] finds nothing. *)
Theorem current_id_stays_stored (state : MortgageState.t) (action : MortgageAction) :
  (currentIsStored state -> editsScenarios action = true ->
   currentIsStored (mortgageReducer state action)) /\
  (forall id,
     (forall s, In s (MortgageState.scenarios state) -> MortgageScenario.id s <> id) ->
     getCurrentScenario (mortgageReducer state (SET_CURRENT_SCENARIO (Some id))) = None).
Proof.
  destruct state as [scenarios current currency places theme]. split.
  - unfold currentIsStored. intros Hst Hact.
    destruct action as [p|p|id| | | | |]; try discriminate; simpl in *; try exact Hst.
    + exists p. split; [apply in_or_app; right; left|]; reflexivity.
    + destruct current as [c|]; [|exact I].
      destruct Hst as (s & Hin & Hid).
      exists (if String.eqb (MortgageScenario.id s) (MortgageScenario.id p) then p else s).
      split.
      * apply in_map_iff. exists s. auto.
      * destruct (String.eqb_spec (MortgageScenario.id s) (MortgageScenario.id p));
          congruence.
    + destruct (isCurrent id current) eqn:E.
      * destruct (firstIdOrNull _) as [c|] eqn:F; [|exact I].
        apply firstIdOrNull_stored in F. exact F.
      * destruct current as [c|]; [|exact I].
        destruct Hst as (s & Hin & Hid). exists s. split; [|exact Hid].
        apply filter_In. split; [exact Hin|].
        apply negb_true_iff, String.eqb_neq. intros Es. simpl in E.
        rewrite String.eqb_sym in E. apply String.eqb_neq in E. congruence.
  - intros id Habsent. unfold getCurrentScenario. simpl.
    induction scenarios as [|a l IH]; [reflexivity|]. simpl.
    destruct (String.eqb_spec (MortgageScenario.id a) id) as [E|E].
    + destruct (Habsent a (or_introl eq_refl) E).
    + apply IH. intros s Hs. apply Habsent. now right.
Qed.

Lemma current_id_stays_stored_witness :
  currentIsStored (mortgageReducer sampleStore (DELETE_SCENARIO idA)).
Proof.
  apply (proj1 (current_id_stays_stored sampleStore (DELETE_SCENARIO idA))).
  - exists (sampleScenario idA). split; [left|]; reflexivity.
  - reflexivity.
Defined.

(** * Properties of the yearly view *)

Ltac by12 t :=
  pose proof (Nat.div_mod_eq t 12);
  pose proof (Nat.mod_upper_bound t 12 ltac:(discriminate)).

Section YearlyView.
Local Open Scope nat_scope.

Lemma increasing_unique (l1 l2 : list nat) :
  StronglySorted lt l1 -> StronglySorted lt l2 ->
  (forall x, In x l1 <-> In x l2) -> l1 = l2.
Proof.
  intros S1. revert l2. induction S1 as [|a l1 S1 IH Ha]; intros l2 S2 Hin.
  - destruct l2 as [|b l2]; [reflexivity|]. destruct (proj2 (Hin b) (or_introl eq_refl)).
  - destruct S2 as [|b l2 S2 Hb].
    + destruct (proj1 (Hin a) (or_introl eq_refl)).
    + rewrite Forall_forall in Ha, Hb.
      assert (a = b) as <-.
      { destruct (proj1 (Hin a) (or_introl eq_refl)) as [E|Hal2]; [auto|].
        destruct (proj2 (Hin b) (or_introl eq_refl)) as [E|Hbl1]; [auto|].
        specialize (Ha _ Hbl1). specialize (Hb _ Hal2). lia. }
      f_equal. apply IH; [exact S2|]. intros x. split; intros Hx.
      * destruct (proj1 (Hin x) (or_intror Hx)) as [E|H]; [|exact H].
        specialize (Ha _ Hx). lia.
      * destruct (proj2 (Hin x) (or_intror Hx)) as [E|H]; [|exact H].
        specialize (Hb _ Hx). lia.
Qed.

Lemma seq_increasing a n : StronglySorted lt (seq a n).
Proof.
  revert a. induction n as [|n IH]; intros a; simpl; constructor; [apply IH|].
  apply Forall_forall. intros x Hx. apply in_seq in Hx. lia.
Qed.

Lemma filter_increasing (p : nat -> bool) l :
  StronglySorted lt l -> StronglySorted lt (filter p l).
Proof.
  induction 1 as [|a l S IH Ha]; simpl; [constructor|].
  destruct (p a); [|exact IH]. constructor; [exact IH|].
  rewrite Forall_forall in *. intros x Hx. apply filter_In in Hx. apply Ha, Hx.
Qed.

Lemma map_seq_increasing (f : nat -> nat) a n :
  (forall i j, a <= i -> i < j -> j < a + n -> f i < f j) ->
  StronglySorted lt (map f (seq a n)).
Proof.
  revert a. induction n as [|n IH]; intros a Hf; simpl; constructor.
  - apply IH. intros i j Hi Hij Hj. apply Hf; lia.
  - apply Forall_forall. intros x Hx. apply in_map_iff in Hx.
    destruct Hx as (j & <- & Hj). apply in_seq in Hj. apply Hf; lia.
Qed.

(** Rows picked by position. *)
Lemma filter_by_index (p : nat -> bool) (d : PaymentRecord.t) (l : list PaymentRecord.t) (off : nat) :
  map snd (filter (fun x => p (fst x)) (combine (seq off (length l)) l)) =
  map (fun i => nth (i - off) l d) (filter p (seq off (length l))).
Proof.
  revert off. induction l as [|a l IH]; intros off; [reflexivity|].
  cbn [length seq combine filter fst].
  assert (Htail : map (fun i => nth (i - off) (a :: l) d) (filter p (seq (S off) (length l)))
                  = map (fun i => nth (i - S off) l d) (filter p (seq (S off) (length l)))).
  { apply map_ext_in. intros i Hi. apply filter_In in Hi. destruct Hi as (Hi & _).
    apply in_seq in Hi. replace (i - off) with (S (i - S off)) by lia. reflexivity. }
  destruct (p off); cbn [map snd]; rewrite IH, ?Htail, ?Nat.sub_diag; reflexivity.
Qed.

Lemma combine_seq_nth_error (l : list PaymentRecord.t) (off i : nat) (r : PaymentRecord.t) :
  In (i, r) (combine (seq off (length l)) l) -> nth_error l (i - off) = Some r /\ off <= i.
Proof.
  revert off. induction l as [|a l IH]; intros off; [intros []|].
  cbn [length seq combine]. intros [E|H].
  - injection E as <- <-. rewrite Nat.sub_diag. auto.
  - apply IH in H. destruct H as (H & Hle).
    replace (i - off) with (S (i - S off)) by lia. split; [exact H|lia].
Qed.

Lemma year_ends (L : nat) :
  filter (fun i => (i mod 12 =? 11) || (i =? L - 1)) (seq 0 L) =
  map (yearEnd L) (seq 0 ((L + 11) / 12)).
Proof.
  apply increasing_unique.
  - apply filter_increasing, seq_increasing.
  - apply map_seq_increasing. unfold yearEnd. intros i j _ Hij Hj.
    by12 (L + 11). lia.
  - intros x. rewrite filter_In, in_seq, in_map_iff, orb_true_iff, !Nat.eqb_eq.
    unfold yearEnd. by12 x. by12 (L + 11). split.
    + intros (Hx & Hp). exists (x / 12). rewrite in_seq. lia.
    + intros (j & <- & Hj). apply in_seq in Hj.
      by12 (Nat.min (12 * j + 11) (L - 1)). lia.
Qed.

Lemma yearlyView_layout (d : PaymentRecord.t) (l : list PaymentRecord.t) :
  (forall i r, nth_error l i = Some r -> PaymentRecord.month r = (Z.of_nat i mod 12 + 1)%Z) ->
  yearlyView l = map (fun j => nth (yearEnd (length l) j) l d) (seq 0 ((length l + 11) / 12)).
Proof.
  intros Hlay. unfold yearlyView.
  set (p := fun i => (i mod 12 =? 11) || (i =? length l - 1)).
  rewrite (filter_ext_in _ (fun x => p (fst x))).
  - rewrite (filter_by_index p d l 0). unfold p. rewrite year_ends, map_map.
    apply map_ext. intros j. rewrite Nat.sub_0_r. reflexivity.
  - intros [i r] Hin. unfold p. apply combine_seq_nth_error in Hin. destruct Hin as (Hin & _).
    rewrite Nat.sub_0_r in Hin. cbn [fst]. f_equal.
    rewrite (Hlay i r Hin).
    pose proof (Nat2Z.inj_mod i 12) as Hm. change (Z.of_nat 12) with 12%Z in Hm.
    rewrite <- Hm.
    destruct (Nat.eqb_spec (i mod 12) 11) as [E|E].
    + apply Z.eqb_eq. lia.
    + apply Z.eqb_neq. lia.
Qed.

End YearlyView.

(** X17: the yearly view of a generated schedule of [L] records has one
    row per started year, [ceil(L / 12)] rows; row [j] is the record of
    month 12 of year [j], or the last record when the last year is not
    complete, and carries year [j], so the rows are labelled Year 1, Year 2,
    ... without a gap or a repeat. *)
Theorem yearly_view_rows (P r : Q) (n : Z) (o : Q) (k : nat) :
  let schedule := gs_schedule (gen_run P r n o k) in
  let rows := yearlyView schedule in
  length rows = ((length schedule + 11) / 12)%nat /\
  forall j rec, nth_error rows j = Some rec ->
    nth_error schedule (yearEnd (length schedule) j) = Some rec /\
    PaymentRecord.year rec = Z.of_nat j.
Proof.
  intros schedule rows.
  pose proof (gen_records (calculateMonthlyEMI P r n) (r / 12 / 100) o n P k) as (Hrec & _).
  cbv zeta in Hrec. fold schedule in Hrec.
  set (d := PaymentRecord.mk 0 0 0 0 0 0).
  assert (Hrows : rows = map (fun j => nth (yearEnd (length schedule) j) schedule d)
                             (seq 0 ((length schedule + 11) / 12))).
  { apply yearlyView_layout. intros i rec Hi. apply (Hrec i rec Hi). }
  rewrite Hrows. split; [rewrite length_map, length_seq; reflexivity|].
  intros j rec Hj. rewrite nth_error_map in Hj.
  destruct (nth_error (seq 0 _) j) as [j'|] eqn:Hseq; [|discriminate].
  assert (Hlt : (j < (length schedule + 11) / 12)%nat).
  { assert (Hsome : nth_error (seq 0 ((length schedule + 11) / 12)) j <> None)
      by congruence.
    apply nth_error_Some in Hsome. rewrite length_seq in Hsome. exact Hsome. }
  rewrite nth_error_seq in Hseq.
  destruct (Nat.ltb_spec j ((length schedule + 11) / 12)) as [_|Hge]; [|lia].
  injection Hseq as <-. injection Hj as <-. cbn [Nat.add].
  assert (Hend : (yearEnd (length schedule) j < length schedule)%nat
                 /\ (yearEnd (length schedule) j / 12 = j)%nat).
  { unfold yearEnd. by12 (length schedule + 11)%nat.
    by12 (Nat.min (12 * j + 11) (length schedule - 1)). lia. }
  destruct Hend as (Hin & Hyear).
  pose proof (nth_error_nth' schedule d Hin) as Hnth. split; [exact Hnth|].
  destruct (Hrec _ _ Hnth) as (_ & Hy & _). rewrite Hy.
  pose proof (Nat2Z.inj_div (yearEnd (length schedule) j) 12) as Hd.
  change (Z.of_nat 12) with 12%Z in Hd. rewrite <- Hd, Hyear. reflexivity.
Qed.

Lemma yearly_view_rows_witness :
  exists rec,
    nth_error (yearlyView (gs_schedule (gen_run 1200 12 3 0 3))) 0 = Some rec /\
    nth_error (gs_schedule (gen_run 1200 12 3 0 3)) 2 = Some rec /\
    PaymentRecord.year rec = 0%Z.
Proof.
  eexists. split; [vm_compute; reflexivity|].
  refine (let H := proj2 (yearly_view_rows 1200 12 3 0 3) 0%nat _ _ in
          conj (proj1 H) (proj2 H)).
  vm_compute. reflexivity.
Defined.

(** * Properties of the fixed-rate evaluator *)

Lemma gen_body_appends e rate o : appendsPeriod (gen_body e rate o).
Proof.
  intros st. unfold gen_body. cbv zeta.
  destruct (_ =? 12)%Z; eexists; repeat split; reflexivity.
Qed.

Lemma post_body_appends e rate : appendsPeriod (post_body e rate).
Proof.
  intros st. unfold post_body. cbv zeta.
  destruct (_ =? 12)%Z; eexists; repeat split; reflexivity.
Qed.

Lemma laidOut_init principal : laidOut (gen_init principal).
Proof.
  unfold laidOut. simpl. split; [reflexivity|]. split; [reflexivity|].
  intros [|i] r; discriminate.
Qed.

Lemma laidOut_step body st : appendsPeriod body -> laidOut st -> laidOut (body st).
Proof.
  intros Hbody (Hm & Hy & Hrec).
  destruct (Hbody st) as (r & Hs & Rm & Ry & Rp & Bm & By).
  unfold laidOut. cbv zeta. rewrite Hs, Bm, By, Hm, Hy.
  rewrite length_app. cbn [length]. rewrite Nat.add_1_r, Nat2Z.inj_succ.
  set (p := Z.of_nat (length (gs_schedule st))) in *.
  assert (Hp : (0 <= p)%Z) by (unfold p; lia).
  split; [|split].
  - destruct (Z.eqb_spec (p mod 12 + 1) 12) as [E|E]; clear - Hp E; zdiv.
  - destruct (Z.eqb_spec (p mod 12 + 1) 12) as [E|E]; clear - Hp E; zdiv.
  - intros i r' Hi.
    destruct (Nat.lt_ge_cases i (length (gs_schedule st))) as [Hlt|Hge].
    + rewrite nth_error_app1 in Hi by assumption. auto.
    + assert (i = length (gs_schedule st)) as ->.
      { assert (i < length (gs_schedule st ++ [r]))%nat as Hlt
          by (apply nth_error_Some; congruence).
        rewrite length_app in Hlt. simpl in Hlt. lia. }
      rewrite nth_error_app2, Nat.sub_diag in Hi by lia. injection Hi as <-.
      fold p. rewrite Rm, Ry, Hm, Hy. auto.
Qed.

Section BoundedLoop.
Variable cond : GenState -> bool.
Variable body : GenState -> GenState.
Hypothesis Hbody : appendsPeriod body.

Lemma bounded_loop_laidOut k st : laidOut st -> laidOut (unroll cond body k st).
Proof.
  apply unroll_invariant. intros s Hs _. apply laidOut_step; assumption.
Qed.

(** A loop of at most [k] iterations extends the schedule by at most [k]
    records, and by fewer only when its condition has failed. *)
Lemma bounded_loop_extends k st :
  exists tail,
    gs_schedule (unroll cond body k st) = gs_schedule st ++ tail /\
    (length tail <= k)%nat /\
    ((length tail < k)%nat -> cond (unroll cond body k st) = false).
Proof.
  induction k as [|k IH].
  - exists []. simpl. rewrite app_nil_r. split; [reflexivity|]. split; lia.
  - destruct IH as (tail & Hs & Hlen & Hstop). rewrite unroll_succ.
    destruct (cond (unroll cond body k st)) eqn:Hrun.
    + destruct (Hbody (unroll cond body k st)) as (r & Hr & _).
      exists (tail ++ [r]). rewrite Hr, Hs, app_assoc, length_app. cbn [length].
      split; [reflexivity|]. split; [lia|]. intros Hlt.
      assert (Hk : (length tail < k)%nat) by lia.
      apply Hstop in Hk. discriminate.
    + exists tail. split; [exact Hs|]. split; [lia|]. intros _. exact Hrun.
Qed.

Lemma bounded_loop_idle k st : cond st = false -> unroll cond body k st = st.
Proof. intros Hstop. destruct k; simpl; [|rewrite Hstop]; reflexivity. Qed.
End BoundedLoop.

(** X18: the schedule of the fixed-rate evaluator has at most one record
    per month of each period, so at most the tenure when the fixed period
    lies within it; the records of the post-fixed period continue the
    numbering of the fixed period: record [i] is month [i mod 12 + 1] of
    year [i / 12], and its payment is its interest plus its principal. *)
Theorem fixed_rate_schedule_layout
    (principal fixedRate : Q) (fixedRateMonths : Z) (postFixedRate : Q)
    (totalTenureMonths : Z) (monthlyOverpayment : Q) :
  let schedule :=
    FixedRateResult.schedule
      (calculateFixedRateImpact principal fixedRate fixedRateMonths postFixedRate
         totalTenureMonths monthlyOverpayment) in
  (length schedule <=
   Z.to_nat fixedRateMonths + Z.to_nat (totalTenureMonths - fixedRateMonths))%nat /\
  ((0 <= fixedRateMonths <= totalTenureMonths)%Z ->
   (Z.of_nat (length schedule) <= totalTenureMonths)%Z) /\
  (forall i r, nth_error schedule i = Some r ->
     PaymentRecord.month r = (Z.of_nat i mod 12 + 1)%Z /\
     PaymentRecord.year r = (Z.of_nat i / 12)%Z /\
     PaymentRecord.payment r = PaymentRecord.interest r + PaymentRecord.principal r).
Proof.
  cbv zeta. unfold calculateFixedRateImpact. cbv zeta. cbn [FixedRateResult.schedule].
  set (st1 := fixed_phase principal fixedRate fixedRateMonths totalTenureMonths
                monthlyOverpayment).
  assert (H1 : exists s1, gs_schedule st1 = s1 /\ (length s1 <= Z.to_nat fixedRateMonths)%nat).
  { destruct (bounded_loop_extends fixed_cond _
                (gen_body_appends (calculateMonthlyEMI principal fixedRate totalTenureMonths)
                   (fixedRate / 12 / 100) monthlyOverpayment)
                (Z.to_nat fixedRateMonths) (gen_init principal)) as (tail & Hs & Hlen & _).
    exists tail. split; [exact Hs|exact Hlen]. }
  destruct H1 as (s1 & Hs1 & Hlen1).
  destruct (bounded_loop_extends fixed_cond _
              (post_body_appends (calculateMonthlyEMI (gs_balance st1) postFixedRate
                                    (totalTenureMonths - fixedRateMonths))
                 (postFixedRate / 12 / 100))
              (Z.to_nat (totalTenureMonths - fixedRateMonths)) st1)
    as (s2 & Hs2 & Hlen2 & _).
  unfold post_phase. cbv zeta.
  assert (Hlen : (length (gs_schedule
                    (unroll fixed_cond
                       (post_body (calculateMonthlyEMI (gs_balance st1) postFixedRate
                                     (totalTenureMonths - fixedRateMonths))
                          (postFixedRate / 12 / 100))
                       (Z.to_nat (totalTenureMonths - fixedRateMonths)) st1))
                  <= Z.to_nat fixedRateMonths
                     + Z.to_nat (totalTenureMonths - fixedRateMonths))%nat).
  { rewrite Hs2, Hs1, length_app. lia. }
  split; [exact Hlen|]. split; [intros Hf; lia|].
  apply bounded_loop_laidOut; [apply post_body_appends|].
  apply bounded_loop_laidOut; [apply gen_body_appends|].
  apply laidOut_init.
Qed.

Lemma fixed_rate_schedule_layout_witness :
  (Z.of_nat (length (FixedRateResult.schedule
                       (calculateFixedRateImpact 1200 12 1 6 3 0))) <= 3)%Z.
Proof.
  apply (proj1 (proj2 (fixed_rate_schedule_layout 1200 12 1 6 3 0))). lia.
Defined.

(** X19: the interest reported for the fixed period is the interest of the
    first [fixedRateMonths] records of the schedule; when the loan is paid
    off within the fixed period (no balance left after it) the schedule
    stops there and the interest saved is measured against the interest of
    the fixed period alone; when a balance is left, the fixed period has
    all its [fixedRateMonths] records. *)
Theorem fixed_rate_interest_split
    (principal fixedRate : Q) (fixedRateMonths : Z) (postFixedRate : Q)
    (totalTenureMonths : Z) (monthlyOverpayment : Q) :
  let res :=
    calculateFixedRateImpact principal fixedRate fixedRateMonths postFixedRate
      totalTenureMonths monthlyOverpayment in
  let schedule := FixedRateResult.schedule res in
  FixedRateResult.interestDuringFixedPeriod res =
    sumInterest (firstn (Z.to_nat fixedRateMonths) schedule) /\
  (FixedRateResult.principalAfterFixedPeriod res <= 0 ->
   (length schedule <= Z.to_nat fixedRateMonths)%nat /\
   FixedRateResult.totalInterestSaved res =
     calculateMonthlyEMI principal fixedRate totalTenureMonths
       * inject_Z totalTenureMonths - principal
     - FixedRateResult.interestDuringFixedPeriod res) /\
  (0 < FixedRateResult.principalAfterFixedPeriod res ->
   (Z.to_nat fixedRateMonths <= length schedule)%nat).
Proof.
  cbv zeta. unfold calculateFixedRateImpact. cbv zeta.
  cbn [FixedRateResult.schedule FixedRateResult.interestDuringFixedPeriod
       FixedRateResult.principalAfterFixedPeriod FixedRateResult.totalInterestSaved].
  set (st1 := fixed_phase principal fixedRate fixedRateMonths totalTenureMonths
                monthlyOverpayment).
  assert (H1 : (length (gs_schedule st1) <= Z.to_nat fixedRateMonths)%nat /\
               ((length (gs_schedule st1) < Z.to_nat fixedRateMonths)%nat ->
                fixed_cond st1 = false)).
  { destruct (bounded_loop_extends fixed_cond _
                (gen_body_appends (calculateMonthlyEMI principal fixedRate totalTenureMonths)
                   (fixedRate / 12 / 100) monthlyOverpayment)
                (Z.to_nat fixedRateMonths) (gen_init principal)) as (tail & Hs & Hlen & Hstop).
    fold (fixed_phase principal fixedRate fixedRateMonths totalTenureMonths
            monthlyOverpayment) in Hs, Hstop. fold st1 in Hs, Hstop.
    simpl in Hs. rewrite Hs. auto. }
  destruct H1 as (Hlen1 & Hstop1).
  destruct (bounded_loop_extends fixed_cond _
              (post_body_appends (calculateMonthlyEMI (gs_balance st1) postFixedRate
                                    (totalTenureMonths - fixedRateMonths))
                 (postFixedRate / 12 / 100))
              (Z.to_nat (totalTenureMonths - fixedRateMonths)) st1)
    as (s2 & Hs2 & _).
  fold (post_phase postFixedRate (totalTenureMonths - fixedRateMonths) st1) in Hs2.
  assert (Hidle : fixed_cond st1 = false ->
                  post_phase postFixedRate (totalTenureMonths - fixedRateMonths) st1 = st1).
  { intros Hstop. apply bounded_loop_idle. exact Hstop. }
  split; [|split].
  - destruct (Nat.eq_dec (length (gs_schedule st1)) (Z.to_nat fixedRateMonths)) as [E|E].
    + rewrite Hs2, <- E, firstn_app, Nat.sub_diag, firstn_all. simpl.
      rewrite app_nil_r. reflexivity.
    + rewrite Hidle by (apply Hstop1; lia). rewrite firstn_all2 by exact Hlen1.
      reflexivity.
  - intros Hpaid.
    assert (Hstop : fixed_cond st1 = false).
    { unfold fixed_cond. apply Qltb_ge. exact Hpaid. }
    rewrite (Hidle Hstop). split; [exact Hlen1|reflexivity].
  - intros Hleft.
    destruct (Nat.eq_dec (length (gs_schedule st1)) (Z.to_nat fixedRateMonths)) as [E|E].
    + rewrite Hs2, length_app. lia.
    + assert (Hstop : fixed_cond st1 = false) by (apply Hstop1; lia).
      unfold fixed_cond in Hstop. apply Qltb_ge in Hstop. lra.
Qed.

Lemma fixed_rate_interest_split_witness :
  (length (FixedRateResult.schedule (calculateFixedRateImpact 1200 12 2 6 3 2000))
   <= 2)%nat.
Proof.
  apply (proj1 (proj2 (fixed_rate_interest_split 1200 12 2 6 3 2000))).
  vm_compute. discriminate.
Defined.

(** * Further properties of the EMI formulas *)

Section Instalment.
Variables P r : Q.
Variable n : Z.
Hypothesis HP : 0 < P.
Hypothesis Hr : 0 < r.
Hypothesis Hn : (0 < n)%Z.

Local Abbreviation i := (r / 12 / 100).

(** [(1 + i)^k (1 - k i) < 1] for [k >= 1]: compounding over [k] months
    costs more than [k] months of simple interest. *)
Lemma compounding_exceeds_simple k :
  (1 + i) ^ Z.of_nat (S k) * (1 - inject_Z (Z.of_nat (S k)) * i) < 1.
Proof.
  pose proof (rate_pos r Hr) as Hi.
  induction k as [|k IH].
  - change (Z.of_nat 1) with 1%Z. rewrite Qpower_1_r.
    assert (H : 0 < i * i) by (apply Qmult_lt_0_compat; assumption).
    change (inject_Z 1) with 1. lra.
  - rewrite (growth_succ r Hr (S k)).
    set (x := (1 + i) ^ Z.of_nat (S k)) in *.
    assert (Hm : inject_Z (Z.of_nat (S (S k))) == inject_Z (Z.of_nat (S k)) + 1).
    { rewrite (Nat2Z.inj_succ (S k)). unfold Z.succ. rewrite inject_Z_plus. reflexivity. }
    rewrite Hm. set (m := inject_Z (Z.of_nat (S k))) in *.
    assert (Hx : 0 < x).
    { unfold x. apply Qpower_0_lt. lra. }
    assert (Hmpos : 0 < m + 1).
    { assert (H0 : inject_Z 0 <= m) by (unfold m; rewrite <- Zle_Qle; lia).
      change (inject_Z 0) with 0 in H0. lra. }
    assert (Hsq : 0 < x * (m + 1) * i * i).
    { repeat apply Qmult_lt_0_compat; assumption. }
    assert (Heq : x * (1 + i) * (1 - (m + 1) * i)
                  == x * (1 - m * i) - x * (m + 1) * i * i) by ring.
    rewrite Heq. lra.
Qed.

Lemma instalment_exceeds_interest : P * i < calculateMonthlyEMI P r n.
Proof.
  rewrite (emi_closed_form P r n Hr Hn).
  pose proof (rate_pos r Hr) as Hi. pose proof (growth_gt_1 r n Hr Hn) as HX.
  set (X := (1 + i) ^ n) in *.
  apply Qlt_shift_div_l; [lra|].
  assert (H : 0 < P * i) by (apply Qmult_lt_0_compat; assumption).
  assert (Heq : P * i * (X - 1) == P * i * X - P * i) by ring.
  rewrite Heq. lra.
Qed.

Lemma instalments_exceed_principal : P < calculateMonthlyEMI P r n * inject_Z n.
Proof.
  rewrite (emi_closed_form P r n Hr Hn).
  pose proof (rate_pos r Hr) as Hi. pose proof (growth_gt_1 r n Hr Hn) as HX.
  pose proof (compounding_exceeds_simple (Z.to_nat n - 1)) as Hc.
  replace (S (Z.to_nat n - 1)) with (Z.to_nat n) in Hc by lia.
  rewrite Z2Nat.id in Hc by lia.
  set (X := (1 + i) ^ n) in *. set (m := inject_Z n) in *.
  assert (Heq : P * i * X / (X - 1) * m == P * (i * X * m) / (X - 1)) by (field; lra).
  rewrite Heq. apply Qlt_shift_div_l; [lra|].
  assert (Hgap : 0 < P * (1 - X * (1 - m * i))).
  { apply Qmult_lt_0_compat; [exact HP|lra]. }
  assert (Heq2 : P * (i * X * m) == P * (X - 1) + P * (1 - X * (1 - m * i))) by ring.
  rewrite Heq2. lra.
Qed.
End Instalment.

(** X20: in exact arithmetic, for a loan [P > 0] at a rate [r > 0] over
    [n >= 1] months, the installment exceeds the interest of the first
    month (so the balance goes down from the first payment on), the total
    interest is positive (the installments add up to more than the loan),
    and the total amount is the loan plus the total interest. *)
Theorem loan_costs_interest (P r : Q) (n : Z) :
  0 < P -> 0 < r -> (0 < n)%Z ->
  let emi := calculateMonthlyEMI P r n in
  let totals := calculateTotalInterestAndAmount P emi n in
  P * (r / 12 / 100) < emi /\
  0 < fst totals /\
  snd totals == P + fst totals.
Proof.
  intros HP Hr Hn. cbv zeta. unfold calculateTotalInterestAndAmount. cbn [fst snd].
  pose proof (instalment_exceeds_interest P r n HP Hr Hn) as H1.
  pose proof (instalments_exceed_principal P r n HP Hr Hn) as H2.
  split; [exact H1|]. split; [lra|ring].
Qed.

Lemma loan_costs_interest_witness :
  0 < fst (calculateTotalInterestAndAmount 1200 (calculateMonthlyEMI 1200 12 3) 3).
Proof.
  apply (proj1 (proj2 (loan_costs_interest 1200 12 3 ltac:(reflexivity) ltac:(reflexivity)
                         ltac:(reflexivity)))).
Defined.

Lemma getMonthlyRate_monthlyRate r : getMonthlyRate r == r / 12 / 100.
Proof. unfold getMonthlyRate. field. Qed.

(** X21: in exact arithmetic, for a rate [r >= 0] and [n >= 1] months the
    EMI formula of the date-aware module gives the EMI of the basic module
    (the two divide the annual rate by 12 and by 100 in opposite orders),
    and the EMI is proportional to the loan amount. *)
Theorem emi_modules_agree (P r c : Q) (n : Z) :
  0 <= r -> (0 < n)%Z ->
  calculateEMI P (getMonthlyRate r) n == calculateMonthlyEMI P r n /\
  calculateMonthlyEMI (c * P) r n == c * calculateMonthlyEMI P r n.
Proof.
  intros Hr Hn.
  assert (Hnz : ~ inject_Z n == 0).
  { change 0 with (inject_Z 0). rewrite inject_Z_injective. lia. }
  unfold calculateEMI, calculateMonthlyEMI. cbv zeta.
  pose proof (getMonthlyRate_monthlyRate r) as Hg.
  destruct (Qeq_bool (r / 12 / 100) 0) eqn:E.
  - assert (E' : Qeq_bool (getMonthlyRate r) 0 = true).
    { apply Qeq_bool_iff. rewrite Hg. apply Qeq_bool_iff. exact E. }
    rewrite E'. split; [reflexivity|]. field. exact Hnz.
  - assert (E' : Qeq_bool (getMonthlyRate r) 0 = false).
    { destruct (Qeq_bool (getMonthlyRate r) 0) eqn:F; [|reflexivity].
      apply Qeq_bool_iff in F. rewrite Hg in F. apply Qeq_bool_iff in F. congruence. }
    rewrite E'.
    assert (Hpos : 0 < r).
    { apply Qeq_bool_neq in E. destruct (Qlt_le_dec 0 r) as [H|H]; [exact H|].
      destruct E. assert (r == 0) as -> by lra. reflexivity. }
    pose proof (growth_gt_1 r n Hpos Hn) as HX.
    split.
    + rewrite Hg. set (X := (1 + r / 12 / 100) ^ n) in *. field. lra.
    + set (X := (1 + r / 12 / 100) ^ n) in *. field. lra.
Qed.

Lemma emi_modules_agree_witness :
  calculateEMI 1200 (getMonthlyRate 12) 3 == calculateMonthlyEMI 1200 12 3.
Proof.
  apply (proj1 (emi_modules_agree 1200 12 1 3 ltac:(discriminate) ltac:(reflexivity))).
Defined.

(** * Further properties of the part-payment evaluator *)

(** X22: the 10 % limit of the part-payment evaluator is only reported,
    never enforced: the original loan amount, from which the limit is
    computed, influences no field of the result other than
    [maxAllowedPayment] and [isWithinLimit].  Whatever the limit says, the
    new balance is [max(0, balance - lump sum)], and when it is not zero
    the schedule is the standard schedule of a loan of the new balance
    over the same remaining months and [principalReduction] is the lump
    sum. *)
Theorem part_payment_limit_only_reported
    (fuel : nat) (currentBalance : Q) (remainingTenureMonths : Z)
    (annualRate lumpSumAmount originalLoanAmount : Q) (res : PartPaymentResult.t) :
  calculatePartPaymentImpact fuel currentBalance remainingTenureMonths
    annualRate lumpSumAmount originalLoanAmount = Some res ->
  PartPaymentResult.newBalance res == Qmax 0 (currentBalance - lumpSumAmount) /\
  (~ PartPaymentResult.newBalance res == 0 ->
   generateAmortizationSchedule fuel (Qmax 0 (currentBalance - lumpSumAmount))
     annualRate remainingTenureMonths 0 = Some (PartPaymentResult.schedule res) /\
   PartPaymentResult.principalReduction res = lumpSumAmount) /\
  forall otherLoanAmount, exists maxAllowedPayment isWithinLimit,
    calculatePartPaymentImpact fuel currentBalance remainingTenureMonths
      annualRate lumpSumAmount otherLoanAmount =
    Some (PartPaymentResult.mk
            (PartPaymentResult.originalBalance res)
            (PartPaymentResult.lumpSumAmount res)
            (PartPaymentResult.newBalance res)
            (PartPaymentResult.principalReduction res)
            (PartPaymentResult.originalTenureMonths res)
            (PartPaymentResult.newTenureMonths res)
            (PartPaymentResult.tenureSaved res)
            (PartPaymentResult.originalTotalInterest res)
            (PartPaymentResult.newTotalInterest res)
            (PartPaymentResult.interestSaved res)
            maxAllowedPayment isWithinLimit
            (PartPaymentResult.schedule res)).
Proof.
  unfold calculatePartPaymentImpact. cbv zeta.
  destruct (Qeq_bool (Qmax 0 (currentBalance - lumpSumAmount)) 0) eqn:Hzero.
  - intros [= <-]. cbn. apply Qeq_bool_iff in Hzero.
    split; [symmetry; exact Hzero|]. split.
    + intros H. destruct H. reflexivity.
    + intros otherLoanAmount. do 2 eexists. reflexivity.
  - destruct (generateAmortizationSchedule fuel _ annualRate remainingTenureMonths 0)
      as [schedule|] eqn:Hgen; [|discriminate].
    intros [= <-]. cbn.
    split; [reflexivity|]. split.
    + intros _. split; reflexivity.
    + intros otherLoanAmount. do 2 eexists. reflexivity.
Qed.

Lemma part_payment_limit_only_reported_witness :
  exists res,
    calculatePartPaymentImpact 3 2400 3 12 1200 2400 = Some res /\
    PartPaymentResult.isWithinLimit res = false /\
    PartPaymentResult.newBalance res == Qmax 0 (2400 - 1200).
Proof.
  eexists. split; [vm_compute; reflexivity|]. split; [vm_compute; reflexivity|].
  eapply (fun H => proj1 (part_payment_limit_only_reported 3 2400 3 12 1200 2400 _ H)).
  vm_compute. reflexivity.
Defined.

(** * The ledger of the fixed-rate evaluator *)

Local Open Scope float_scope.

Lemma ltb_irrefl x : (x <? x) = false.
Proof.
  rewrite ltb_spec. unfold SFltb.
  destruct (Prim2SF x) as [[]|[]| |[] m e] eqn:E; try reflexivity;
    rewrite SFcompare_refl by discriminate; reflexivity.
Qed.

(** A clamped principal is never above the balance it was clamped to. *)
Lemma clamp_self (balance due : float) :
  let principal := if balance <? due then balance else due in
  principal = (if balance <? principal then balance else principal).
Proof.
  cbv zeta. destruct (balance <? due) eqn:E.
  - rewrite ltb_irrefl. reflexivity.
  - rewrite E. reflexivity.
Qed.

Section FixedRateLoops.
Variables fixedEMI monthlyRate monthlyOverpayment principal : float.
Variables postFixedEMI postFixedRate_monthly : float.
Variables fixedRateMonths remainingMonths : Z.

Local Abbreviation afterFixed :=
  (unroll IEEE.fixed_cond (IEEE.gen_body fixedEMI monthlyRate monthlyOverpayment)
     (Z.to_nat fixedRateMonths) (IEEE.mkGenState principal 0 0 [])).
Local Abbreviation afterPost :=
  (unroll IEEE.fixed_cond (IEEE.post_body postFixedEMI postFixedRate_monthly)
     (Z.to_nat remainingMonths) afterFixed).
Local Abbreviation kept st :=
  (IEEE.clamped IEEE.PaymentRecord.principal IEEE.PaymentRecord.balance
     IEEE.PaymentRecord.principal principal (IEEE.gs_schedule st) /\
   ((0 <? IEEE.gs_balance st) = true ->
    IEEE.gs_balance st =
    IEEE.closingBalance IEEE.PaymentRecord.balance principal (IEEE.gs_schedule st))).

Lemma fixed_loop_period st :
  exists r,
    IEEE.gs_schedule (IEEE.gen_body fixedEMI monthlyRate monthlyOverpayment st) =
      IEEE.gs_schedule st ++ [r] /\
    IEEE.PaymentRecord.principal r =
      (if IEEE.gs_balance st <? IEEE.PaymentRecord.principal r
       then IEEE.gs_balance st else IEEE.PaymentRecord.principal r) /\
    IEEE.PaymentRecord.balance r =
      IEEE.Math_max 0
        (IEEE.gs_balance (IEEE.gen_body fixedEMI monthlyRate monthlyOverpayment st)) /\
    IEEE.gs_balance (IEEE.gen_body fixedEMI monthlyRate monthlyOverpayment st) =
      IEEE.gs_balance st - IEEE.PaymentRecord.principal r.
Proof.
  destruct (IEEE_gen_body_period fixedEMI monthlyRate monthlyOverpayment st)
    as (r & Hs & Hp & Hr & Hb).
  exists r. split; [exact Hs|]. split; [|split; assumption].
  rewrite Hp. apply clamp_self.
Qed.

Lemma post_loop_period st :
  exists r,
    IEEE.gs_schedule (IEEE.post_body postFixedEMI postFixedRate_monthly st) =
      IEEE.gs_schedule st ++ [r] /\
    IEEE.PaymentRecord.principal r =
      (if IEEE.gs_balance st <? IEEE.PaymentRecord.principal r
       then IEEE.gs_balance st else IEEE.PaymentRecord.principal r) /\
    IEEE.PaymentRecord.balance r =
      IEEE.Math_max 0
        (IEEE.gs_balance (IEEE.post_body postFixedEMI postFixedRate_monthly st)) /\
    IEEE.gs_balance (IEEE.post_body postFixedEMI postFixedRate_monthly st) =
      IEEE.gs_balance st - IEEE.PaymentRecord.principal r.
Proof.
  destruct (IEEE_post_body_period postFixedEMI postFixedRate_monthly st)
    as (r & Hs & Hp & Hr & Hb).
  exists r. split; [exact Hs|]. split; [|split; assumption].
  rewrite Hp. apply clamp_self.
Qed.

Lemma fixed_phase_kept : kept afterFixed.
Proof.
  apply (clamped_loop IEEE.gs_balance IEEE.gs_schedule
           IEEE.PaymentRecord.principal IEEE.PaymentRecord.balance
           IEEE.PaymentRecord.principal IEEE.fixed_cond
           (IEEE.gen_body fixedEMI monthlyRate monthlyOverpayment) principal).
  - intros st H. exact H.
  - apply fixed_loop_period.
  - split; [intros [|i] r; discriminate|]. intros _. reflexivity.
Qed.

Lemma post_phase_kept : kept afterPost.
Proof.
  apply (clamped_loop IEEE.gs_balance IEEE.gs_schedule
           IEEE.PaymentRecord.principal IEEE.PaymentRecord.balance
           IEEE.PaymentRecord.principal IEEE.fixed_cond
           (IEEE.post_body postFixedEMI postFixedRate_monthly) principal).
  - intros st H. exact H.
  - apply post_loop_period.
  - apply fixed_phase_kept.
Qed.

(** A loop of at most [k] iterations appends at most [k] records, and
    fewer only when the balance is no longer positive. *)
Lemma fixed_cond_loop_extends (body : IEEE.GenState -> IEEE.GenState) k st :
  (forall s, exists r, IEEE.gs_schedule (body s) = IEEE.gs_schedule s ++ [r]) ->
  exists tail,
    IEEE.gs_schedule (unroll IEEE.fixed_cond body k st) = IEEE.gs_schedule st ++ tail /\
    (length tail <= k)%nat /\
    ((length tail < k)%nat -> IEEE.fixed_cond (unroll IEEE.fixed_cond body k st) = false).
Proof.
  intros Hbody. induction k as [|k IH].
  - exists []. simpl. rewrite app_nil_r. split; [reflexivity|]. split; lia.
  - destruct IH as (tail & Hs & Hlen & Hstop). rewrite unroll_succ.
    destruct (IEEE.fixed_cond (unroll IEEE.fixed_cond body k st)) eqn:Hrun.
    + destruct (Hbody (unroll IEEE.fixed_cond body k st)) as (r & Hr).
      exists (tail ++ [r]). rewrite Hr, Hs, app_assoc, length_app. cbn [length].
      split; [reflexivity|]. split; [lia|]. intros Hlt.
      assert (Hk : (length tail < k)%nat) by lia.
      apply Hstop in Hk. discriminate.
    + exists tail. split; [exact Hs|]. split; [lia|]. intros _. exact Hrun.
Qed.

Lemma balance_after_fixed_period :
  (0 <? IEEE.gs_balance afterFixed) = true ->
  IEEE.gs_balance afterFixed =
  IEEE.enteringBalance IEEE.PaymentRecord.balance principal
    (IEEE.gs_schedule afterPost) (Z.to_nat fixedRateMonths).
Proof.
  intros Hleft. destruct fixed_phase_kept as (_ & Hb). rewrite (Hb Hleft).
  destruct (fixed_cond_loop_extends
              (IEEE.gen_body fixedEMI monthlyRate monthlyOverpayment)
              (Z.to_nat fixedRateMonths) (IEEE.mkGenState principal 0 0 [])) as
    (s1 & Hs1 & Hlen1 & Hstop1).
  { intros s. destruct (IEEE_gen_body_period fixedEMI monthlyRate monthlyOverpayment s)
      as (r & Hr & _). exists r. exact Hr. }
  destruct (fixed_cond_loop_extends
              (IEEE.post_body postFixedEMI postFixedRate_monthly)
              (Z.to_nat remainingMonths) afterFixed) as (s2 & Hs2 & _).
  { intros s. destruct (IEEE_post_body_period postFixedEMI postFixedRate_monthly s)
      as (r & Hr & _). exists r. exact Hr. }
  simpl in Hs1.
  assert (Hfull : length s1 = Z.to_nat fixedRateMonths).
  { destruct (Nat.eq_dec (length s1) (Z.to_nat fixedRateMonths)) as [E|E]; [exact E|].
    assert (Hstop : IEEE.fixed_cond afterFixed = false) by (apply Hstop1; lia).
    change ((0 <? IEEE.gs_balance afterFixed) = false) in Hstop.
    rewrite Hleft in Hstop. discriminate. }
  rewrite Hs2, Hs1, <- Hfull. unfold IEEE.closingBalance.
  destruct (length s1) as [|j] eqn:Hl; [reflexivity|].
  cbn [IEEE.enteringBalance]. rewrite nth_error_app1 by lia. reflexivity.
Qed.
End FixedRateLoops.

(** X23: in binary64, every record that the two loops of
    [calculateFixedRateImpact] emit (whatever the two installments) and
    whose principal is a finite number has a balance that is not negative
    and a principal of at most the balance its month starts from; and when
    a balance is left after the fixed period, [principalAfterFixedPeriod]
    is the balance that record number [fixedRateMonths] records (the loan
    amount when the fixed period is empty), the one the post-fixed period
    starts from. *)
Theorem fixed_rate_ledger
    (fixedEMI monthlyRate monthlyOverpayment principal : float)
    (postFixedEMI postFixedRate_monthly : float)
    (fixedRateMonths remainingMonths : Z) :
  let afterFixed :=
    unroll IEEE.fixed_cond (IEEE.gen_body fixedEMI monthlyRate monthlyOverpayment)
      (Z.to_nat fixedRateMonths) (IEEE.mkGenState principal 0 0 []) in
  let afterPost :=
    unroll IEEE.fixed_cond (IEEE.post_body postFixedEMI postFixedRate_monthly)
      (Z.to_nat remainingMonths) afterFixed in
  let schedule := IEEE.gs_schedule afterPost in
  let principalAfterFixedPeriod := IEEE.gs_balance afterFixed in
  (forall i rec, nth_error schedule i = Some rec ->
     is_finite (IEEE.PaymentRecord.principal rec) = true ->
     (0 <=? IEEE.PaymentRecord.balance rec) = true /\
     (IEEE.PaymentRecord.principal rec <=?
      IEEE.enteringBalance IEEE.PaymentRecord.balance principal schedule i) = true) /\
  ((0 <? principalAfterFixedPeriod) = true ->
   principalAfterFixedPeriod =
   IEEE.enteringBalance IEEE.PaymentRecord.balance principal schedule
     (Z.to_nat fixedRateMonths)).
Proof.
  cbv zeta. split.
  - intros i rec Hi Hfin.
    destruct (post_phase_kept fixedEMI monthlyRate monthlyOverpayment principal
                postFixedEMI postFixedRate_monthly fixedRateMonths remainingMonths)
      as (Hc & _).
    destruct (Hc i rec Hi) as (Hpos & Hp & Hb).
    destruct (clamped_record_within _ _ _ _ Hpos Hp Hb Hfin) as (H1 & H2 & _).
    split; assumption.
  - apply balance_after_fixed_period.
Qed.

Lemma fixed_rate_ledger_witness :
  IEEE.gs_balance
    (unroll IEEE.fixed_cond (IEEE.gen_body 408 (12 / 12 / 100) 0)
       (Z.to_nat 1) (IEEE.mkGenState 1200 0 0 [])) =
  IEEE.enteringBalance IEEE.PaymentRecord.balance 1200
    (IEEE.gs_schedule
       (unroll IEEE.fixed_cond (IEEE.post_body 600 (6 / 12 / 100)) (Z.to_nat 2)
          (unroll IEEE.fixed_cond
             (IEEE.gen_body 408 (12 / 12 / 100) 0)
             (Z.to_nat 1) (IEEE.mkGenState 1200 0 0 []))))
    (Z.to_nat 1).
Proof.
  apply (proj2 (fixed_rate_ledger 408 (12 / 12 / 100) 0
                  1200 600 (6 / 12 / 100) 1 2)).
  vm_compute. reflexivity.
Defined.

Local Close Scope float_scope.
